(** * Submap: resampling a map onto a new grid (modules/submap.js)

    A shallow embedding of the resampling pipeline of [window.Submap] and the
    properties of its heightmap post-processing and overlay restoration.

    Conventions of the embedding.
    - A JavaScript number that carries a coordinate, a population or a mean is
      a rational [Q]; [undefined] and [NaN] are [None].
    - A typed array ([Uint8Array], [Int8Array], [Uint16Array]) is a list;
      reading out of range gives [undefined] (list lookup [!!]), writing out
      of range does nothing (list insert), and a write converts its value to
      the element type ([toUint8], [toInt8], [toUint16]).
    - Cell ids, which index arrays, are [nat]; entity ids are [N];
      elevations are [Z].
    - A [TypeError] (spreading or indexing [undefined]) aborts [resample]; the
      functions that can raise it return [option], [None] being the abort.
    - Helpers of the program that live outside modules/submap.js ([rn],
      [findCell], [findAll], the d3 quadtree, the pole helper) and the
      ambient globals ([graphWidth], [graphHeight]) are the fields of the
      class [Env]; [envOf] is an instance on which the functions run. *)

From stdpp Require Import base option list numbers strings gmap.
From Stdlib Require Import QArith Qround Qminmax Lqa.

Open Scope Z_scope.

(** ** JavaScript numbers and typed arrays *)

(** Truncation toward zero, the integer conversion of a typed-array store. *)
Definition Qtrunc (q : Q) : Z := Z.quot (Qnum q) (Z.pos (Qden q)).

(** [ToUint8]: [NaN] and [undefined] become 0, anything else is truncated and
    reduced modulo 256. *)
Definition toUint8 (v : option Q) : Z :=
  match v with
  | Some q => Qtrunc q `mod` 256
  | None => 0
  end.

(** [ToUint16] of an entity id, [undefined] becoming 0. *)
Definition toUint16 (v : option N) : N :=
  match v with
  | Some n => (n `mod` 65536)%N
  | None => 0%N
  end.

(** Every element of a [Uint8Array] is in 0..255. *)
Definition uint8_array (h : list Z) : Prop := Forall (λ v, 0 <= v < 256) h.

(** [Math.min] and [Math.max] against a constant; [NaN] is contagious. *)
Definition Math_min (a : option Q) (b : Q) : option Q := (λ x, Qmin x b) <$> a.
Definition Math_max (a : option Q) (b : Q) : option Q := (λ x, Qmax x b) <$> a.

(** Modelled from the spec: [d3.mean] of the d3 library, "the mean elevation of
    itself and its grid neighbors". Entries that are [undefined] are skipped;
    a list without a number has no mean. *)
Definition d3_mean (values : list (option Z)) : option Q :=
  let defined := omap id values in
  match defined with
  | [] => None
  | _ => Some (inject_Z (foldr Z.add 0%Z defined) / inject_Z (Z.of_nat (length defined)))%Q
  end.

(** [array.forEach((element, index) => ...)] over an ordinary array, the
    callback threading a state and able to abort. *)
Fixpoint forEachFrom {A St : Type} (f : St → A → nat → option St)
    (l : list A) (index : nat) (s : St) : option St :=
  match l with
  | [] => Some s
  | element :: l' => f s element index ≫= forEachFrom f l' (S index)
  end.

Definition forEach {A St : Type} (f : St → A → nat → option St) (l : list A) (s : St)
  : option St := forEachFrom f l 0%nat s.

(** JavaScript truthiness of an element read from an id array: [undefined]
    and 0 are falsy. *)
Definition truthy (v : option N) : bool :=
  match v with
  | Some n => negb (n =? 0)%N
  | None => false
  end.

(** ** Land and water *)

(** [isWater(graph, cellId)]: [graph.cells.h[cellId] < 20]; the comparison
    with [undefined] is false. *)
Definition isWater (h : list Z) (cellId : nat) : bool :=
  match h !! cellId with
  | Some v => v <? 20
  | None => false
  end.

(** ** Heightmap post-processing *)

(** The mean that [smoothHeightmap] computes for [newGridCell] from the
    array [h] as it is when the cell is visited: [height] first, then the
    neighbours' elevations read from [h]. *)
Definition heights (h : list Z) (height : Z) (neibs : list nat) : list (option Z) :=
  Some height :: map (λ c, h !! c) neibs.

(** The clamp: water is kept at 19 or below, land at 20 or above. *)
Definition clamp (water : bool) (meanHeight : option Q) : option Q :=
  if water then Math_min meanHeight 19 else Math_max meanHeight 20.

(** The body of the [forEach] callback of [smoothHeightmap]. [c] is
    [grid.cells.c]; [c !! newGridCell] being [undefined] is a [TypeError]. *)
Definition smoothCell (c : list (list nat)) (h : list Z) (newGridCell : nat)
  : option (list Z) :=
  height ← h !! newGridCell;
  neibs ← c !! newGridCell;
  let meanHeight := d3_mean (heights h height neibs) in
  Some (<[newGridCell := toUint8 (clamp (isWater h newGridCell) meanHeight)]> h).

(** The array after the first [n] cells have been visited. *)
Definition smoothPrefix (c : list (list nat)) (h : list Z) (n : nat) : option (list Z) :=
  foldl (λ acc k, acc ≫= λ h', smoothCell c h' k) (Some h) (seq 0 n).

(** [smoothHeightmap]: [grid.cells.h.forEach] visits the cells in
    increasing index order and writes into the array it reads. *)
Definition smoothHeightmap (c : list (list nat)) (h : list Z) : option (list Z) :=
  smoothPrefix c h (length h).

(** The reading of smoothing as a pointwise map: every cell is computed
    from the elevations before smoothing. *)
Definition smoothValue (c : list (list nat)) (h : list Z) (k : nat) : option Z :=
  height ← h !! k;
  neibs ← c !! k;
  Some (toUint8 (clamp (isWater h k) (d3_mean (heights h height neibs)))).

Definition smoothPointwise (c : list (list nat)) (h : list Z) : option (list Z) :=
  mapM (smoothValue c h) (seq 0 (length h)).

(** The clamped mean as a rational, before the store converts it. *)
Definition clampedMean (c : list (list nat)) (h : list Z) (k : nat) : option Q :=
  height ← h !! k;
  neibs ← c !! k;
  clamp (isWater h k) (d3_mean (heights h height neibs)).

(** ** The data model *)

Definition Point : Type := Q * Q.

(** An entry of a d3 quadtree: [[x, y, cellId]]. *)
Definition QuadPoint : Type := Q * Q * nat.

Module Cells.
(** [pack.cells]: the arrays of the interface [IPack] that the module
    reads, the river array [r], and the overlay arrays. [q] is the
    quadtree over all cells, kept as the entries it indexes. *)
Record t := mk {
  i : list nat;
  p : list Point;
  g : list nat;
  h : list Z;
  area : list Q;
  r : list N;
  q : list QuadPoint;
  culture : list N;
  state : list N;
  burg : list N;
  religion : list N;
  province : list N
}.
End Cells.

Module Culture.
Record t := mk {
  i : N; name : string; center : option nat; removed : bool; lock : bool
}.
(** [{...culture, removed: true, lock: false}] *)
Definition remove (c : t) : t := mk (i c) (name c) (center c) true false.
(** [{...culture, center}] *)
Definition withCenter (c : t) (center' : option nat) : t :=
  mk (i c) (name c) center' (removed c) (lock c).
End Culture.

Module Religion.
Record t := mk {
  i : N; name : string; center : option nat; removed : bool; lock : bool
}.
Definition remove (c : t) : t := mk (i c) (name c) (center c) true false.
Definition withCenter (c : t) (center' : option nat) : t :=
  mk (i c) (name c) center' (removed c) (lock c).
End Religion.

Module Burg.
Record t := mk {
  i : N; name : string; cell : nat; x : Q; y : Q; population : Q;
  removed : bool; lock : bool
}.
(** [burg.population *= scale], in place *)
Definition scalePopulation (b : t) (scale : Q) : t :=
  mk (i b) (name b) (cell b) (x b) (y b) (population b * scale)%Q (removed b) (lock b).
(** [{...burg, removed: true, lock: false}] *)
Definition remove (b : t) : t :=
  mk (i b) (name b) (cell b) (x b) (y b) (population b) true false.
(** [{...burg, x, y, cell}] *)
Definition place (b : t) (x' y' : Q) (cell' : nat) : t :=
  mk (i b) (name b) cell' x' y' (population b) (removed b) (lock b).
End Burg.

Module Regiment.
Record t := mk { cell : option nat; bx : Q; by_ : Q; x : Q; y : Q }.
End Regiment.

Module State.
Record t := mk {
  i : N; name : string; fullName : string; center : option nat; capital : N;
  pole : option Point; neighbors : list N; military : list Regiment.t;
  removed : bool; lock : bool
}.
Definition remove (s : t) : t :=
  mk (i s) (name s) (fullName s) (center s) (capital s) (pole s) (neighbors s)
     (military s) true false.
(** [{...state, neighbors, military}] *)
Definition withForces (s : t) (neighbors' : list N) (military' : list Regiment.t) : t :=
  mk (i s) (name s) (fullName s) (center s) (capital s) (pole s) neighbors'
     military' (removed s) (lock s).
(** [state.pole = ...] *)
Definition setPole (s : t) (pole' : option Point) : t :=
  mk (i s) (name s) (fullName s) (center s) (capital s) pole' (neighbors s)
     (military s) (removed s) (lock s).
(** [state.center = ...] *)
Definition setCenter (s : t) (center' : option nat) : t :=
  mk (i s) (name s) (fullName s) center' (capital s) (pole s) (neighbors s)
     (military s) (removed s) (lock s).
End State.

Module Province.
Record t := mk {
  i : N; name : string; fullName : string; center : option nat; burg : N;
  pole : option Point; removed : bool; lock : bool
}.
Definition remove (s : t) : t :=
  mk (i s) (name s) (fullName s) (center s) (burg s) (pole s) true false.
Definition setPole (s : t) (pole' : option Point) : t :=
  mk (i s) (name s) (fullName s) (center s) (burg s) pole' (removed s) (lock s).
Definition setCenter (s : t) (center' : option nat) : t :=
  mk (i s) (name s) (fullName s) center' (burg s) (pole s) (removed s) (lock s).
End Province.

Module Marker.
Record t := mk { i : N; x : Q; y : Q; cell : option nat }.
(** [marker.x = x'; marker.y = y'; marker.cell = cell'] *)
Definition move (m : t) (x' y' : Q) (cell' : option nat) : t := mk (i m) x' y' cell'.
End Marker.

Module Zone.
Record t := mk { i : N; name : string; cells : list nat }.
(** [{...zone, cells}] *)
Definition withCells (z : t) (cells' : list nat) : t := mk (i z) (name z) cells'.
End Zone.

Module Pack.
Record t := mk {
  cells : Cells.t;
  cultures : list Culture.t;
  states : list State.t;
  burgs : list Burg.t;
  religions : list Religion.t;
  provinces : list Province.t;
  markers : list Marker.t;
  zones : list Zone.t
}.
End Pack.

Module Grid.
(** [grid.cells]: elevation, temperature, precipitation, neighbours, and
    the [points] that [depressRivers] reads from [grid.cells]. *)
Record cells_t := mkCells {
  h : list Z; temp : list Z; prec : list Z; c : list (list nat);
  cpoints : list Point
}.
Record t := mk { points : list Point; cells : cells_t }.
End Grid.

(** [parentMap]: [{grid, pack}]. *)
Module ParentMap.
Record t := mk { grid : Grid.t; pack : Pack.t }.
End ParentMap.

(** [options]: the flags, the projection pair and the scale. *)
Module Options.
Record t := mk {
  smoothHeightmap : bool;
  depressRivers : bool;
  projection : Q → Q → Point;
  inverse : Q → Q → Point;
  scale : Q
}.
End Options.

(** What the module takes from the rest of the program: the map extent,
    [rn], [findCell] and [findAll] over the new pack, [d3.quadtree(data).find]
    with an infinite radius, the pole helper, and [Math.sqrt], [Math.PI]. *)
Class Env := {
  graphWidth : Q;
  graphHeight : Q;
  rn : Q → nat → Q;
  findCell : Q → Q → option nat;
  findAll : Q → Q → option Q → list nat;
  quadtree_find : list QuadPoint → Q → Q → option QuadPoint;
  getPolesOfInaccessibility : list N → N → option Point;
  Math_sqrt : Q → Q;
  Math_PI : Q
}.

(** ** The resampling functions *)

Section Submap.
Context `{Env}.

(** [isInMap(x, y)] *)
Definition isInMap (x y : Q) : bool :=
  Qle_bool 0 x && Qle_bool x graphWidth && Qle_bool 0 y && Qle_bool y graphHeight.

(** [groupCellsByType(graph).land]: the entries [[x, y, cellId]] of the cells
    that are not water, in cell order. *)
Fixpoint landFrom (h : list Z) (p : list Point) (cellId : nat) : list QuadPoint :=
  match p with
  | [] => []
  | (x, y) :: p' =>
      if isWater h cellId then landFrom h p' (S cellId)
      else (x, y, cellId) :: landFrom h p' (S cellId)
  end.

Definition groupCellsByType_land (cells : Cells.t) : list QuadPoint :=
  landFrom (Cells.h cells) (Cells.p cells) 0%nat.

(** *** River depression *)

(** [Boolean(parentMap.pack.cells.r[parentPackCell])] *)
Definition hasRiver (parentMap : ParentMap.t) (parentPackCell : nat) : bool :=
  truthy (Cells.r (Pack.cells (ParentMap.pack parentMap)) !! parentPackCell).

(** The nearest parent pack cell of a new point:
    [parentMap.pack.cells.q.find(parentX, parentY, Infinity)[2]]; indexing
    [undefined] is a [TypeError]. *)
Definition nearestParentCell (parentMap : ParentMap.t) (inverse : Q → Q → Point)
    (pt : Point) : option nat :=
  let '(parentX, parentY) := inverse pt.1 pt.2 in
  found ← quadtree_find (Cells.q (Pack.cells (ParentMap.pack parentMap))) parentX parentY;
  Some found.2.

(** The callback of [depressRivers]: [h[newGridCell] > 20] is false when the
    element is [undefined]. *)
Definition depressCell (parentMap : ParentMap.t) (inverse : Q → Q → Point)
    (h : list Z) (pt : Point) (newGridCell : nat) : option (list Z) :=
  parentPackCell ← nearestParentCell parentMap inverse pt;
  match h !! newGridCell with
  | Some v =>
      if hasRiver parentMap parentPackCell && (20 <? v)
      then Some (<[newGridCell := toUint8 (Some (inject_Z (v - 1)))]> h)
      else Some h
  | None => Some h
  end.

(** What [depressCell] leaves at the index it visits. *)
Definition depressed (parentMap : ParentMap.t) (parentPackCell : nat) (v : Z) : Z :=
  if hasRiver parentMap parentPackCell && (20 <? v) then v - 1 else v.

(** [depressRivers(parentMap, inverse)]: the new [grid.cells.h]. *)
Definition depressRivers (parentMap : ParentMap.t) (inverse : Q → Q → Point)
    (grid : Grid.t) : option (list Z) :=
  forEach (depressCell parentMap inverse) (Grid.cpoints (Grid.cells grid))
    (Grid.h (Grid.cells grid)).

(** *** Per-cell overlays *)

(** The five overlay arrays that [restoreSecondaryCellData] creates. *)
Record Overlays := mkOverlays {
  o_culture : list N; o_state : list N; o_burg : list N;
  o_religion : list N; o_province : list N
}.

(** [new Uint16Array(pack.cells.i.length)], five times. *)
Definition emptyOverlays (n : nat) : Overlays :=
  let zeros := replicate n 0%N in
  mkOverlays zeros zeros zeros zeros zeros.

(** The loop body of [restoreSecondaryCellData] for [newPackCell]. [pack] is
    the new pack's cells; spreading [pack.cells.p[newPackCell]] when it is
    [undefined] is a [TypeError], and so is indexing the result of [find] on
    an empty land index. *)
Definition restoreCell (parentMap : ParentMap.t) (inverse : Q → Q → Point)
    (parentLand : list QuadPoint) (pack : Cells.t)
    (o : Overlays) (newPackCell : nat) : option Overlays :=
  pt ← Cells.p pack !! newPackCell;
  let '(x, y) := inverse pt.1 pt.2 in
  if isWater (Cells.h pack) newPackCell then Some o
  else
    found ← quadtree_find parentLand x y;
    let parentPackCell := found.2 in
    let parent := Pack.cells (ParentMap.pack parentMap) in
    Some (mkOverlays
      (<[newPackCell := toUint16 (Cells.culture parent !! parentPackCell)]> (o_culture o))
      (<[newPackCell := toUint16 (Cells.state parent !! parentPackCell)]> (o_state o))
      (o_burg o)
      (<[newPackCell := toUint16 (Cells.religion parent !! parentPackCell)]> (o_religion o))
      (<[newPackCell := toUint16 (Cells.province parent !! parentPackCell)]> (o_province o))).

(** [restoreSecondaryCellData(parentMap, inverse)] *)
Definition restoreSecondaryCellData (parentMap : ParentMap.t) (inverse : Q → Q → Point)
    (pack : Cells.t) : option Overlays :=
  let parentLand := groupCellsByType_land (Pack.cells (ParentMap.pack parentMap)) in
  forEach (λ o newPackCell _, restoreCell parentMap inverse parentLand pack o newPackCell)
    (Cells.i pack) (emptyOverlays (length (Cells.i pack))).

(** [new Set(array).has(id)] *)
Definition has (valid : gset N) (id : N) : bool := bool_decide (id ∈ valid).

(** The recentering shared by cultures and religions: the projected parent
    centre, rounded, when it is in the map, else the pole of the entity. *)
Definition recenter (parentMap : ParentMap.t) (projection : Q → Q → Point)
    (poles : N → option Point) (id : N) (center : option nat) : option (option nat) :=
  c ← center;
  pt ← Cells.p (Pack.cells (ParentMap.pack parentMap)) !! c;
  let '(xp, yp) := projection pt.1 pt.2 in
  let x := rn xp 2 in
  let y := rn yp 2 in
  centerCoords ← (if isInMap x y then Some (x, y) else poles id);
  Some (findCell centerCoords.1 centerCoords.2).

(** [restoreCultures(parentMap, projection)]; [cells_culture] is
    [pack.cells.culture]. *)
Definition restoreCulture (parentMap : ParentMap.t) (projection : Q → Q → Point)
    (cells_culture : list N) (culture : Culture.t) : option Culture.t :=
  let validCultures : gset N := list_to_set cells_culture in
  let culturePoles := getPolesOfInaccessibility cells_culture in
  if (Culture.i culture =? 0)%N || Culture.removed culture then Some culture
  else if negb (has validCultures (Culture.i culture)) then Some (Culture.remove culture)
  else
    center ← recenter parentMap projection culturePoles (Culture.i culture)
               (Culture.center culture);
    Some (Culture.withCenter culture center).

Definition restoreCultures (parentMap : ParentMap.t) (projection : Q → Q → Point)
    (cells_culture : list N) : option (list Culture.t) :=
  mapM (restoreCulture parentMap projection cells_culture)
    (Pack.cultures (ParentMap.pack parentMap)).

(** [restoreReligions(parentMap, projection)] *)
Definition restoreReligion (parentMap : ParentMap.t) (projection : Q → Q → Point)
    (cells_religion : list N) (religion : Religion.t) : option Religion.t :=
  let validReligions : gset N := list_to_set cells_religion in
  let religionPoles := getPolesOfInaccessibility cells_religion in
  if (Religion.i religion =? 0)%N || Religion.removed religion then Some religion
  else if negb (has validReligions (Religion.i religion)) then Some (Religion.remove religion)
  else
    center ← recenter parentMap projection religionPoles (Religion.i religion)
               (Religion.center religion);
    Some (Religion.withCenter religion center).

Definition restoreReligions (parentMap : ParentMap.t) (projection : Q → Q → Point)
    (cells_religion : list N) : option (list Religion.t) :=
  mapM (restoreReligion parentMap projection cells_religion)
    (Pack.religions (ParentMap.pack parentMap)).

(** *** Burgs *)

(** What the callback of [restoreBurgs] leaves behind for one burg: the
    parent's burg object after the call (the callback writes to it), the
    element it returns for [pack.burgs], and [pack.cells.burg]. *)
Record BurgStep := mkBurgStep {
  parentBurg : Burg.t;
  newBurg : Burg.t;
  cells_burg : list N
}.

(** The callback of [parentMap.pack.burgs.map] in [restoreBurgs]. [land] is
    the data of [packLandCellsQuadtree]. The first return hands back the
    parent's own object; the population is scaled on the parent's object
    before any copy is made; [!cell] holds for [undefined] and for cell 0. *)
Definition restoreBurg (land : list QuadPoint) (projection : Q → Q → Point)
    (options : Options.t) (cellsBurg : list N) (burg : Burg.t) : BurgStep :=
  if (Burg.i burg =? 0)%N || Burg.removed burg then mkBurgStep burg burg cellsBurg
  else
    let burg := Burg.scalePopulation burg (Options.scale options) in
    let '(xp, yp) := projection (Burg.x burg) (Burg.y burg) in
    let x := rn xp 2 in
    let y := rn yp 2 in
    if negb (isInMap x y) then mkBurgStep burg (Burg.remove burg) cellsBurg
    else
      match snd <$> quadtree_find land x y with
      | None | Some O => mkBurgStep burg (Burg.remove burg) cellsBurg
      | Some cell =>
          if truthy (cellsBurg !! cell) then mkBurgStep burg (Burg.remove burg) cellsBurg
          else mkBurgStep burg (Burg.place burg x y cell)
                 (<[cell := toUint16 (Some (Burg.i burg))]> cellsBurg)
      end.

(** The state of [restoreBurgs] while it runs: the parent's burg objects
    visited so far, the elements of [pack.burgs] produced so far, and
    [pack.cells.burg]. *)
Record BurgsRun := mkBurgsRun {
  parentBurgs : list Burg.t;
  packBurgs : list Burg.t;
  packCellsBurg : list N
}.

Definition restoreBurgsFrom (land : list QuadPoint) (projection : Q → Q → Point)
    (options : Options.t) (run : BurgsRun) (burgs : list Burg.t) : BurgsRun :=
  foldl (λ run burg,
           let step := restoreBurg land projection options (packCellsBurg run) burg in
           mkBurgsRun (parentBurgs run ++ [parentBurg step])
                      (packBurgs run ++ [newBurg step])
                      (cells_burg step))
        run burgs.

(** [restoreBurgs(parentMap, projection, options)]; [pack] is the new pack's
    cells, whose [burg] array the call reads and writes. *)
Definition restoreBurgs (parentMap : ParentMap.t) (projection : Q → Q → Point)
    (options : Options.t) (pack : Cells.t) : BurgsRun :=
  restoreBurgsFrom (groupCellsByType_land pack) projection options
    (mkBurgsRun [] [] (Cells.burg pack)) (Pack.burgs (ParentMap.pack parentMap)).

(** [pack.cells.burg] when the first [n] parent burgs have been visited. *)
Definition burgCellsAfter (parentMap : ParentMap.t) (projection : Q → Q → Point)
    (options : Options.t) (pack : Cells.t) (n : nat) : list N :=
  packCellsBurg
    (restoreBurgsFrom (groupCellsByType_land pack) projection options
       (mkBurgsRun [] [] (Cells.burg pack))
       (take n (Pack.burgs (ParentMap.pack parentMap)))).

(** The burg passes the guard of the callback: it has an index other than 0
    and is not removed. *)
Definition live (b : Burg.t) : Prop := Burg.i b ≠ 0%N ∧ Burg.removed b = false.

(** Every live burg of [pack.burgs] has marked its cell in
    [pack.cells.burg], and no two of them hold the same cell. *)
Definition settled (run : BurgsRun) : Prop :=
  (∀ j b, packBurgs run !! j = Some b → live b →
      truthy (packCellsBurg run !! Burg.cell b) = true)
  ∧ (∀ j k bj bk, j ≠ k → packBurgs run !! j = Some bj → packBurgs run !! k = Some bk →
      live bj → live bk → Burg.cell bj ≠ Burg.cell bk).

(** *** States *)

(** The callback of [state.military.map]. *)
Definition restoreRegiment (parentMap : ParentMap.t) (projection : Q → Q → Point)
    (regiment : Regiment.t) : option Regiment.t :=
  c ← Regiment.cell regiment;
  pt ← Cells.p (Pack.cells (ParentMap.pack parentMap)) !! c;
  let '(px, py) := projection pt.1 pt.2 in
  let cell := findCell px py in
  let '(xBase, yBase) := projection (Regiment.bx regiment) (Regiment.by_ regiment) in
  let '(xCurrent, yCurrent) := projection (Regiment.x regiment) (Regiment.y regiment) in
  Some (Regiment.mk cell (rn xBase 2) (rn yBase 2) (rn xCurrent 2) (rn yCurrent 2)).

(** The callback of [parentMap.pack.states.map]. *)
Definition restoreState (parentMap : ParentMap.t) (projection : Q → Q → Point)
    (cells_state : list N) (state : State.t) : option State.t :=
  let validStates : gset N := list_to_set cells_state in
  if (State.i state =? 0)%N || State.removed state then Some state
  else if negb (has validStates (State.i state)) then Some (State.remove state)
  else
    military ← mapM (restoreRegiment parentMap projection) (State.military state);
    let neighbors := filter (λ stateId, has validStates stateId = true) (State.neighbors state) in
    Some (State.withForces state neighbors military).

(** Modelled from the spec: [BurgsAndStates.getPoles], which is not in
    modules/submap.js. "A pole of inaccessibility for the region, precomputed
    per category before recentering begins": every state's [pole] becomes the
    pole helper's entry for its id. *)
Definition BurgsAndStates_getPoles (cells_state : list N) (states : list State.t)
  : list State.t :=
  map (λ s, State.setPole s (getPolesOfInaccessibility cells_state (State.i s))) states.

(** The callback of the closing [pack.states.forEach]: [capital.cell] of an
    [undefined] capital and spreading an [undefined] pole are [TypeError]s. *)
Definition recenterState (burgs : list Burg.t) (state : State.t) : option State.t :=
  if (State.i state =? 0)%N || State.removed state then Some state
  else
    match burgs !! N.to_nat (State.capital state) with
    | None => None
    | Some capital =>
        if negb (Burg.removed capital)
        then Some (State.setCenter state (Some (Burg.cell capital)))
        else
          pole ← State.pole state;
          Some (State.setCenter state (findCell pole.1 pole.2))
    end.

(** [restoreStates(parentMap, projection)]; [burgs] is [pack.burgs]. *)
Definition restoreStates (parentMap : ParentMap.t) (projection : Q → Q → Point)
    (cells_state : list N) (burgs : list Burg.t) : option (list State.t) :=
  states ← mapM (restoreState parentMap projection cells_state)
              (Pack.states (ParentMap.pack parentMap));
  mapM (recenterState burgs) (BurgsAndStates_getPoles cells_state states).

(** *** Provinces *)

(** The callback of [parentMap.pack.provinces.map]. A province that stays
    is the parent's own object. *)
Definition restoreProvince (cells_province : list N) (province : Province.t)
  : Province.t :=
  let validProvinces : gset N := list_to_set cells_province in
  if (Province.i province =? 0)%N || Province.removed province then province
  else if negb (has validProvinces (Province.i province)) then Province.remove province
  else province.

(** Modelled from the spec: [Provinces.getPoles], which is not in
    modules/submap.js; "same removed-filtering and capital-or-pole
    recentering pattern as states, scoped to province ids". *)
Definition Provinces_getPoles (cells_province : list N) (provinces : list Province.t)
  : list Province.t :=
  map (λ s, Province.setPole s (getPolesOfInaccessibility cells_province (Province.i s)))
    provinces.

(** The callback of the closing [pack.provinces.forEach]. *)
Definition recenterProvince (burgs : list Burg.t) (province : Province.t)
  : option Province.t :=
  if (Province.i province =? 0)%N || Province.removed province then Some province
  else
    match burgs !! N.to_nat (Province.burg province) with
    | None => None
    | Some capital =>
        if negb (Burg.removed capital)
        then Some (Province.setCenter province (Some (Burg.cell capital)))
        else
          pole ← Province.pole province;
          Some (Province.setCenter province (findCell pole.1 pole.2))
    end.

(** [restoreProvinces(parentMap)] *)
Definition restoreProvinces (parentMap : ParentMap.t) (cells_province : list N)
    (burgs : list Burg.t) : option (list Province.t) :=
  let provinces := map (restoreProvince cells_province)
                     (Pack.provinces (ParentMap.pack parentMap)) in
  mapM (recenterProvince burgs) (Provinces_getPoles cells_province provinces).

(** *** Markers *)

(** [pack.markers = parentMap.pack.markers] binds the new pack to the
    parent's marker array, so the marker objects are shared. [objects] holds
    the marker objects, a marker being named by its position in the
    parent's array; [packMarkers] lists the objects that [pack.markers]
    holds. *)
Record MarkersRun := mkMarkersRun {
  objects : list Marker.t;
  packMarkers : list nat
}.

(** Modelled from the spec: [Markers.deleteMarker], which is not in
    modules/submap.js. "Delete it outright (markers have no removed-flag
    soft-delete)": the markers with this id leave [pack.markers]; the marker
    objects themselves and the array that [forEach] is walking are left as
    they are. *)
Definition Markers_deleteMarker (run : MarkersRun) (id : N) : MarkersRun :=
  mkMarkersRun (objects run)
    (filter (λ ref, Marker.i <$> objects run !! ref ≠ Some id) (packMarkers run)).

(** The callback of [pack.markers.forEach] for the marker object [ref]. The
    deletion is not followed by a [return]: the three assignments run for
    every marker. *)
Definition restoreMarker (projection : Q → Q → Point) (run : MarkersRun) (ref : nat)
  : MarkersRun :=
  match objects run !! ref with
  | None => run
  | Some marker =>
      let '(x, y) := projection (Marker.x marker) (Marker.y marker) in
      let run := if negb (isInMap x y) then Markers_deleteMarker run (Marker.i marker)
                 else run in
      let cell := findCell x y in
      mkMarkersRun (<[ref := Marker.move marker (rn x 2) (rn y 2) cell]> (objects run))
        (packMarkers run)
  end.

(** The marker object after its visit. *)
Definition moved (projection : Q → Q → Point) (marker : Marker.t) : Marker.t :=
  let pt := projection (Marker.x marker) (Marker.y marker) in
  Marker.move marker (rn pt.1 2) (rn pt.2 2) (findCell pt.1 pt.2).

(** [restoreMarkers(parentMap, projection)] *)
Definition restoreMarkers (parentMap : ParentMap.t) (projection : Q → Q → Point)
  : MarkersRun :=
  let markers := Pack.markers (ParentMap.pack parentMap) in
  let refs := seq 0 (length markers) in
  foldl (restoreMarker projection) (mkMarkersRun markers refs) refs.

(** *** Zones *)

(** Modelled from the spec: [unique], which is not in modules/submap.js;
    "union and de-duplicate the resulting new-cell ids". The first
    occurrence of every id is kept. *)
Fixpoint unique (cells : list nat) : list nat :=
  match cells with
  | [] => []
  | c :: cells' => c :: filter (λ d, d ≠ c) (unique cells')
  end.

(** [getSearchRadius(cellId)]: [Math.sqrt(area[cellId] / Math.PI) * scale],
    [NaN] when the area is [undefined]. *)
Definition getSearchRadius (parentMap : ParentMap.t) (options : Options.t)
    (cellId : nat) : option Q :=
  (λ a, Math_sqrt (a / Math_PI) * Options.scale options)%Q
    <$> Cells.area (Pack.cells (ParentMap.pack parentMap)) !! cellId.

(** The callback of [zone.cells.map]: [null] for a member out of the map,
    else the cells that [findAll] reports. *)
Definition zoneMember (parentMap : ParentMap.t) (projection : Q → Q → Point)
    (options : Options.t) (cellId : nat) : option (option (list nat)) :=
  pt ← Cells.p (Pack.cells (ParentMap.pack parentMap)) !! cellId;
  let '(x, y) := projection pt.1 pt.2 in
  if negb (isInMap x y) then Some None
  else Some (Some (findAll x y (getSearchRadius parentMap options cellId))).

(** The callback of [parentMap.pack.zones.map]; [omap id] is
    [.filter(Boolean)] and [concat] is [.flat()]. *)
Definition restoreZone (parentMap : ParentMap.t) (projection : Q → Q → Point)
    (options : Options.t) (zone : Zone.t) : option Zone.t :=
  found ← mapM (zoneMember parentMap projection options) (Zone.cells zone);
  let cells := concat (omap id found) in
  Some (Zone.withCells zone (unique cells)).

(** [restoreZones(parentMap, projection, options)] *)
Definition restoreZones (parentMap : ParentMap.t) (projection : Q → Q → Point)
    (options : Options.t) : option (list Zone.t) :=
  mapM (restoreZone parentMap projection options) (Pack.zones (ParentMap.pack parentMap)).

(** The zone claim in the spec's words: what one member contributes, "all
    new cells within a search radius" of its projected site when that site
    is in the map and nothing otherwise, and the union over the members. *)
Definition reached (parentMap : ParentMap.t) (projection : Q → Q → Point)
    (options : Options.t) (cellId : nat) : list nat :=
  match Cells.p (Pack.cells (ParentMap.pack parentMap)) !! cellId with
  | Some pt =>
      let '(x, y) := projection pt.1 pt.2 in
      if isInMap x y then findAll x y (getSearchRadius parentMap options cellId) else []
  | None => []
  end.

Definition zoneUnion (parentMap : ParentMap.t) (projection : Q → Q → Point)
    (options : Options.t) (members : list nat) : list nat :=
  members ≫= reached parentMap projection options.

End Submap.

(** ** The regional collections *)

(** The interface that cultures, states, religions and provinces share. *)
Class Regional (A : Type) := {
  ident : A → N;
  isRemoved : A → bool;
  isLocked : A → bool
}.

#[export] Instance culture_regional : Regional Culture.t :=
  {| ident := Culture.i; isRemoved := Culture.removed; isLocked := Culture.lock |}.
#[export] Instance state_regional : Regional State.t :=
  {| ident := State.i; isRemoved := State.removed; isLocked := State.lock |}.
#[export] Instance religion_regional : Regional Religion.t :=
  {| ident := Religion.i; isRemoved := Religion.removed; isLocked := Religion.lock |}.
#[export] Instance province_regional : Regional Province.t :=
  {| ident := Province.i; isRemoved := Province.removed; isLocked := Province.lock |}.

(** Some new cell carries the id in its overlay field. *)
Definition present (cells : list N) (id : N) : Prop := ∃ cell : nat, cells !! cell = Some id.

(** What validity filtering does to one entity; [x] is the parent's and [y]
    the returned one. *)
Definition validated {A} `{Regional A} (cells : list N) (x y : A) : Prop :=
  ident y = ident x
  ∧ (ident x = 0%N ∨ isRemoved x = true → isRemoved y = isRemoved x)
  ∧ (ident x ≠ 0%N → isRemoved x = false →
       (present cells (ident x) → isRemoved y = false)
       ∧ (¬ present cells (ident x) → isRemoved y = true ∧ isLocked y = false)).

(** Entity presence, for the entities with an index other than 0: one that
    ends non-removed is on some new cell, and a parent entity that was
    non-removed and is on no new cell is returned removed and unlocked. *)
Definition presence {A} `{Regional A} (cells : list N) (parents results : list A) : Prop :=
  length results = length parents
  ∧ (∀ k y, results !! k = Some y → ident y ≠ 0%N → isRemoved y = false →
       present cells (ident y))
  ∧ (∀ k x, parents !! k = Some x → ident x ≠ 0%N → isRemoved x = false →
       ¬ present cells (ident x) →
       ∃ y, results !! k = Some y ∧ ident y = ident x
         ∧ isRemoved y = true ∧ isLocked y = false).

(** ** A concrete environment

    An instance of [Env] on which the functions can be run: a list scan for
    the quadtree, [Math.round] for [rn], and a 20 by 20 map. *)

Definition dist2 (x y : Q) (pt : QuadPoint) : Q :=
  ((pt.1.1 - x) * (pt.1.1 - x) + (pt.1.2 - y) * (pt.1.2 - y))%Q.

(** The entry of [data] nearest to [(x, y)]; the first one wins a tie. *)
Fixpoint nearest (data : list QuadPoint) (x y : Q) : option QuadPoint :=
  match data with
  | [] => None
  | pt :: data' =>
      match nearest data' x y with
      | Some best => if Qle_bool (dist2 x y pt) (dist2 x y best) then Some pt else Some best
      | None => Some pt
      end
  end.

(** [rn(v, d)]: [Math.round(v * 10^d) / 10^d], [Math.round] being
    [floor(v + 1/2)]. *)
Definition roundTo (v : Q) (d : nat) : Q :=
  let m := inject_Z (10 ^ Z.of_nat d) in
  (inject_Z (Qfloor (v * m + (1 # 2))) / m)%Q.

(** The environment of a new pack whose cells are [newCells], on a map of
    20 by 20. The pole of an id is the site of the first cell that carries
    it; the square root is taken on integers. *)
Definition envOf (newCells : list QuadPoint) : Env := {|
  graphWidth := 20;
  graphHeight := 20;
  rn := roundTo;
  findCell := λ x y, snd <$> nearest newCells x y;
  findAll := λ x y radius,
    match radius with
    | Some r => snd <$> filter (λ pt, Qle_bool (dist2 x y pt) (r * r) = true) newCells
    | None => []
    end;
  quadtree_find := nearest;
  getPolesOfInaccessibility := λ cells id,
    fst <$> head (filter (λ pt : QuadPoint, cells !! pt.2 = Some id) newCells);
  Math_sqrt := λ v, inject_Z (Z.sqrt (Qfloor v));
  Math_PI := 355 # 113
|}.

Definition identity (x y : Q) : Point := (x, y).

(** The projection of Scenario B: [x] is moved right by 15. *)
Definition shiftRight (x y : Q) : Point := ((x + 15)%Q, y).

(** *** A parent map and two new packs *)

(** The entries of the quadtree over all cells of a pack. *)
Definition quadPoints (p : list Point) : list QuadPoint :=
  imap (λ cellId pt, (pt.1, pt.2, cellId)) p.

Definition sites : list Point := [(5, 5); (15, 5); (5, 15)]%Q.

(** Three cells: cell 0 is water, cells 1 and 2 are land with a river. *)
Definition parentCells : Cells.t :=
  Cells.mk [0; 1; 2]%nat sites [0; 1; 2]%nat [10; 30; 40] [100; 100; 100]%Q
    [0; 1; 1]%N (quadPoints sites)
    [0; 1; 2]%N [0; 1; 2]%N [0; 1; 0]%N [0; 1; 1]%N [0; 1; 2]%N.

Definition parentCultures : list Culture.t :=
  [Culture.mk 0 "Wildlands" (Some 0%nat) false false;
   Culture.mk 1 "Highland" (Some 1%nat) false false;
   Culture.mk 2 "Lowland" (Some 2%nat) false true;
   Culture.mk 3 "Lost" (Some 1%nat) false true].

Definition parentBurgList : list Burg.t :=
  [Burg.mk 0 "" 1 0 0 0 false false;
   Burg.mk 1 "Alpha" 1 14 5 100 false true;
   Burg.mk 2 "Beta" 1 16 5 50 false false;
   Burg.mk 3 "Gamma" 2 10 12 30 false true].

Definition parentStates : list State.t :=
  [State.mk 0 "Neutrals" "Neutrals" None 0 None [] [] false false;
   State.mk 1 "Alphia" "Kingdom of Alphia" (Some 1%nat) 1 None [2; 3]%N
     [Regiment.mk (Some 1%nat) 15 5 14 6] false false;
   State.mk 2 "Betia" "Duchy of Betia" (Some 2%nat) 2 None [1]%N [] false false;
   State.mk 3 "Gammia" "County of Gammia" (Some 1%nat) 3 None [] [] false true].

Definition parentReligions : list Religion.t :=
  [Religion.mk 0 "No religion" None false false;
   Religion.mk 1 "Old faith" (Some 1%nat) false false;
   Religion.mk 2 "Sunken cult" (Some 0%nat) false true].

Definition parentProvinces : list Province.t :=
  [Province.mk 0 "" "" None 0 None false false;
   Province.mk 1 "North" "North Province" (Some 1%nat) 1 None false false;
   Province.mk 2 "South" "South Province" (Some 2%nat) 2 None false false;
   Province.mk 3 "Gone" "Gone Province" (Some 1%nat) 3 None false true].

Definition parentMarkers : list Marker.t :=
  [Marker.mk 1 10 10 (Some 0%nat); Marker.mk 2 2 3 (Some 0%nat)].

Definition parentZones : list Zone.t := [Zone.mk 0 "Flood" [1; 2; 1]%nat].

Definition parentGrid : Grid.t :=
  Grid.mk sites (Grid.mkCells [10; 30; 40] [5; 5; 5] [8; 8; 8]
                   [[1; 2]; [0]; [0]]%nat sites).

Definition theParent : ParentMap.t :=
  ParentMap.mk parentGrid
    (Pack.mk parentCells parentCultures parentStates parentBurgList parentReligions
       parentProvinces parentMarkers parentZones).

(** A new pack on the same sites, as [reGraph] and
    [restoreSecondaryCellData] leave it before the burgs are restored. *)
Definition newCells : Cells.t :=
  Cells.mk [0; 1; 2]%nat sites [0; 1; 2]%nat [10; 30; 40] [100; 100; 100]%Q
    [0; 0; 0]%N (quadPoints sites) [0; 1; 2]%N [0; 1; 2]%N [0; 0; 0]%N [0; 1; 1]%N
    [0; 1; 2]%N.

Definition newEnv : Env := envOf (quadPoints sites).

(** A new pack without water: the two land sites only. *)
Definition landSites : list Point := [(15, 5); (5, 15)]%Q.

Definition landCells : Cells.t :=
  Cells.mk [0; 1]%nat landSites [0; 1]%nat [30; 40] [100; 100]%Q [0; 0]%N
    (quadPoints landSites) [] [] [] [] [].

Definition landEnv : Env := envOf (quadPoints landSites).

(** A new grid for river depression: elevations 10, 30 and 20 on [sites]. *)
Definition newGrid : Grid.t :=
  Grid.mk sites (Grid.mkCells [10; 30; 20] [0; 0; 0] [0; 0; 0]
                   [[1; 2]; [0]; [0]]%nat sites).

Definition identityOptions : Options.t := Options.mk true true identity identity 2.

Definition shiftOptions : Options.t :=
  Options.mk false false shiftRight (λ x y, ((x - 15)%Q, y)) 1.

(** ** The field sampler, the cell groups and the restoring sequence *)

(** [ToInt8]: as [ToUint8], the upper half of the range being negative. *)
Definition toInt8 (v : option Q) : Z :=
  let m := toUint8 v in
  if m <? 128 then m else m - 256.

(** The three arrays that [resamplePrimaryGridData] fills. *)
Record Fields := mkFields { f_h : list Z; f_temp : list Z; f_prec : list Z }.

Section Sampler.
Context `{Env}.

(** [groupCellsByType(graph).water], as [landFrom] for the water cells. *)
Fixpoint waterFrom (h : list Z) (p : list Point) (cellId : nat) : list QuadPoint :=
  match p with
  | [] => []
  | (x, y) :: p' =>
      if isWater h cellId then (x, y, cellId) :: waterFrom h p' (S cellId)
      else waterFrom h p' (S cellId)
  end.

Definition groupCellsByType_water (cells : Cells.t) : list QuadPoint :=
  waterFrom (Cells.h cells) (Cells.p cells) 0%nat.

(** [parentMap.grid.cells.<field>[parentMap.pack.cells.g[parentPackCell]]]:
    indexing with [undefined] gives [undefined]. *)
Definition parentGridValue (parentMap : ParentMap.t) (field : Grid.cells_t → list Z)
    (parentPackCell : nat) : option Q :=
  parentGridCell ← Cells.g (Pack.cells (ParentMap.pack parentMap)) !! parentPackCell;
  inject_Z <$> field (Grid.cells (ParentMap.grid parentMap)) !! parentGridCell.

(** The callback of [grid.points.forEach] in [resamplePrimaryGridData]. *)
Definition sampleCell (parentMap : ParentMap.t) (inverse : Q → Q → Point)
    (f : Fields) (pt : Point) (newGridCell : nat) : option Fields :=
  parentPackCell ← nearestParentCell parentMap inverse pt;
  Some (mkFields
    (<[newGridCell := toUint8 (parentGridValue parentMap Grid.h parentPackCell)]> (f_h f))
    (<[newGridCell := toInt8 (parentGridValue parentMap Grid.temp parentPackCell)]> (f_temp f))
    (<[newGridCell := toUint8 (parentGridValue parentMap Grid.prec parentPackCell)]> (f_prec f))).

(** The three fresh arrays of length [grid.points.length] and the sampling
    loop over [grid.points]. *)
Definition sampleFields (parentMap : ParentMap.t) (inverse : Q → Q → Point)
    (points : list Point) : option Fields :=
  let zeros := replicate (length points) 0 in
  forEach (sampleCell parentMap inverse) points (mkFields zeros zeros zeros).

(** [grid.cells] with the elevation array replaced. *)
Definition withHeights (cells : Grid.cells_t) (h : list Z) : Grid.cells_t :=
  Grid.mkCells h (Grid.temp cells) (Grid.prec cells) (Grid.c cells) (Grid.cpoints cells).

(** [resamplePrimaryGridData(parentMap, inverse)]: the new [grid]. The two
    filters are gated by the ambient [options], which is not a parameter of
    the function. *)
Definition resamplePrimaryGridData (parentMap : ParentMap.t) (inverse : Q → Q → Point)
    (options : Options.t) (grid : Grid.t) : option Grid.t :=
  f ← sampleFields parentMap inverse (Grid.points grid);
  let cells := Grid.mkCells (f_h f) (f_temp f) (f_prec f)
                 (Grid.c (Grid.cells grid)) (Grid.cpoints (Grid.cells grid)) in
  smoothed ← (if Options.smoothHeightmap options
              then smoothHeightmap (Grid.c cells) (Grid.h cells)
              else Some (Grid.h cells));
  let cells := withHeights cells smoothed in
  depressed ← (if Options.depressRivers options
               then depressRivers parentMap inverse (Grid.mk (Grid.points grid) cells)
               else Some smoothed);
  Some (Grid.mk (Grid.points grid) (withHeights cells depressed)).

(** [pack.cells] once [restoreSecondaryCellData] has attached the overlay
    arrays. *)
Definition withOverlays (pack : Cells.t) (o : Overlays) : Cells.t :=
  Cells.mk (Cells.i pack) (Cells.p pack) (Cells.g pack) (Cells.h pack) (Cells.area pack)
    (Cells.r pack) (Cells.q pack)
    (o_culture o) (o_state o) (o_burg o) (o_religion o) (o_province o).

(** What the restoring calls of [resample] leave: the overlay arrays, [burg]
    as [restoreBurgs] left it, and the migrated collections. *)
Record Restored := mkRestored {
  r_overlays : Overlays;
  r_cultures : list Culture.t;
  r_burgs : BurgsRun;
  r_states : list State.t;
  r_religions : list Religion.t;
  r_provinces : list Province.t;
  r_markers : MarkersRun;
  r_zones : list Zone.t
}.

(** The eight restoring calls of [resample], in its order, with
    [options.projection] and [options.inverse]; [pack] is the new pack as
    [reGraph] and the stages before left it. *)
Definition restore (parentMap : ParentMap.t) (options : Options.t) (pack : Cells.t)
  : option Restored :=
  let projection := Options.projection options in
  let inverse := Options.inverse options in
  o ← restoreSecondaryCellData parentMap inverse pack;
  cultures ← restoreCultures parentMap projection (o_culture o);
  let burgs := restoreBurgs parentMap projection options (withOverlays pack o) in
  states ← restoreStates parentMap projection (o_state o) (packBurgs burgs);
  religions ← restoreReligions parentMap projection (o_religion o);
  provinces ← restoreProvinces parentMap (o_province o) (packBurgs burgs);
  let markers := restoreMarkers parentMap projection in
  zones ← restoreZones parentMap projection options;
  Some (mkRestored o cultures burgs states religions provinces markers zones).

End Sampler.

(** ** What the statements below speak of *)

(** Every element of an [Int8Array] is in -128..127. *)
Definition int8_array (a : list Z) : Prop := Forall (λ v, -128 <= v < 128) a.

(** The three values that the sampler stores for a parent pack cell. *)
Definition sampled (parentMap : ParentMap.t) (cell : nat) : Z * Z * Z :=
  (toUint8 (parentGridValue parentMap Grid.h cell),
   toInt8 (parentGridValue parentMap Grid.temp cell),
   toUint8 (parentGridValue parentMap Grid.prec cell)).

(** The elevation, temperature and precipitation of a new grid cell. *)
Definition fieldsAt (f : Fields) (k : nat) : option (Z * Z * Z) :=
  a ← f_h f !! k; b ← f_temp f !! k; c ← f_prec f !! k; Some (a, b, c).

(** All three sampled arrays have length [n]. *)
Definition sameLengths (f : Fields) (n : nat) : Prop :=
  length (f_h f) = n ∧ length (f_temp f) = n ∧ length (f_prec f) = n.

(** The parent grid value behind a parent pack cell, 0 when the
    back-reference or the grid point is missing. *)
Definition behind (parentMap : ParentMap.t) (field : Grid.cells_t → list Z)
    (cell : nat) : Z :=
  default 0 (Cells.g (Pack.cells (ParentMap.pack parentMap)) !! cell
             ≫= λ gridCell, field (Grid.cells (ParentMap.grid parentMap)) !! gridCell).

(** The culture, state, religion and province of a cell. *)
Definition regionsAt (o : Overlays) (k : nat) : option (N * N * N * N) :=
  a ← o_culture o !! k; b ← o_state o !! k; c ← o_religion o !! k;
  d ← o_province o !! k; Some (a, b, c, d).

(** What a parent pack cell hands to a new cell. *)
Definition parentRegions (parentMap : ParentMap.t) (cell : nat) : N * N * N * N :=
  let parent := Pack.cells (ParentMap.pack parentMap) in
  (toUint16 (Cells.culture parent !! cell), toUint16 (Cells.state parent !! cell),
   toUint16 (Cells.religion parent !! cell), toUint16 (Cells.province parent !! cell)).

(** All five overlay arrays have length [n]. *)
Definition overlaysSized (o : Overlays) (n : nat) : Prop :=
  length (o_culture o) = n ∧ length (o_state o) = n ∧ length (o_burg o) = n
  ∧ length (o_religion o) = n ∧ length (o_province o) = n.

(** [pack.cells.burg] and [pack.burgs] agree: a live burg is written on its
    cell, and a cell that is not 0 names a live burg that holds it. *)
Definition agree (run : BurgsRun) : Prop :=
  (∀ k b, packBurgs run !! k = Some b → live b →
     packCellsBurg run !! Burg.cell b = Some (Burg.i b))
  ∧ (∀ c v, packCellsBurg run !! c = Some v → v ≠ 0%N →
     ∃ k b, packBurgs run !! k = Some b ∧ live b ∧ Burg.cell b = c
       ∧ Burg.i b = v).

Section Outcomes.
Context `{Env}.

(** The parent land cell that a new cell is matched with. *)
Definition matched (parentMap : ParentMap.t) (inverse : Q → Q → Point)
    (pack : Cells.t) (newPackCell : nat) : option nat :=
  pt ← Cells.p pack !! newPackCell;
  snd <$> quadtree_find (groupCellsByType_land (Pack.cells (ParentMap.pack parentMap)))
            (inverse pt.1 pt.2).1 (inverse pt.1 pt.2).2.

(** The new cell has a site and, when it is land, a parent land cell. *)
Definition matchable (parentMap : ParentMap.t) (inverse : Q → Q → Point)
    (pack : Cells.t) (k : nat) : Prop :=
  is_Some (Cells.p pack !! k)
  ∧ (isWater (Cells.h pack) k = false → is_Some (matched parentMap inverse pack k)).

(** The marker's projected site is in the map. *)
Definition lands (projection : Q → Q → Point) (marker : Marker.t) : Prop :=
  isInMap (projection (Marker.x marker) (Marker.y marker)).1
          (projection (Marker.x marker) (Marker.y marker)).2 = true.

(** The regiment after its migration: the new cell found at the projected
    site of its parent cell, base and position projected and rounded. *)
Definition stationed (parentMap : ParentMap.t) (projection : Q → Q → Point)
    (regiment regiment' : Regiment.t) : Prop :=
  ∃ c pt, Regiment.cell regiment = Some c
    ∧ Cells.p (Pack.cells (ParentMap.pack parentMap)) !! c = Some pt
    ∧ regiment' =
        Regiment.mk (findCell (projection pt.1 pt.2).1 (projection pt.1 pt.2).2)
          (rn (projection (Regiment.bx regiment) (Regiment.by_ regiment)).1 2)
          (rn (projection (Regiment.bx regiment) (Regiment.by_ regiment)).2 2)
          (rn (projection (Regiment.x regiment) (Regiment.y regiment)).1 2)
          (rn (projection (Regiment.x regiment) (Regiment.y regiment)).2 2).


(** The entity can be recentered: its centre is a parent cell, and its
    projected site is in the map or the entity has a pole. *)
Definition recenterable (parentMap : ParentMap.t) (projection : Q → Q → Point)
    (poles : N → option Point) (id : N) (center : option nat) : Prop :=
  ∃ c pt, center = Some c
    ∧ Cells.p (Pack.cells (ParentMap.pack parentMap)) !! c = Some pt
    ∧ (isInMap (rn (projection pt.1 pt.2).1 2) (rn (projection pt.1 pt.2).2 2) = true
       ∨ is_Some (poles id)).

End Outcomes.

(** A new pack on the same sites whose cells are all water. *)
Definition seaCells : Cells.t :=
  Cells.mk [0; 1; 2]%nat sites [0; 1; 2]%nat [10; 5; 3] [100; 100; 100]%Q
    [0; 0; 0]%N (quadPoints sites) [0; 0; 0]%N [0; 0; 0]%N [0; 0; 0]%N [0; 0; 0]%N
    [0; 0; 0]%N.

(** ** The parent map after the restoring calls *)

(** An element that a restoring [map] puts into a collection of the new
    pack: the parent's own object ([return x] hands it back, so a later
    write to the element reaches the parent), or a copy ([{...x, ...}]).
    [x] is what the object holds. *)
Inductive Element (A : Type) : Type := Own (x : A) | Copy (x : A).
Arguments Own {A} x.
Arguments Copy {A} x.

(** What the element holds. *)
Definition held {A} (e : Element A) : A :=
  match e with Own x | Copy x => x end.

(** An assignment to a property of the element. *)
Definition write {A} (f : A → A) (e : Element A) : Element A :=
  match e with Own x => Own (f x) | Copy x => Copy (f x) end.

(** An assignment that can throw. *)
Definition writeM {A} (f : A → option A) (e : Element A) : option (Element A) :=
  match e with Own x => Own <$> f x | Copy x => Copy <$> f x end.

(** The parent's object at a position once the call is over: what the
    element holds when the element is that object, and the object as it was
    when the element is a copy. *)
Definition ownerAfter {A} (x : A) (e : Element A) : A :=
  match e with Own y => y | Copy _ => x end.

(** The parent's array once the call is over; the [map] keeps positions. *)
Definition parentAfter {A} (parents : list A) (elements : list (Element A)) : list A :=
  zip_with ownerAfter parents elements.

(** [pack.markers] as the list of the marker objects it holds. *)
Definition packMarkerList (run : MarkersRun) : list Marker.t :=
  omap (λ ref, objects run !! ref) (packMarkers run).

Section ParentAfter.
Context `{Env}.

(** The callback of [restoreCultures] with the identity of what it returns:
    the parent's own object at line 123, copies at lines 124 and 130. *)
Definition cultureElement (parentMap : ParentMap.t) (projection : Q → Q → Point)
    (cells_culture : list N) (culture : Culture.t) : option (Element Culture.t) :=
  culture' ← restoreCulture parentMap projection cells_culture culture;
  Some (if (Culture.i culture =? 0)%N || Culture.removed culture
        then Own culture' else Copy culture').

(** The callback of [restoreReligions]: the parent's own object at line 191,
    copies at lines 192 and 198. *)
Definition religionElement (parentMap : ParentMap.t) (projection : Q → Q → Point)
    (cells_religion : list N) (religion : Religion.t) : option (Element Religion.t) :=
  religion' ← restoreReligion parentMap projection cells_religion religion;
  Some (if (Religion.i religion =? 0)%N || Religion.removed religion
        then Own religion' else Copy religion').

(** The callback of [parentMap.pack.states.map]: the parent's own object at
    line 163, copies at lines 164 and 174. *)
Definition stateElement (parentMap : ParentMap.t) (projection : Q → Q → Point)
    (cells_state : list N) (state : State.t) : option (Element State.t) :=
  state' ← restoreState parentMap projection cells_state state;
  Some (if (State.i state =? 0)%N || State.removed state
        then Own state' else Copy state').

(** Modelled from the spec: [BurgsAndStates.getPoles], which is not in
    modules/submap.js, on the elements of [pack.states]; as in
    [BurgsAndStates_getPoles], every element's [pole] becomes the pole
    helper's entry for its id. *)
Definition BurgsAndStates_getPoles_elements (cells_state : list N)
    (elements : list (Element State.t)) : list (Element State.t) :=
  write (λ s, State.setPole s (getPolesOfInaccessibility cells_state (State.i s)))
    <$> elements.

(** [restoreStates] on the elements: the [map], the poles, and the closing
    [forEach], whose assignment to [state.center] is made on the element. *)
Definition restoreStatesElements (parentMap : ParentMap.t) (projection : Q → Q → Point)
    (cells_state : list N) (burgs : list Burg.t) : option (list (Element State.t)) :=
  elements ← mapM (stateElement parentMap projection cells_state)
                (Pack.states (ParentMap.pack parentMap));
  mapM (writeM (recenterState burgs))
    (BurgsAndStates_getPoles_elements cells_state elements).

(** The callback of [parentMap.pack.provinces.map]: the parent's own object
    at lines 205 and 208, a copy at line 206. *)
Definition provinceElement (cells_province : list N) (province : Province.t)
  : Element Province.t :=
  let validProvinces : gset N := list_to_set cells_province in
  let province' := restoreProvince cells_province province in
  if (Province.i province =? 0)%N || Province.removed province then Own province'
  else if negb (has validProvinces (Province.i province)) then Copy province'
  else Own province'.

(** Modelled from the spec: [Provinces.getPoles], which is not in
    modules/submap.js, on the elements of [pack.provinces]; as in
    [Provinces_getPoles], every element's [pole] becomes the pole helper's
    entry for its id. *)
Definition Provinces_getPoles_elements (cells_province : list N)
    (elements : list (Element Province.t)) : list (Element Province.t) :=
  write (λ s, Province.setPole s
                (getPolesOfInaccessibility cells_province (Province.i s)))
    <$> elements.

(** [restoreProvinces] on the elements: the [map], the poles, and the
    closing [forEach], whose assignment to [province.center] is made on the
    element. *)
Definition restoreProvincesElements (parentMap : ParentMap.t)
    (cells_province : list N) (burgs : list Burg.t)
  : option (list (Element Province.t)) :=
  mapM (writeM (recenterProvince burgs))
    (Provinces_getPoles_elements cells_province
       (provinceElement cells_province <$> Pack.provinces (ParentMap.pack parentMap))).

(** The callback of [parentMap.pack.zones.map]: always a copy (line 246). *)
Definition zoneElement (parentMap : ParentMap.t) (projection : Q → Q → Point)
    (options : Options.t) (zone : Zone.t) : option (Element Zone.t) :=
  Copy <$> restoreZone parentMap projection options zone.

(** The parent map once the eight restoring calls of [resample] have
    returned. No statement of the module assigns to [parentMap.grid] or to
    an array of [parentMap.pack.cells], which are only read; the burgs are
    the parent's objects as [restoreBurgs] leaves them, the markers the
    objects that [restoreMarkers] shares with the new pack, and the other
    collections are what the elements leave of the parent's objects. *)
Definition restoreParent (parentMap : ParentMap.t) (options : Options.t)
    (pack : Cells.t) : option ParentMap.t :=
  let projection := Options.projection options in
  let inverse := Options.inverse options in
  let parent := ParentMap.pack parentMap in
  o ← restoreSecondaryCellData parentMap inverse pack;
  cultures ← mapM (cultureElement parentMap projection (o_culture o))
                (Pack.cultures parent);
  let burgs := restoreBurgs parentMap projection options (withOverlays pack o) in
  states ← restoreStatesElements parentMap projection (o_state o) (packBurgs burgs);
  religions ← mapM (religionElement parentMap projection (o_religion o))
                 (Pack.religions parent);
  provinces ← restoreProvincesElements parentMap (o_province o) (packBurgs burgs);
  let markers := restoreMarkers parentMap projection in
  zones ← mapM (zoneElement parentMap projection options) (Pack.zones parent);
  Some (ParentMap.mk (ParentMap.grid parentMap)
          (Pack.mk (Pack.cells parent)
             (parentAfter (Pack.cultures parent) cultures)
             (parentAfter (Pack.states parent) states)
             (parentBurgs burgs)
             (parentAfter (Pack.religions parent) religions)
             (parentAfter (Pack.provinces parent) provinces)
             (objects markers)
             (parentAfter (Pack.zones parent) zones))).

End ParentAfter.



(** * Properties *)

(** ** Numbers *)

Lemma Qtrunc_inject_Z z : Qtrunc (inject_Z z) = z.
Proof. unfold Qtrunc; simpl. apply Z.quot_1_r. Qed.

Lemma Qtrunc_floor q : (0 <= q)%Q → Qtrunc q = Qfloor q.
Proof.
  destruct q as [a b]. unfold Qle, Qtrunc, Qfloor; simpl. intros Ha.
  apply Z.quot_div_nonneg; lia.
Qed.

Lemma Qfloor_le_Z (q : Q) (z : Z) : (q <= inject_Z z)%Q → Qfloor q <= z.
Proof. intros Hq. apply Qfloor_resp_le in Hq. by rewrite Qfloor_Z in Hq. Qed.

Lemma Qfloor_ge_Z (q : Q) (z : Z) : (inject_Z z <= q)%Q → z <= Qfloor q.
Proof. intros Hq. apply Qfloor_resp_le in Hq. by rewrite Qfloor_Z in Hq. Qed.

Lemma toUint8_range v : 0 <= toUint8 v < 256.
Proof. destruct v; simpl; [apply Z.mod_pos_bound|]; lia. Qed.

Lemma toUint8_floor (q : Q) : (0 <= q)%Q → (q <= 255)%Q → toUint8 (Some q) = Qfloor q.
Proof.
  intros H0 H255. simpl. rewrite Qtrunc_floor by done.
  apply Z.mod_small.
  pose proof (Qfloor_ge_Z _ 0 H0). pose proof (Qfloor_le_Z _ 255 H255). lia.
Qed.

Lemma sum_bounds (l : list Z) :
  Forall (λ v, 0 <= v < 256) l →
  0 <= foldr Z.add 0 l <= 255 * Z.of_nat (length l).
Proof. induction 1 as [|v l Hv _ IH]; simpl; lia. Qed.

Lemma d3_mean_bounds (values : list (option Z)) (m : Q) :
  Forall (λ o, ∀ v, o = Some v → 0 <= v < 256) values →
  d3_mean values = Some m → (0 <= m)%Q ∧ (m <= 255)%Q.
Proof.
  intros Hv. unfold d3_mean.
  assert (Forall (λ v, 0 <= v < 256) (omap id values)) as Hd.
  { induction Hv as [|o l Ho _ IH]; simpl; [constructor|].
    destruct o as [v|]; simpl; [constructor; auto|done]. }
  destruct (omap id values) as [|v0 l] eqn:E; [done|].
  pose proof (sum_bounds _ Hd) as [Hlo Hhi]. simpl in Hlo, Hhi.
  intros [= <-]. split.
  - apply Qle_shift_div_l; [unfold Qlt; simpl; lia|].
    unfold Qle; simpl; lia.
  - apply Qle_shift_div_r; [unfold Qlt; simpl; lia|].
    unfold Qle; simpl; lia.
Qed.

(** ** The list scan of the concrete environment *)

Lemma nearest_In data x y pt : nearest data x y = Some pt → pt ∈ data.
Proof.
  revert pt. induction data as [|a data IH]; intros pt; simpl; [done|].
  destruct (nearest data x y) as [best|].
  - destruct (Qle_bool _ _); intros [= <-]; [left|right; by apply IH].
  - intros [= <-]. left.
Qed.

Lemma nearest_is_Some data x y : data ≠ [] → is_Some (nearest data x y).
Proof.
  destruct data as [|a data]; [done|]. intros _. simpl.
  destruct (nearest data x y); [destruct (Qle_bool _ _)|]; by eexists.
Qed.

(** ** Smoothing *)

Section Smoothing.
Implicit Types (c : list (list nat)) (h st : list Z) (k n : nat).

Lemma smoothCell_length c h k st : smoothCell c h k = Some st → length st = length h.
Proof.
  unfold smoothCell. intros Hs.
  destruct (h !! k) as [height|]; simplify_eq/=.
  destruct (c !! k) as [neibs|]; simplify_eq/=.
  by rewrite length_insert.
Qed.

Lemma smoothCell_other c h k st j :
  smoothCell c h k = Some st → j ≠ k → st !! j = h !! j.
Proof.
  unfold smoothCell. intros Hs Hne.
  destruct (h !! k) as [height|]; simplify_eq/=.
  destruct (c !! k) as [neibs|]; simplify_eq/=.
  by rewrite list_lookup_insert_ne.
Qed.

Lemma smoothPrefix_S c h n :
  smoothPrefix c h (S n) = smoothPrefix c h n ≫= λ st, smoothCell c st n.
Proof. unfold smoothPrefix. by rewrite seq_S, foldl_app. Qed.

Lemma smoothPrefix_frame c h n st :
  smoothPrefix c h n = Some st →
  length st = length h ∧ ∀ j, (n ≤ j)%nat → st !! j = h !! j.
Proof.
  revert st. induction n as [|n IH]; intros st.
  - intros [= <-]. done.
  - rewrite smoothPrefix_S. destruct (smoothPrefix c h n) as [st0|]; [|done].
    simpl. intros Hs. destruct (IH st0 eq_refl) as [Hlen Hfr]. split.
    + rewrite <- Hlen. by eapply smoothCell_length.
    + intros j Hj. rewrite (smoothCell_other _ _ _ _ _ Hs) by lia. apply Hfr. lia.
Qed.

Lemma smoothPrefix_earlier c h n m st' :
  smoothPrefix c h m = Some st' → (n ≤ m)%nat →
  ∃ st, smoothPrefix c h n = Some st ∧ ∀ j, (j < n)%nat → st' !! j = st !! j.
Proof.
  revert st'. induction m as [|m IH]; intros st' Hs Hn.
  - assert (n = 0%nat) as -> by lia. exists st'. split; [done|]. intros; lia.
  - destruct (decide (n = S m)) as [->|Hne].
    { exists st'. split; [done|done]. }
    rewrite smoothPrefix_S in Hs.
    destruct (smoothPrefix c h m) as [st0|] eqn:E0; [|done]. simpl in Hs.
    destruct (IH st0 eq_refl) as (st & Hst & Hlt); [lia|].
    exists st. split; [done|]. intros j Hj.
    rewrite (smoothCell_other _ _ _ _ _ Hs) by lia. by apply Hlt.
Qed.

(** The array when cell [k] is visited: smoothed below [k], original from
    [k] on. *)
Lemma smoothPrefix_mixed c h h' k :
  smoothHeightmap c h = Some h' → (k ≤ length h)%nat →
  smoothPrefix c h k = Some (take k h' ++ drop k h).
Proof.
  unfold smoothHeightmap. intros Hs Hk.
  destruct (smoothPrefix_earlier _ _ k _ _ Hs Hk) as (st & Hst & Hlt).
  rewrite Hst. f_equal.
  destruct (smoothPrefix_frame _ _ _ _ Hst) as [Hlen Hfr].
  destruct (smoothPrefix_frame _ _ _ _ Hs) as [Hlen' _].
  apply list_eq. intros j.
  destruct (decide (j < k)%nat) as [Hj|Hj].
  - rewrite lookup_app_l by (rewrite length_take; lia).
    rewrite lookup_take_lt by done. symmetry. by apply Hlt.
  - rewrite lookup_app_r by (rewrite length_take; lia).
    rewrite length_take, lookup_drop. rewrite Hfr by lia. f_equal. lia.
Qed.


Lemma smoothCell_total c h k :
  (k < length h)%nat → (k < length c)%nat → is_Some (smoothCell c h k).
Proof.
  intros Hh Hc. unfold smoothCell.
  destruct (lookup_lt_is_Some_2 h k Hh) as [height ->].
  destruct (lookup_lt_is_Some_2 c k Hc) as [neibs ->]. simpl. eauto.
Qed.

Lemma smoothPrefix_total c h n :
  (n ≤ length h)%nat → (length h ≤ length c)%nat → is_Some (smoothPrefix c h n).
Proof.
  intros Hn Hc. induction n as [|n IH]; [by eexists|].
  rewrite smoothPrefix_S. destruct IH as [st Hst]; [lia|]. rewrite Hst. simpl.
  destruct (smoothPrefix_frame _ _ _ _ Hst) as [Hlen _].
  apply smoothCell_total; lia.
Qed.

Lemma smoothCell_uint8 c h k st :
  uint8_array h → smoothCell c h k = Some st → uint8_array st.
Proof.
  unfold smoothCell, uint8_array. intros Hu Hs.
  destruct (h !! k) as [height|]; simplify_eq/=.
  destruct (c !! k) as [neibs|]; simplify_eq/=.
  apply Forall_insert; [done|]. apply toUint8_range.
Qed.

Lemma smoothPrefix_uint8 c h n st :
  uint8_array h → smoothPrefix c h n = Some st → uint8_array st.
Proof.
  intros Hu. revert st. induction n as [|n IH]; intros st.
  - by intros [= <-].
  - rewrite smoothPrefix_S. destruct (smoothPrefix c h n) as [st0|]; [|done].
    simpl. intros Hs. eapply smoothCell_uint8; [|done]. by apply IH.
Qed.

Lemma heights_uint8 h height neibs :
  uint8_array h → 0 <= height < 256 →
  Forall (λ o, ∀ v, o = Some v → 0 <= v < 256) (heights h height neibs).
Proof.
  intros Hu Hh. unfold heights. constructor; [by intros v [= <-]|].
  apply Forall_map, Forall_forall. intros j _ v Hv. simpl in Hv.
  eapply (Forall_lookup_1 _ _ _ _ Hu Hv).
Qed.

(** The value that visiting a cell stores. *)
Lemma smoothCell_value c st k st' :
  uint8_array st → smoothCell c st k = Some st' →
  ∃ m : Q, clampedMean c st k = Some m ∧ st' !! k = Some (Qfloor m)
    ∧ (if isWater st k then (m <= 19)%Q else (20 <= m)%Q)
    ∧ isWater st' k = isWater st k.
Proof.
  intros Hu Hs. unfold smoothCell, clampedMean in *.
  destruct (st !! k) as [height|] eqn:Eh; simplify_eq/=.
  destruct (c !! k) as [neibs|] eqn:Ec; simplify_eq/=.
  assert (0 <= height < 256) as Hh by (eapply (Forall_lookup_1 _ _ _ _ Hu Eh)).
  assert (k < length st)%nat as Hk by (by eapply lookup_lt_Some).
  destruct (d3_mean (heights st height neibs)) as [mean|] eqn:Em.
  2:{ unfold d3_mean, heights in Em. simpl in Em. done. }
  destruct (d3_mean_bounds _ _ (heights_uint8 _ _ neibs Hu Hh) Em) as [Hlo Hhi].
  assert (isWater st k = (height <? 20)) as Hw by (unfold isWater; by rewrite Eh).
  rewrite !Hw. unfold isWater. rewrite !list_lookup_insert_eq by done.
  destruct (height <? 20) eqn:Ew; simpl.
  - exists (Qmin mean 19).
    assert (0 <= Qmin mean 19)%Q as H1 by (apply Q.min_glb; [done|discriminate]).
    assert (Qmin mean 19 <= 19)%Q as H2 by apply Q.le_min_r.
    assert (Qmin mean 19 <= 255)%Q as H3 by (eapply Qle_trans; [exact H2|discriminate]).
    pose proof (toUint8_floor _ H1 H3) as Ht. simpl in Ht. rewrite Ht.
    repeat split; try done.
    apply Z.ltb_lt. pose proof (Qfloor_le_Z _ 19 H2). lia.
  - exists (Qmax mean 20).
    assert (20 <= Qmax mean 20)%Q as H2 by apply Q.le_max_r.
    assert (0 <= Qmax mean 20)%Q as H1 by (eapply Qle_trans; [|exact H2]; discriminate).
    assert (Qmax mean 20 <= 255)%Q as H3 by (apply Q.max_lub; [done|discriminate]).
    pose proof (toUint8_floor _ H1 H3) as Ht. simpl in Ht. rewrite Ht.
    repeat split; try done.
    apply Z.ltb_ge. pose proof (Qfloor_ge_Z _ 20 H2). lia.
Qed.


(** Visiting cell [k] turns the array that is smoothed below [k] into the
    array that is smoothed below [k + 1]. *)
Lemma smoothCell_mixed c h h' k :
  smoothHeightmap c h = Some h' → (k < length h)%nat →
  smoothCell c (take k h' ++ drop k h) k = Some (take (S k) h' ++ drop (S k) h).
Proof.
  intros Hs Hk.
  pose proof (smoothPrefix_mixed _ _ _ (S k) Hs ltac:(lia)) as HS.
  rewrite smoothPrefix_S, (smoothPrefix_mixed _ _ _ k Hs) in HS by lia.
  exact HS.
Qed.

End Smoothing.

(** C5, as amended. With smoothing run on a [Uint8Array] of elevations
    whose cells all have a neighbour list, every cell ends at the integer
    part of the clamped mean [m] of its elevation and its neighbours'
    elevations as they are when the cell is visited (smoothed below [k],
    original from [k] on): [m] is the mean cut to at most 19 for a water cell
    and raised to at least 20 for a land cell, and the cell keeps its
    land/water classification. *)
Theorem smoothHeightmap_floor_of_clamped_mean (c : list (list nat)) (h : list Z) :
  uint8_array h → (length h ≤ length c)%nat →
  ∃ h', smoothHeightmap c h = Some h' ∧ length h' = length h ∧
    ∀ k, (k < length h)%nat →
      ∃ m : Q, clampedMean c (take k h' ++ drop k h) k = Some m
        ∧ h' !! k = Some (Qfloor m)
        ∧ (if isWater h k then (m <= 19)%Q else (20 <= m)%Q)
        ∧ isWater h' k = isWater h k.
Proof.
  intros Hu Hc.
  destruct (smoothPrefix_total c h (length h) ltac:(lia) Hc) as [h' Hs].
  exists h'. split; [exact Hs|].
  destruct (smoothPrefix_frame _ _ _ _ Hs) as [Hlen _]. split; [exact Hlen|].
  intros k Hk.
  pose proof (smoothCell_mixed _ _ _ _ Hs Hk) as Hcell.
  pose proof (smoothPrefix_mixed _ _ _ k Hs ltac:(lia)) as Hpre.
  pose proof (smoothPrefix_uint8 _ _ _ _ Hu Hpre) as Hu'.
  destruct (smoothCell_value _ _ _ _ Hu' Hcell) as (m & Hm & Hv & Hcl & Hw).
  assert (∀ a : list Z, (take k h' ++ a) !! k = a !! 0%nat) as Hmid.
  { intros a. rewrite lookup_app_r by (rewrite length_take; lia).
    f_equal. rewrite length_take. lia. }
  assert (isWater (take k h' ++ drop k h) k = isWater h k) as Hw0.
  { unfold isWater. rewrite Hmid, lookup_drop. by rewrite Nat.add_0_r. }
  assert ((take (S k) h' ++ drop (S k) h) !! k = h' !! k) as Hfin.
  { rewrite lookup_app_l by (rewrite length_take; lia). by rewrite lookup_take_lt by lia. }
  exists m. rewrite <- Hfin, <- Hw0. repeat split; try done.
  rewrite <- Hw. unfold isWater. by rewrite Hfin.
Qed.

(** Scenario D: a land cell at 21 between two water cells at 10 stays at 20. *)
Lemma smoothHeightmap_floor_of_clamped_mean_witness :
  uint8_array [21; 10; 10]
  ∧ ∃ h', smoothHeightmap [[1; 2]; [0]; [0]]%nat [21; 10; 10] = Some h'
        ∧ h' !! 0%nat = Some 20.
Proof.
  assert (uint8_array [21; 10; 10]) as Hu by (repeat constructor; lia).
  split; [exact Hu|].
  destruct (smoothHeightmap_floor_of_clamped_mean
              [[1; 2]; [0]; [0]]%nat [21; 10; 10] Hu)
    as (h' & Hs & _ & _).
  - simpl; lia.
  - exists h'. split; [exact Hs|]. vm_compute in Hs. by injection Hs as <-.
Defined.

(** C5 as it is stated fails: two land cells at 21 and 22 that are each
    other's neighbour have the clamped mean 43/2 at cell 0, and the cell
    ends at 21. *)
Lemma smoothHeightmap_not_clamped_mean :
  ∃ h' v m, smoothHeightmap [[1]; [0]]%nat [21; 22] = Some h'
    ∧ h' !! 0%nat = Some v
    ∧ clampedMean [[1]; [0]]%nat [21; 22] 0 = Some m
    ∧ ¬ (inject_Z v == m)%Q.
Proof.
  exists [21; 21], 21, (43 # 2)%Q. repeat split; try reflexivity.
  intros Heq. vm_compute in Heq. discriminate.
Qed.

(** C10. [smoothHeightmap] is a left fold over the cell indices that writes
    into the array it reads: visiting cell [k] is [smoothCell] run on the
    array that holds the smoothed elevations below [k] and the original ones
    from [k] on, and it yields the array smoothed below [k + 1]. The result
    differs from the pointwise map over the original elevations. *)
Theorem smoothHeightmap_sequential_fold :
  (∀ (c : list (list nat)) (h h' : list Z) (k : nat),
      smoothHeightmap c h = Some h' → (k < length h)%nat →
      smoothCell c (take k h' ++ drop k h) k = Some (take (S k) h' ++ drop (S k) h))
  ∧ (∃ (c : list (list nat)) (h : list Z),
      uint8_array h ∧ is_Some (smoothHeightmap c h)
      ∧ smoothHeightmap c h ≠ smoothPointwise c h).
Proof.
  split.
  - intros c h h' k. apply smoothCell_mixed.
  - exists [[1]; [0; 2]; [1]]%nat, [10; 30; 40].
    split; [repeat constructor; lia|]. split; [by eexists|].
    vm_compute. discriminate.
Qed.

Lemma smoothHeightmap_sequential_fold_witness :
  smoothHeightmap [[1]; [0; 2]; [1]]%nat [10; 30; 40] = Some [19; 29; 34]
  ∧ smoothCell [[1]; [0; 2]; [1]]%nat ([19] ++ [30; 40]) 1
    = Some ([19; 29] ++ [40]).
Proof.
  split; [reflexivity|].
  apply (proj1 smoothHeightmap_sequential_fold
           [[1]; [0; 2]; [1]]%nat [10; 30; 40] [19; 29; 34] 1%nat).
  - reflexivity.
  - simpl; lia.
Defined.

(** ** River depression *)

Section Depression.
Context `{Env}.
Variables (parentMap : ParentMap.t) (inverse : Q → Q → Point).

Lemma depressCell_spec h pt k h' :
  uint8_array h → depressCell parentMap inverse h pt k = Some h' →
  uint8_array h' ∧ length h' = length h
  ∧ (∀ j, j ≠ k → h' !! j = h !! j)
  ∧ ∃ cell, nearestParentCell parentMap inverse pt = Some cell
      ∧ h' !! k = depressed parentMap cell <$> h !! k.
Proof.
  intros Hu. unfold depressCell.
  destruct (nearestParentCell parentMap inverse pt) as [cell|] eqn:En; [|done].
  simpl. destruct (h !! k) as [v|] eqn:Ev.
  2:{ intros [= <-]. repeat split; try done. exists cell. by rewrite Ev. }
  unfold depressed.
  destruct (hasRiver parentMap cell && (20 <? v)) eqn:Eb.
  2:{ intros [= <-]. repeat split; try done. exists cell. simpl. by rewrite Eb. }
  pose proof Eb as Eb'. apply andb_true_iff in Eb as [_ Hv%Z.ltb_lt].
  assert (0 <= v < 256) as Hr by (eapply (Forall_lookup_1 _ _ _ _ Hu Ev)).
  assert (toUint8 (Some (inject_Z (v - 1))) = v - 1) as Hval.
  { simpl. rewrite Qtrunc_inject_Z. apply Z.mod_small. lia. }
  simpl in Hval. rewrite Hval.
  intros [= <-].
  assert (k < length h)%nat by (by eapply lookup_lt_Some).
  repeat split.
  - apply Forall_insert; [done|lia].
  - by rewrite length_insert.
  - intros j Hj. by rewrite list_lookup_insert_ne.
  - exists cell. split; [done|]. rewrite list_lookup_insert_eq by done.
    simpl. by rewrite Eb'.
Qed.

Lemma depress_forEachFrom pts : ∀ k0 h h',
  uint8_array h →
  forEachFrom (depressCell parentMap inverse) pts k0 h = Some h' →
  length h' = length h
  ∧ (∀ j, (j < k0)%nat ∨ (k0 + length pts ≤ j)%nat → h' !! j = h !! j)
  ∧ (∀ j pt, pts !! j = Some pt →
       ∃ cell, nearestParentCell parentMap inverse pt = Some cell
         ∧ h' !! (k0 + j)%nat = depressed parentMap cell <$> h !! (k0 + j)%nat).
Proof.
  induction pts as [|pt pts IH]; intros k0 h h' Hu; simpl.
  - intros [= <-]. repeat split; try done.
  - destruct (depressCell parentMap inverse h pt k0) as [h1|] eqn:E1; [|done].
    simpl. intros Hrest.
    destruct (depressCell_spec _ _ _ _ Hu E1) as (Hu1 & Hlen1 & Hoth1 & cell & Hn & Hk).
    destruct (IH _ _ _ Hu1 Hrest) as (Hlen & Hout & Hin).
    split; [congruence|]. split.
    + intros j Hj. rewrite Hout by lia. apply Hoth1. lia.
    + intros [|j] pt' Hpt; simpl in Hpt.
      * injection Hpt as <-. exists cell. split; [done|].
        rewrite Nat.add_0_r. rewrite Hout by lia. exact Hk.
      * destruct (Hin j pt' Hpt) as (cell' & Hn' & Hv').
        exists cell'. split; [done|].
        replace (k0 + S j)%nat with (S k0 + j)%nat by lia.
        rewrite Hv'. by rewrite Hoth1 by lia.
Qed.

Lemma depress_forEachFrom_total pts : ∀ k0 h,
  uint8_array h →
  (∀ x y, is_Some (quadtree_find (Cells.q (Pack.cells (ParentMap.pack parentMap))) x y)) →
  is_Some (forEachFrom (depressCell parentMap inverse) pts k0 h).
Proof.
  intros k0 h Hu Hfind. revert k0 h Hu.
  induction pts as [|pt pts IH]; intros k0 h Hu; simpl; [by eexists|].
  assert (is_Some (depressCell parentMap inverse h pt k0)) as [h1 E1].
  { unfold depressCell, nearestParentCell.
    destruct (inverse pt.1 pt.2) as [px py].
    destruct (Hfind px py) as [found ->]. simpl.
    destruct (h !! k0); [|by eexists].
    destruct (_ && _); by eexists. }
  rewrite E1. simpl. apply IH. by destruct (depressCell_spec _ _ _ _ Hu E1).
Qed.

End Depression.

(** River depression over the points that [depressRivers] walks, those of
    [grid.cells.points]. With river depression run on a [Uint8Array] of
    elevations over a parent pack whose index answers every query: a point
    of [grid.cells.points] whose nearest
    parent pack cell carries a river is lowered by exactly 1 if its
    elevation exceeds 20 and is left as it is otherwise; a point whose
    nearest parent cell has no river is unchanged; no elevation that is
    lowered ends below 20; and the indices without a point are unchanged. *)
Theorem depressRivers_lowers_riverbeds `{Env} (parentMap : ParentMap.t)
    (inverse : Q → Q → Point) (grid : Grid.t) :
  let h := Grid.h (Grid.cells grid) in
  let points := Grid.cpoints (Grid.cells grid) in
  uint8_array h →
  (∀ x y, is_Some (quadtree_find (Cells.q (Pack.cells (ParentMap.pack parentMap))) x y)) →
  ∃ h', depressRivers parentMap inverse grid = Some h' ∧ length h' = length h ∧
    (∀ k pt v, points !! k = Some pt → h !! k = Some v →
       ∃ parentPackCell,
         nearestParentCell parentMap inverse pt = Some parentPackCell
         ∧ h' !! k = Some (if hasRiver parentMap parentPackCell
                           then (if 20 <? v then v - 1 else v) else v))
    ∧ (∀ k v v', h !! k = Some v → h' !! k = Some v' → v' < v → 20 <= v')
    ∧ (∀ k, points !! k = None → h' !! k = h !! k).
Proof.
  intros h points Hu Hfind.
  destruct (depress_forEachFrom_total parentMap inverse points 0%nat h Hu Hfind) as [h' Hs].
  exists h'. split; [exact Hs|].
  destruct (depress_forEachFrom parentMap inverse points 0%nat h h' Hu Hs)
    as (Hlen & Hout & Hin).
  split; [exact Hlen|].
  assert (∀ k pt v, points !! k = Some pt → h !! k = Some v →
       ∃ parentPackCell,
         nearestParentCell parentMap inverse pt = Some parentPackCell
         ∧ h' !! k = Some (if hasRiver parentMap parentPackCell
                           then (if 20 <? v then v - 1 else v) else v)) as Hrule.
  { intros k pt v Hpt Hv. destruct (Hin k pt Hpt) as (cell & Hn & Hk).
    exists cell. split; [done|]. simpl in Hk. rewrite Hk, Hv. simpl.
    unfold depressed. by destruct (hasRiver parentMap cell). }
  assert (∀ k, points !! k = None → h' !! k = h !! k) as Hnone.
  { intros k Hk. apply Hout. right. apply lookup_ge_None in Hk. simpl. lia. }
  split; [exact Hrule|]. split; [|exact Hnone].
  intros k v v' Hv Hv' Hlt.
  destruct (points !! k) as [pt|] eqn:Ept.
  - destruct (Hrule k pt v Ept Hv) as (cell & _ & Hk). rewrite Hv' in Hk.
    injection Hk as ->. destruct (hasRiver parentMap cell); [|lia].
    destruct (20 <? v) eqn:E20; [|lia]. apply Z.ltb_lt in E20. lia.
  - rewrite (Hnone k Ept), Hv in Hv'. injection Hv' as ->. lia.
Qed.

(** Elevations 10, 30 and 20 over parent cells 0 (no river), 1 and 2 (river):
    only the 30 is lowered. *)
Lemma depressRivers_lowers_riverbeds_witness :
  uint8_array [10; 30; 20]
  ∧ (∀ x y, is_Some (nearest (quadPoints sites) x y))
  ∧ @depressRivers newEnv theParent identity newGrid = Some [10; 29; 20].
Proof.
  assert (uint8_array [10; 30; 20]) as Hu by (repeat constructor; lia).
  assert (∀ x y, is_Some (nearest (quadPoints sites) x y)) as Hfind
    by (intros x y; by apply nearest_is_Some).
  split; [exact Hu|]. split; [exact Hfind|].
  destruct (@depressRivers_lowers_riverbeds newEnv theParent identity newGrid Hu Hfind)
    as (h' & Hs & _).
  rewrite Hs. vm_compute in Hs. by injection Hs as <-.
Defined.


(** ** Burgs *)

Section Burgs.
Context `{Env}.
Variables (land : list QuadPoint) (projection : Q → Q → Point) (options : Options.t).

Local Abbreviation step := (restoreBurg land projection options).
Local Abbreviation runFrom := (restoreBurgsFrom land projection options).

Lemma restoreBurgsFrom_snoc run bs b :
  runFrom run (bs ++ [b]) =
  let r := runFrom run bs in
  let s := step (packCellsBurg r) b in
  mkBurgsRun (parentBurgs r ++ [parentBurg s]) (packBurgs r ++ [newBurg s]) (cells_burg s).
Proof. unfold restoreBurgsFrom. by rewrite foldl_app. Qed.

Lemma restoreBurgsFrom_app run bs bs' :
  runFrom run (bs ++ bs') = runFrom (runFrom run bs) bs'.
Proof. unfold restoreBurgsFrom. by rewrite foldl_app. Qed.

Lemma restoreBurgsFrom_prefix bs : ∀ run,
  packBurgs run `prefix_of` packBurgs (runFrom run bs)
  ∧ parentBurgs run `prefix_of` parentBurgs (runFrom run bs).
Proof.
  induction bs as [|b bs IH] using rev_ind; intros run; [done|].
  rewrite restoreBurgsFrom_snoc. simpl. destruct (IH run) as [H1 H2].
  split; by apply prefix_app_r.
Qed.

Lemma restoreBurgsFrom_length bs : ∀ run,
  length (packBurgs (runFrom run bs)) = (length (packBurgs run) + length bs)%nat
  ∧ length (parentBurgs (runFrom run bs)) = (length (parentBurgs run) + length bs)%nat.
Proof.
  induction bs as [|b bs IH] using rev_ind; intros run; [simpl; lia|].
  rewrite restoreBurgsFrom_snoc. simpl. destruct (IH run) as [H1 H2].
  rewrite !length_app. simpl. lia.
Qed.

(** The element of [pack.burgs] and the parent's object at position [k] are
    those of the step taken on [pack.cells.burg] as the first [k] burgs left
    it. *)
Lemma restoreBurgsFrom_lookup cb bs k b :
  bs !! k = Some b →
  let run0 := mkBurgsRun [] [] cb in
  let s := step (packCellsBurg (runFrom run0 (take k bs))) b in
  packBurgs (runFrom run0 bs) !! k = Some (newBurg s)
  ∧ parentBurgs (runFrom run0 bs) !! k = Some (parentBurg s)
  ∧ packCellsBurg (runFrom run0 (take (S k) bs)) = cells_burg s.
Proof.
  intros Hb run0 s.
  assert (runFrom run0 (take (S k) bs) =
          mkBurgsRun (parentBurgs (runFrom run0 (take k bs)) ++ [parentBurg s])
                     (packBurgs (runFrom run0 (take k bs)) ++ [newBurg s])
                     (cells_burg s)) as HS.
  { rewrite (take_S_r _ _ _ Hb). by rewrite restoreBurgsFrom_snoc. }
  assert (k < length bs)%nat as Hk by (by eapply lookup_lt_Some).
  destruct (restoreBurgsFrom_length (take k bs) run0) as [Hl1 Hl2].
  rewrite length_take in Hl1, Hl2. simpl in Hl1, Hl2.
  rewrite <- (take_drop (S k) bs) at 1 2.
  rewrite restoreBurgsFrom_app.
  destruct (restoreBurgsFrom_prefix (drop (S k) bs) (runFrom run0 (take (S k) bs)))
    as [P1 P2].
  rewrite HS in P1, P2 |- *. simpl in P1, P2. repeat split.
  - eapply prefix_lookup_Some; [|exact P1].
    rewrite lookup_app_r by lia. by replace (k - _)%nat with 0%nat by lia.
  - eapply prefix_lookup_Some; [|exact P2].
    rewrite lookup_app_r by lia. by replace (k - _)%nat with 0%nat by lia.
Qed.

(** The cases of the callback. *)
Lemma restoreBurg_cases cb b :
  let s := step cb b in
  (¬ live b ∧ s = mkBurgStep b b cb)
  ∨ (live b ∧
     let b1 := Burg.scalePopulation b (Options.scale options) in
     let pt := projection (Burg.x b) (Burg.y b) in
     let x := rn pt.1 2 in
     let y := rn pt.2 2 in
     (s = mkBurgStep b1 (Burg.remove b1) cb
      ∧ (isInMap x y = false
         ∨ (isInMap x y = true ∧
            (snd <$> quadtree_find land x y = None
             ∨ snd <$> quadtree_find land x y = Some 0%nat
             ∨ ∃ cell, snd <$> quadtree_find land x y = Some cell
                 ∧ truthy (cb !! cell) = true))))
     ∨ (∃ cell, isInMap x y = true
          ∧ snd <$> quadtree_find land x y = Some cell ∧ cell ≠ 0%nat
          ∧ truthy (cb !! cell) = false
          ∧ s = mkBurgStep b1 (Burg.place b1 x y cell)
                  (<[cell := toUint16 (Some (Burg.i b))]> cb))).
Proof.
  unfold restoreBurg, live. simpl.
  destruct (Burg.i b =? 0)%N eqn:Ei; simpl.
  { left. apply N.eqb_eq in Ei. split; [|done]. intros [? _]. done. }
  apply N.eqb_neq in Ei.
  destruct (Burg.removed b) eqn:Er; simpl.
  { left. split; [|done]. intros [_ ?]. done. }
  right. split; [done|].
  destruct (projection (Burg.x b) (Burg.y b)) as [xp yp]. simpl.
  destruct (isInMap (rn xp 2) (rn yp 2)) eqn:Em; simpl.
  2:{ left. split; [done|]. by left. }
  destruct (snd <$> quadtree_find land (rn xp 2) (rn yp 2)) as [[|cell]|] eqn:Ef.
  - left. split; [done|]. right. split; [done|]. right. by left.
  - destruct (truthy (cb !! S cell)) eqn:Et.
    + left. split; [done|]. right. split; [done|]. right. right. by exists (S cell).
    + right. exists (S cell). repeat split; try done.
  - left. split; [done|]. right. split; [done|]. by left.
Qed.

Lemma restoreBurg_length cb b : length (cells_burg (step cb b)) = length cb.
Proof.
  destruct (restoreBurg_cases cb b) as [[_ ->]|[_ [[-> _]|(cell & _ & _ & _ & _ & ->)]]];
    simpl; try done. by rewrite length_insert.
Qed.

(** A cell that holds a burg is not written again. *)
Lemma restoreBurg_keeps cb b c :
  truthy (cb !! c) = true → cells_burg (step cb b) !! c = cb !! c.
Proof.
  intros Hc.
  destruct (restoreBurg_cases cb b) as [[_ ->]|[_ [[-> _]|(cell & _ & _ & _ & Ht & ->)]]];
    simpl; try done.
  rewrite list_lookup_insert_ne; [done|]. intros ->. congruence.
Qed.

Lemma restoreBurgsFrom_cells_length bs : ∀ run,
  length (packCellsBurg (runFrom run bs)) = length (packCellsBurg run).
Proof.
  induction bs as [|b bs IH] using rev_ind; intros run; [done|].
  rewrite restoreBurgsFrom_snoc. simpl. by rewrite restoreBurg_length.
Qed.

Lemma restoreBurgsFrom_keeps bs : ∀ run c,
  truthy (packCellsBurg run !! c) = true →
  packCellsBurg (runFrom run bs) !! c = packCellsBurg run !! c.
Proof.
  induction bs as [|b bs IH] using rev_ind; intros run c Hc; [done|].
  rewrite restoreBurgsFrom_snoc. simpl.
  rewrite restoreBurg_keeps; [by apply IH|]. by rewrite IH.
Qed.


Lemma restoreBurgsFrom_settled cb bs :
  (∀ x y cell, snd <$> quadtree_find land x y = Some cell → (cell < length cb)%nat) →
  Forall (λ b, (Burg.i b < 65536)%N) bs →
  settled (runFrom (mkBurgsRun [] [] cb) bs).
Proof.
  intros Hrange. induction bs as [|b bs IH] using rev_ind; intros Hid.
  { split; [intros j b|intros j k bj bk _]; simpl; by rewrite lookup_nil. }
  apply Forall_app in Hid as [Hid Hb]. apply Forall_inv in Hb.
  specialize (IH Hid). destruct IH as [Hmark Hdist].
  rewrite restoreBurgsFrom_snoc.
  set (r := runFrom (mkBurgsRun [] [] cb) bs) in *.
  assert (length (packCellsBurg r) = length cb) as Hlen
    by apply restoreBurgsFrom_cells_length.
  assert (∀ b', ¬ live b' →
            settled (mkBurgsRun (parentBurgs r ++ [parentBurg (step (packCellsBurg r) b)])
                       (packBurgs r ++ [b']) (packCellsBurg r))) as Hdead.
  { intros b' Hb'. split; simpl.
    - intros j b0 [[_ Hj]|[_ <-]]%lookup_snoc_Some Hl; [by eapply Hmark|done].
    - intros j k bj bk Hne [[_ Hj]|[_ <-]]%lookup_snoc_Some
        [[_ Hk]|[_ <-]]%lookup_snoc_Some Hlj Hlk; try done. by eapply Hdist. }
  destruct (restoreBurg_cases (packCellsBurg r) b)
    as [[Hnl Hs]|[[Hi Hr] [[Hs _]|(cell & Hin & Hf & Hc0 & Ht & Hs)]]]; simpl.
  - rewrite Hs in Hdead |- *. simpl. by apply Hdead.
  - rewrite Hs in Hdead |- *. simpl. apply Hdead. intros [_ ?]. done.
  - rewrite Hs. simpl.
    set (b1 := Burg.scalePopulation b (Options.scale options)).
    set (pt := projection (Burg.x b) (Burg.y b)) in *.
    assert (cell < length (packCellsBurg r))%nat as Hcell.
    { rewrite Hlen. by eapply Hrange. }
    assert (∀ j b0, packBurgs r !! j = Some b0 → live b0 → Burg.cell b0 ≠ cell) as Hfree.
    { intros j b0 Hj Hl Heq. rewrite <- Heq, (Hmark j b0 Hj Hl) in Ht. done. }
    split; simpl.
    + intros j b0 [[_ Hj]|[_ <-]]%lookup_snoc_Some Hl.
      * rewrite list_lookup_insert_ne by (intros Heq; by eapply (Hfree j b0)).
        by eapply Hmark.
      * simpl. rewrite list_lookup_insert_eq by done. simpl.
        rewrite N.mod_small by done. apply negb_true_iff. by apply N.eqb_neq.
    + intros j k bj bk Hne [[_ Hj]|[Ej <-]]%lookup_snoc_Some
        [[_ Hk]|[Ek <-]]%lookup_snoc_Some Hlj Hlk; simpl.
      * by eapply Hdist.
      * by eapply Hfree.
      * intros Heq. by eapply (Hfree k bk).
      * congruence.
Qed.

Lemma landFrom_range h p : ∀ k0 pt,
  pt ∈ landFrom h p k0 → (k0 ≤ pt.2 < k0 + length p)%nat.
Proof.
  induction p as [|[x y] p IH]; intros k0 pt; simpl.
  - by intros ?%elem_of_nil.
  - destruct (isWater h k0).
    + intros Hin%IH. lia.
    + intros [->|Hin%IH]%elem_of_cons; simpl; lia.
Qed.

End Burgs.

Section BurgClaims.
Context `{Env}.
Variables (parentMap : ParentMap.t) (projection : Q → Q → Point) (options : Options.t)
  (pack : Cells.t).

Local Abbreviation burgs := (Pack.burgs (ParentMap.pack parentMap)).
Local Abbreviation run := (restoreBurgs parentMap projection options pack).
Local Abbreviation cellsAfter := (burgCellsAfter parentMap projection options pack).
Local Abbreviation land := (groupCellsByType_land pack).

Lemma restoreBurgs_lookup k burg :
  burgs !! k = Some burg →
  let s := restoreBurg land projection options (cellsAfter k) burg in
  packBurgs run !! k = Some (newBurg s)
  ∧ parentBurgs run !! k = Some (parentBurg s)
  ∧ cellsAfter (S k) = cells_burg s.
Proof. intros Hb. by apply restoreBurgsFrom_lookup. Qed.

Lemma burgCellsAfter_keeps n m cell :
  (n ≤ m)%nat → truthy (cellsAfter n !! cell) = true →
  cellsAfter m !! cell = cellsAfter n !! cell.
Proof.
  intros Hnm Ht. unfold burgCellsAfter in *.
  rewrite <- (take_drop n (take m burgs)), take_take.
  replace (n `min` m)%nat with n by lia.
  rewrite restoreBurgsFrom_app. by apply restoreBurgsFrom_keeps.
Qed.

End BurgClaims.

(** C4. A parent burg with an index other than 0 that is not removed and
    whose projected site, rounded to 2 decimals, is outside the map is
    returned with [removed = true] and [lock = false] under the same index,
    and visiting it writes nothing to [pack.cells.burg]. *)
Theorem restoreBurgs_out_of_bounds `{Env} (parentMap : ParentMap.t)
    (projection : Q → Q → Point) (options : Options.t) (pack : Cells.t)
    (k : nat) (burg : Burg.t) :
  Pack.burgs (ParentMap.pack parentMap) !! k = Some burg →
  Burg.i burg ≠ 0%N → Burg.removed burg = false →
  (let pt := projection (Burg.x burg) (Burg.y burg) in
   isInMap (rn pt.1 2) (rn pt.2 2) = false) →
  ∃ burg', packBurgs (restoreBurgs parentMap projection options pack) !! k = Some burg'
    ∧ Burg.i burg' = Burg.i burg
    ∧ Burg.removed burg' = true ∧ Burg.lock burg' = false
    ∧ burgCellsAfter parentMap projection options pack (S k)
      = burgCellsAfter parentMap projection options pack k.
Proof.
  intros Hb Hi Hr Hout.
  destruct (restoreBurgs_lookup parentMap projection options pack k burg Hb)
    as (Hnew & _ & Hcells).
  rewrite Hnew, Hcells.
  destruct (restoreBurg_cases (groupCellsByType_land pack) projection options
              (burgCellsAfter parentMap projection options pack k) burg)
    as [[Hnl _]|[_ [[-> _]|(cell & Hin & _)]]].
  - exfalso. apply Hnl. by split.
  - eexists. split; [done|]. by simpl.
  - simpl in Hout. congruence.
Qed.

(** Scenario B: the burg at (10, 12) is projected to x = 25 on a map of
    width 20. *)
Lemma restoreBurgs_out_of_bounds_witness :
  parentBurgList !! 3%nat = Some (Burg.mk 3 "Gamma" 2 10 12 30 false true)
  ∧ @isInMap newEnv (roundTo (10 + 15) 2) (roundTo 12 2) = false
  ∧ ∃ burg', packBurgs (@restoreBurgs newEnv theParent shiftRight shiftOptions newCells)
               !! 3%nat = Some burg'
      ∧ Burg.removed burg' = true ∧ Burg.lock burg' = false.
Proof.
  split; [reflexivity|]. split; [reflexivity|].
  destruct (@restoreBurgs_out_of_bounds newEnv theParent shiftRight shiftOptions newCells
              3%nat (Burg.mk 3 "Gamma" 2 10 12 30 false true))
    as (burg' & Hb & _ & Hr & Hl & _); try reflexivity; [discriminate|].
  exists burg'. by repeat split.
Defined.

(** C3, as amended. Burgs are visited in parent order and a cell of
    [pack.cells.burg] that holds a burg is never written again; a parent
    burg with an index other than 0 that is not removed and whose rounded
    projected site snaps to a land cell that already holds a burg is returned
    with [removed = true]; and, the burg ids fitting the [Uint16Array] and
    the land cells lying within [pack.cells.burg], no two non-removed burgs
    with an index other than 0 reference the same cell. *)
Theorem restoreBurgs_first_writer_wins `{Env} (parentMap : ParentMap.t)
    (projection : Q → Q → Point) (options : Options.t) (pack : Cells.t) :
  let burgs := Pack.burgs (ParentMap.pack parentMap) in
  let run := restoreBurgs parentMap projection options pack in
  let cellsAfter := burgCellsAfter parentMap projection options pack in
  (∀ n m cell, (n ≤ m)%nat → truthy (cellsAfter n !! cell) = true →
     cellsAfter m !! cell = cellsAfter n !! cell)
  ∧ (∀ k burg cell,
       burgs !! k = Some burg → Burg.i burg ≠ 0%N → Burg.removed burg = false →
       (let pt := projection (Burg.x burg) (Burg.y burg) in
        snd <$> quadtree_find (groupCellsByType_land pack) (rn pt.1 2) (rn pt.2 2)
        = Some cell) →
       truthy (cellsAfter k !! cell) = true →
       ∃ burg', packBurgs run !! k = Some burg' ∧ Burg.i burg' = Burg.i burg
         ∧ Burg.removed burg' = true ∧ Burg.lock burg' = false)
  ∧ ((∀ data x y pt, quadtree_find data x y = Some pt → pt ∈ data) →
     (length (Cells.p pack) ≤ length (Cells.burg pack))%nat →
     Forall (λ b, (Burg.i b < 65536)%N) burgs →
     ∀ j k bj bk,
       j ≠ k → packBurgs run !! j = Some bj → packBurgs run !! k = Some bk →
       Burg.i bj ≠ 0%N → Burg.removed bj = false →
       Burg.i bk ≠ 0%N → Burg.removed bk = false →
       Burg.cell bj ≠ Burg.cell bk).
Proof.
  intros burgs run cellsAfter. split; [|split].
  - intros n m cell. apply burgCellsAfter_keeps.
  - intros k burg cell Hb Hi Hr Hsnap Ht.
    destruct (restoreBurgs_lookup parentMap projection options pack k burg Hb)
      as (Hnew & _ & _).
    subst run. rewrite Hnew.
    destruct (restoreBurg_cases (groupCellsByType_land pack) projection options
                (burgCellsAfter parentMap projection options pack k) burg)
      as [[Hnl _]|[_ [[-> _]|(cell' & _ & Hf & _ & Ht' & _)]]].
    + exfalso. apply Hnl. by split.
    + eexists. split; [done|]. by simpl.
    + simpl in Hsnap. rewrite Hsnap in Hf. injection Hf as <-.
      subst cellsAfter. congruence.
  - intros Hfind Hlen Hid j k bj bk Hne Hj Hk Hij Hrj Hik Hrk.
    assert (settled run) as [_ Hdist].
    { apply restoreBurgsFrom_settled; [|done].
      intros x y cell Hf.
      destruct (quadtree_find (groupCellsByType_land pack) x y) as [pt|] eqn:E; [|done].
      injection Hf as <-. apply Hfind in E.
      apply landFrom_range in E. lia. }
    by apply (Hdist j k bj bk).
Qed.

(** Scenario C: Alpha and Beta snap to land cell 1; Alpha, the first, keeps
    it and Beta is removed. *)
Lemma restoreBurgs_first_writer_wins_witness :
  (∀ data x y pt, nearest data x y = Some pt → pt ∈ data)
  ∧ (length sites ≤ 3)%nat
  ∧ Forall (λ b, (Burg.i b < 65536)%N) parentBurgList
  ∧ ∃ alpha beta gamma,
      let run := @restoreBurgs newEnv theParent identity identityOptions newCells in
      packBurgs run !! 1%nat = Some alpha ∧ packBurgs run !! 2%nat = Some beta
      ∧ packBurgs run !! 3%nat = Some gamma
      ∧ Burg.removed alpha = false ∧ Burg.cell alpha = 1%nat
      ∧ Burg.removed beta = true ∧ Burg.lock beta = false
      ∧ Burg.removed gamma = false ∧ Burg.cell alpha ≠ Burg.cell gamma.
Proof.
  assert (Forall (λ b, (Burg.i b < 65536)%N) parentBurgList) as Hid
    by (repeat constructor; simpl; lia).
  split; [exact nearest_In|]. split; [simpl; lia|]. split; [exact Hid|].
  destruct (@restoreBurgs_first_writer_wins newEnv theParent identity identityOptions
              newCells) as (_ & Hconflict & Hunique).
  destruct (Hconflict 2%nat (Burg.mk 2 "Beta" 1 16 5 50 false false) 1%nat)
    as (beta & Hbeta & _ & Hr & Hl); try reflexivity; [discriminate|].
  eexists _, beta, _. simpl. split; [reflexivity|]. split; [exact Hbeta|].
  split; [reflexivity|]. split; [reflexivity|]. split; [reflexivity|].
  split; [exact Hr|]. split; [exact Hl|]. split; [reflexivity|].
  apply (Hunique nearest_In ltac:(simpl; lia) Hid 1%nat 3%nat);
    try reflexivity; discriminate.
Defined.

(** C3 as it is stated fails at index 0: the record at index 0 is handed
    back as it is by the guard, so when it names cell 1 and Alpha is placed
    on cell 1, two non-removed burgs reference cell 1. *)
Lemma restoreBurgs_index_zero_shares_cell :
  let run := @restoreBurgs newEnv theParent identity identityOptions newCells in
  ∃ b0 b1, packBurgs run !! 0%nat = Some b0 ∧ packBurgs run !! 1%nat = Some b1
    ∧ Burg.removed b0 = false ∧ Burg.removed b1 = false
    ∧ Burg.cell b0 = Burg.cell b1.
Proof. simpl. eexists _, _. repeat split; reflexivity. Qed.

(** ** Markers *)

Section Markers.
Context `{Env}.
Variables (projection : Q → Q → Point).

Lemma restoreMarker_objects run ref marker :
  objects run !! ref = Some marker →
  objects (restoreMarker projection run ref) = <[ref := moved projection marker]> (objects run).
Proof.
  intros Hm. unfold restoreMarker, moved. rewrite Hm.
  destruct (projection (Marker.x marker) (Marker.y marker)) as [x y]. simpl.
  by destruct (isInMap x y).
Qed.

Lemma restoreMarker_missing run ref :
  objects run !! ref = None → restoreMarker projection run ref = run.
Proof. intros Hm. unfold restoreMarker. by rewrite Hm. Qed.

(** After the first [n] markers have been visited, those are moved and the
    others are as they were. *)
Lemma restoreMarkers_prefix markers refs n :
  ∀ j, objects (foldl (restoreMarker projection) (mkMarkersRun markers refs) (seq 0 n)) !! j
       = if decide (j < n)%nat then moved projection <$> markers !! j else markers !! j.
Proof.
  induction n as [|n IH]; intros j.
  - rewrite decide_False by lia. done.
  - rewrite seq_S, foldl_app. simpl.
    set (r := foldl (restoreMarker projection) (mkMarkersRun markers refs) (seq 0 n)) in *.
    pose proof (IH n) as Hn. rewrite decide_False in Hn by lia.
    destruct (markers !! n) as [marker|] eqn:Em.
    + rewrite (restoreMarker_objects r n marker Hn).
      destruct (decide (j = n)) as [->|Hne].
      * rewrite list_lookup_insert_eq by (by eapply lookup_lt_Some).
        rewrite decide_True by lia. by rewrite Em.
      * rewrite list_lookup_insert_ne by done. rewrite IH.
        repeat case_decide; try done; lia.
    + rewrite (restoreMarker_missing r n Hn). rewrite IH.
      repeat case_decide; try done; try lia.
      assert (j = n) as -> by lia. by rewrite Em.
Qed.

Lemma restoreMarkers_objects (parentMap : ParentMap.t) :
  objects (restoreMarkers parentMap projection)
  = moved projection <$> Pack.markers (ParentMap.pack parentMap).
Proof.
  unfold restoreMarkers. apply list_eq. intros j.
  rewrite restoreMarkers_prefix, list_lookup_fmap.
  case_decide as Hj; [done|].
  rewrite (lookup_ge_None_2 _ j) by lia. done.
Qed.

End Markers.

(** C1 as it is stated fails: the burg step of a resample with scale 2
    leaves the parent's burg Alpha with population 200 instead of 100, the
    marker step of a resample with the shifted projection leaves the
    parent's second marker at x = 17 instead of 2, and the province step of
    that resample leaves the parent's province South with its centre on
    cell 1 instead of cell 2. *)
Lemma resample_mutates_parent :
  (∃ before after,
      Pack.burgs (ParentMap.pack theParent) !! 1%nat = Some before
      ∧ parentBurgs (@restoreBurgs newEnv theParent identity identityOptions newCells)
          !! 1%nat = Some after
      ∧ ¬ (Burg.population after == Burg.population before)%Q)
  ∧ (∃ before after,
      Pack.markers (ParentMap.pack theParent) !! 1%nat = Some before
      ∧ objects (@restoreMarkers newEnv theParent shiftRight) !! 1%nat = Some after
      ∧ ¬ (Marker.x after == Marker.x before)%Q)
  ∧ (∃ before after south,
      Pack.provinces (ParentMap.pack theParent) !! 2%nat = Some before
      ∧ @restoreParent newEnv theParent shiftOptions newCells = Some after
      ∧ Pack.provinces (ParentMap.pack after) !! 2%nat = Some south
      ∧ Province.center before = Some 2%nat
      ∧ Province.center south = Some 1%nat).
Proof.
  split; [|split].
  1, 2: eexists _, _; (split; [reflexivity|]); (split; [reflexivity|]);
    intros Heq; vm_compute in Heq; discriminate.
  destruct (@restoreParent newEnv theParent shiftOptions newCells) as [after|] eqn:Ea;
    [|by vm_compute in Ea].
  exists (Province.mk 2 "South" "South Province" (Some 2%nat) 2 None false false),
    after,
    (Province.mk 2 "South" "South Province" (Some 1%nat) 2 (Some (15, 5)%Q)
       false false).
  split; [reflexivity|]. split; [reflexivity|].
  split; [|by split]. vm_compute in Ea. by injection Ea as <-.
Qed.

(** C7: the code at a marker that is projected out of the map. The marker at
    (10, 10) is moved to x = 25 on a map of width 20: it leaves
    [pack.markers], which keeps only the second marker, and yet its object
    is rewritten to (25, 10) on cell 1, the deletion not being followed by a
    [return]. *)
Theorem restoreMarkers_updates_deleted_marker :
  let run := @restoreMarkers newEnv theParent shiftRight in
  Pack.markers (ParentMap.pack theParent) !! 0%nat = Some (Marker.mk 1 10 10 (Some 0%nat))
  ∧ @isInMap newEnv (10 + 15) 10 = false
  ∧ packMarkers run = [1%nat]
  ∧ ∃ after, objects run !! 0%nat = Some after
      ∧ (Marker.x after == 25)%Q ∧ (Marker.y after == 10)%Q
      ∧ Marker.cell after = Some 1%nat.
Proof.
  simpl. repeat split; try reflexivity.
  eexists. repeat split; reflexivity.
Qed.

(** ** Validity filtering of the regional collections *)

Lemma has_present (cells : list N) (id : N) :
  has (list_to_set cells) id = true ↔ present cells id.
Proof.
  unfold has, present. rewrite bool_decide_eq_true, elem_of_list_to_set.
  apply list_elem_of_lookup.
Qed.

Lemma has_absent (cells : list N) (id : N) :
  has (list_to_set cells) id = false ↔ ¬ present cells id.
Proof. rewrite <- has_present. by destruct (has _ _). Qed.

Lemma validated_presence {A} `{Regional A} cells (parents results : list A) :
  Forall2 (validated cells) parents results → presence cells parents results.
Proof.
  intros HF. split; [by rewrite (Forall2_length _ _ _ HF)|]. split.
  - intros k y Hy Hi Hr.
    destruct (Forall2_lookup_r _ _ _ _ _ HF Hy) as (x & Hx & Hid & Hkeep & Hval).
    rewrite Hid in Hi |- *.
    destruct (isRemoved x) eqn:Ex.
    { specialize (Hkeep (or_intror eq_refl)). congruence. }
    destruct (Hval Hi eq_refl) as [_ Hno].
    destruct (decide (has (list_to_set cells) (ident x) = true)) as [Hp|Hp].
    + by apply has_present.
    + apply not_true_is_false, has_absent, Hno in Hp as [? _]. congruence.
  - intros k x Hx Hi Hr Hno.
    destruct (Forall2_lookup_l _ _ _ _ _ HF Hx) as (y & Hy & Hid & _ & Hval).
    exists y. split; [done|]. split; [done|]. by apply (Hval Hi Hr).
Qed.

(** The cases of validity filtering, once the guard and the set lookup
    have been decided. *)
Ltac validated_cases :=
  repeat split; intros; simpl in *; try done; try congruence; try tauto;
  try (intuition congruence).

Section Regions.
Context `{Env}.
Variables (parentMap : ParentMap.t) (projection : Q → Q → Point).

Lemma restoreCulture_validated cells x y :
  restoreCulture parentMap projection cells x = Some y → validated cells x y.
Proof.
  unfold restoreCulture, validated. simpl.
  destruct (Culture.i x =? 0)%N eqn:Ei; simpl.
  { intros [= <-]. apply N.eqb_eq in Ei. validated_cases. }
  apply N.eqb_neq in Ei.
  destruct (Culture.removed x) eqn:Er; simpl.
  { intros [= <-]. validated_cases. }
  destruct (has (list_to_set cells) (Culture.i x)) eqn:Eh; simpl.
  - apply has_present in Eh.
    destruct (recenter _ _ _ _ _) as [center|]; [|done]. simpl. intros [= <-].
    validated_cases.
  - apply has_absent in Eh. intros [= <-]. validated_cases.
Qed.

Lemma restoreReligion_validated cells x y :
  restoreReligion parentMap projection cells x = Some y → validated cells x y.
Proof.
  unfold restoreReligion, validated. simpl.
  destruct (Religion.i x =? 0)%N eqn:Ei; simpl.
  { intros [= <-]. apply N.eqb_eq in Ei. validated_cases. }
  apply N.eqb_neq in Ei.
  destruct (Religion.removed x) eqn:Er; simpl.
  { intros [= <-]. validated_cases. }
  destruct (has (list_to_set cells) (Religion.i x)) eqn:Eh; simpl.
  - apply has_present in Eh.
    destruct (recenter _ _ _ _ _) as [center|]; [|done]. simpl. intros [= <-].
    validated_cases.
  - apply has_absent in Eh. intros [= <-]. validated_cases.
Qed.

Lemma restoreState_validated cells x y :
  restoreState parentMap projection cells x = Some y → validated cells x y.
Proof.
  unfold restoreState, validated. simpl.
  destruct (State.i x =? 0)%N eqn:Ei; simpl.
  { intros [= <-]. apply N.eqb_eq in Ei. validated_cases. }
  apply N.eqb_neq in Ei.
  destruct (State.removed x) eqn:Er; simpl.
  { intros [= <-]. validated_cases. }
  destruct (has (list_to_set cells) (State.i x)) eqn:Eh; simpl.
  - apply has_present in Eh.
    destruct (mapM _ _) as [military|]; [|done]. simpl. intros [= <-].
    validated_cases.
  - apply has_absent in Eh. intros [= <-]. validated_cases.
Qed.

Lemma restoreProvince_validated cells x :
  validated cells x (restoreProvince cells x).
Proof.
  unfold restoreProvince, validated. simpl.
  destruct (Province.i x =? 0)%N eqn:Ei; simpl.
  { apply N.eqb_eq in Ei. validated_cases. }
  apply N.eqb_neq in Ei.
  destruct (Province.removed x) eqn:Er; simpl.
  { validated_cases. }
  destruct (has (list_to_set cells) (Province.i x)) eqn:Eh; simpl.
  - apply has_present in Eh. validated_cases.
  - apply has_absent in Eh. validated_cases.
Qed.

(** Setting the pole and the centre leaves the index and the flags. *)
Lemma recenterState_keeps burgs x y :
  recenterState burgs x = Some y →
  State.i y = State.i x ∧ State.removed y = State.removed x
  ∧ State.lock y = State.lock x ∧ State.capital y = State.capital x
  ∧ State.pole y = State.pole x.
Proof.
  unfold recenterState. intros Hy.
  repeat (case_match; simplify_option_eq); simplify_option_eq; by repeat split.
Qed.

Lemma recenterProvince_keeps burgs x y :
  recenterProvince burgs x = Some y →
  Province.i y = Province.i x ∧ Province.removed y = Province.removed x
  ∧ Province.lock y = Province.lock x.
Proof.
  unfold recenterProvince. intros Hy.
  repeat (case_match; simplify_option_eq); simplify_option_eq; by repeat split.
Qed.

Lemma validated_keeps {A} `{Regional A} cells (x y z : A) :
  validated cells x y →
  ident z = ident y → isRemoved z = isRemoved y → isLocked z = isLocked y →
  validated cells x z.
Proof. unfold validated. intros (? & ? & ?) -> -> ->. done. Qed.

Lemma restoreStates_validated cells burgs states' :
  restoreStates parentMap projection cells burgs = Some states' →
  Forall2 (validated cells) (Pack.states (ParentMap.pack parentMap)) states'.
Proof.
  unfold restoreStates.
  destruct (mapM _ _) as [states|] eqn:E1; [|done]. simpl.
  intros E2. apply mapM_Some in E1, E2. unfold BurgsAndStates_getPoles in E2.
  apply Forall2_fmap_l in E2.
  eapply (Forall2_trans _ _ _ _ _ _ _ E1 E2).
  Unshelve. intros x y z Hxy Hyz. simpl in *.
  apply restoreState_validated in Hxy.
  destruct (recenterState_keeps _ _ _ Hyz) as (Hi & Hr & Hl & _).
  eapply validated_keeps; [exact Hxy|..]; done.
Qed.

Lemma restoreProvinces_validated cells burgs provinces' :
  restoreProvinces parentMap cells burgs = Some provinces' →
  Forall2 (validated cells) (Pack.provinces (ParentMap.pack parentMap)) provinces'.
Proof.
  unfold restoreProvinces. intros E2. apply mapM_Some in E2.
  unfold Provinces_getPoles in E2. rewrite <- list_fmap_compose in E2.
  apply Forall2_fmap_l in E2.
  eapply Forall2_impl; [exact E2|].
  intros x z Hz. simpl in Hz.
  destruct (recenterProvince_keeps _ _ _ Hz) as (Hi & Hr & Hl).
  eapply validated_keeps; [apply restoreProvince_validated|..]; done.
Qed.

End Regions.

(** C2, as amended. For cultures, states, religions and provinces alike,
    over the overlay arrays [o] of the new pack and whenever the step returns:
    the returned collection has the parent's length; every returned entity
    with an index other than 0 that is not removed has its index on some new
    cell; and every parent entity with an index other than 0 that was not
    removed and whose index is on no new cell is returned, under the same
    index, with [removed = true] and [lock = false]. *)
Theorem restore_keeps_regions_present `{Env} (parentMap : ParentMap.t)
    (projection : Q → Q → Point) (o : Overlays) (burgs : list Burg.t) :
  let parent := ParentMap.pack parentMap in
  (∀ cultures, restoreCultures parentMap projection (o_culture o) = Some cultures →
     presence (o_culture o) (Pack.cultures parent) cultures)
  ∧ (∀ states, restoreStates parentMap projection (o_state o) burgs = Some states →
     presence (o_state o) (Pack.states parent) states)
  ∧ (∀ religions, restoreReligions parentMap projection (o_religion o) = Some religions →
     presence (o_religion o) (Pack.religions parent) religions)
  ∧ (∀ provinces, restoreProvinces parentMap (o_province o) burgs = Some provinces →
     presence (o_province o) (Pack.provinces parent) provinces).
Proof.
  intros parent. split; [|split; [|split]]; intros l Hl; apply validated_presence.
  - apply mapM_Some in Hl. eapply Forall2_impl; [exact Hl|].
    intros x y. apply restoreCulture_validated.
  - by eapply restoreStates_validated.
  - apply mapM_Some in Hl. eapply Forall2_impl; [exact Hl|].
    intros x y. apply restoreReligion_validated.
  - by eapply restoreProvinces_validated.
Qed.

(** On the new pack without water, the culture Lost, which is on no new
    cell, is returned removed and unlocked. *)
Lemma restore_keeps_regions_present_witness :
  ∃ o cultures,
    @restoreSecondaryCellData landEnv theParent identity landCells = Some o
    ∧ @restoreCultures landEnv theParent identity (o_culture o) = Some cultures
    ∧ ¬ present (o_culture o) 3%N
    ∧ ∃ lost, cultures !! 3%nat = Some lost
        ∧ Culture.removed lost = true ∧ Culture.lock lost = false.
Proof.
  eexists _, _. split; [reflexivity|]. split; [reflexivity|].
  assert (¬ present [1; 2]%N 3%N) as Hno.
  { intros [[|[|[|cell]]] Hc]; simpl in Hc; discriminate. }
  split; [exact Hno|].
  destruct (@restore_keeps_regions_present landEnv theParent identity
              (mkOverlays [1; 2]%N [1; 2]%N [0; 0]%N [1; 1]%N [1; 2]%N) [])
    as (Hcultures & _).
  destruct (Hcultures _ eq_refl) as (_ & _ & Hgone).
  destruct (Hgone 3%nat (Culture.mk 3 "Lost" (Some 1%nat) false true) eq_refl)
    as (lost & Hlost & _ & Hr & Hl); [discriminate|reflexivity|exact Hno|].
  exists lost. by repeat split.
Defined.

(** C2 as it is stated fails at index 0: on the new pack without water no
    cell carries culture 0, and the culture Wildlands, index 0, is handed
    back as it is by the guard, not removed. *)
Lemma restoreCultures_index_zero_absent :
  ∃ o cultures wildlands,
    @restoreSecondaryCellData landEnv theParent identity landCells = Some o
    ∧ @restoreCultures landEnv theParent identity (o_culture o) = Some cultures
    ∧ Pack.cultures (ParentMap.pack theParent) !! 0%nat = Some wildlands
    ∧ cultures !! 0%nat = Some wildlands
    ∧ Culture.removed wildlands = false
    ∧ ¬ present (o_culture o) (Culture.i wildlands).
Proof.
  eexists _, _, _. split; [reflexivity|]. split; [reflexivity|].
  split; [reflexivity|]. split; [reflexivity|]. split; [reflexivity|].
  intros [[|[|[|cell]]] Hc]; simpl in Hc; discriminate.
Qed.

(** ** Zones *)

Section Zones.
Context `{Env}.
Variables (parentMap : ParentMap.t) (projection : Q → Q → Point) (options : Options.t).



Lemma zoneUnion_cons cellId members :
  zoneUnion parentMap projection options (cellId :: members)
  = reached parentMap projection options cellId
    ++ zoneUnion parentMap projection options members.
Proof. reflexivity. Qed.

Lemma zoneMembers_union members found :
  mapM (zoneMember parentMap projection options) members = Some found →
  concat (omap id found) = zoneUnion parentMap projection options members.
Proof.
  revert found. induction members as [|cellId members IH]; intros found.
  - by intros [= <-].
  - rewrite mapM_Some. intros HF. inversion HF as [|? r ? found' Hr HF']; subst.
    apply mapM_Some in HF'. specialize (IH _ HF').
    rewrite zoneUnion_cons, <- IH. unfold reached.
    unfold zoneMember in Hr.
    destruct (Cells.p (Pack.cells (ParentMap.pack parentMap)) !! cellId) as [pt|];
      [|done]. simpl in Hr.
    destruct (projection pt.1 pt.2) as [x y].
    destruct (isInMap x y); simpl in Hr; injection Hr as <-; done.
Qed.

Lemma restoreZone_cells zone zone' :
  restoreZone parentMap projection options zone = Some zone' →
  Zone.cells zone' = unique (zoneUnion parentMap projection options (Zone.cells zone))
  ∧ Zone.i zone' = Zone.i zone ∧ Zone.name zone' = Zone.name zone.
Proof.
  unfold restoreZone.
  destruct (mapM _ _) as [found|] eqn:E; [|done]. simpl. intros [= <-]. simpl.
  by rewrite (zoneMembers_union _ _ E).
Qed.

(** [restoreZones] returns when every member of every zone is a parent
    cell. *)
Lemma restoreZones_returns :
  Forall (λ zone, Forall (λ cellId,
            (cellId < length (Cells.p (Pack.cells (ParentMap.pack parentMap))))%nat)
          (Zone.cells zone))
    (Pack.zones (ParentMap.pack parentMap)) →
  is_Some (restoreZones parentMap projection options).
Proof.
  intros Hz. unfold restoreZones. apply mapM_is_Some_2.
  eapply Forall_impl; [exact Hz|]. intros zone Hm. simpl. unfold restoreZone.
  assert (is_Some (mapM (zoneMember parentMap projection options) (Zone.cells zone)))
    as [found ->]; [|by eexists].
  apply mapM_is_Some_2. eapply Forall_impl; [exact Hm|]. intros cellId Hc. simpl.
  unfold compose, zoneMember.
  destruct (Cells.p (Pack.cells (ParentMap.pack parentMap)) !! cellId) as [pt|] eqn:E;
    simpl; [|apply lookup_ge_None in E; simpl in Hc; unfold Point in *; lia].
  destruct (projection pt.1 pt.2) as [x y]. destruct (isInMap x y); by eexists.
Qed.

End Zones.



(** ** State centres *)

Section Centers.
Context `{Env}.

Lemma recenterState_center burgs x s :
  recenterState burgs x = Some s → State.i s ≠ 0%N → State.removed s = false →
  ∃ capital, burgs !! N.to_nat (State.capital s) = Some capital
    ∧ (Burg.removed capital = false → State.center s = Some (Burg.cell capital))
    ∧ (Burg.removed capital = true →
       ∃ pole, State.pole x = Some pole ∧ State.center s = findCell pole.1 pole.2).
Proof.
  intros Hs Hi Hr. destruct (recenterState_keeps _ _ _ Hs) as (Ei & Er & _ & Ec & _).
  unfold recenterState in Hs. rewrite Ei in Hi. rewrite Er in Hr. rewrite Ec.
  apply N.eqb_neq in Hi. rewrite Hi, Hr in Hs. simpl in Hs.
  destruct (burgs !! N.to_nat (State.capital x)) as [capital|]; [|done].
  exists capital. split; [done|].
  destruct (Burg.removed capital); simpl in Hs.
  - split; [done|]. intros _.
    destruct (State.pole x) as [pole|]; [|done]. simpl in Hs. injection Hs as <-.
    by exists pole.
  - injection Hs as <-. split; [done|]. done.
Qed.

End Centers.

(** C8. Whenever [restoreStates] returns, every returned state with an
    index other than 0 that is not removed has a capital in [pack.burgs];
    its centre is the capital's cell when the capital is not removed, and
    otherwise the cell that [findCell] gives for the state's pole, the pole
    helper's entry for the state's index. *)
Theorem restoreStates_center_from_capital_or_pole `{Env} (parentMap : ParentMap.t)
    (projection : Q → Q → Point) (cells_state : list N) (burgs : list Burg.t)
    (states' : list State.t) (k : nat) (state : State.t) :
  restoreStates parentMap projection cells_state burgs = Some states' →
  states' !! k = Some state →
  State.i state ≠ 0%N → State.removed state = false →
  ∃ capital, burgs !! N.to_nat (State.capital state) = Some capital
    ∧ (Burg.removed capital = false → State.center state = Some (Burg.cell capital))
    ∧ (Burg.removed capital = true →
       ∃ pole, getPolesOfInaccessibility cells_state (State.i state) = Some pole
         ∧ State.pole state = Some pole
         ∧ State.center state = findCell pole.1 pole.2).
Proof.
  unfold restoreStates. intros Hs Hk Hi Hr.
  destruct (mapM _ _) as [states|] eqn:E1; [|done]. simpl in Hs.
  apply mapM_Some in Hs. unfold BurgsAndStates_getPoles in Hs.
  apply Forall2_fmap_l in Hs.
  destruct (Forall2_lookup_r _ _ _ _ _ Hs Hk) as (x & _ & Hx). simpl in Hx.
  destruct (recenterState_keeps _ _ _ Hx) as (Ei & _ & _ & _ & Ep).
  destruct (recenterState_center _ _ _ Hx Hi Hr) as (capital & Hcap & Hlive & Hgone).
  exists capital. split; [done|]. split; [done|].
  intros Hrem. destruct (Hgone Hrem) as (pole & Hpole & Hcenter).
  exists pole. simpl in Hpole, Ep, Ei. rewrite Ep, Ei. done.
Qed.

(** Alphia's capital Alpha holds cell 1, which becomes Alphia's centre;
    Betia's capital Beta was removed, so Betia's centre is the cell of its
    pole (5, 15), cell 2. *)
Lemma restoreStates_center_from_capital_or_pole_witness :
  let burgs := packBurgs (@restoreBurgs newEnv theParent identity identityOptions newCells) in
  ∃ states' alphia betia beta,
    @restoreStates newEnv theParent identity [0; 1; 2]%N burgs = Some states'
    ∧ states' !! 1%nat = Some alphia ∧ State.center alphia = Some 1%nat
    ∧ states' !! 2%nat = Some betia
    ∧ burgs !! 2%nat = Some beta ∧ Burg.removed beta = true
    ∧ State.pole betia = Some (5, 15)%Q
    ∧ State.center betia = Some 2%nat.
Proof.
  intros burgs.
  destruct (@restoreStates_center_from_capital_or_pole newEnv theParent identity
              [0; 1; 2]%N burgs _ 2%nat _ eq_refl eq_refl)
    as (beta & Hbeta & _ & Hgone); [discriminate|reflexivity|].
  assert (Burg.removed beta = true) as Hrem.
  { vm_compute in Hbeta. by injection Hbeta as <-. }
  destruct (Hgone Hrem) as (pole & _ & Hpole & Hcenter).
  assert (pole = (5, 15)%Q) as -> by (vm_compute in Hpole; by injection Hpole as <-).
  eexists _, _, _, beta. split; [reflexivity|]. split; [reflexivity|].
  split; [reflexivity|]. split; [reflexivity|]. split; [exact Hbeta|].
  split; [exact Hrem|]. split; [exact Hpole|]. rewrite Hcenter. reflexivity.
Defined.

(** * Further properties *)

(** ** More on smoothing *)

Section SmoothingRange.
Implicit Types (c : list (list nat)) (h st : list Z) (k n : nat).

Lemma sum_between (lo hi : Z) (l : list Z) :
  Forall (λ v, lo <= v <= hi) l →
  lo * Z.of_nat (length l) <= foldr Z.add 0 l <= hi * Z.of_nat (length l).
Proof. induction 1 as [|v l Hv _ IH]; simpl; lia. Qed.

Lemma d3_mean_between (lo hi : Z) (values : list (option Z)) (m : Q) :
  Forall (λ o, ∀ v, o = Some v → lo <= v <= hi) values →
  d3_mean values = Some m → (inject_Z lo <= m)%Q ∧ (m <= inject_Z hi)%Q.
Proof.
  intros Hv. unfold d3_mean.
  assert (Forall (λ v, lo <= v <= hi) (omap id values)) as Hd.
  { induction Hv as [|o l Ho _ IH]; simpl; [constructor|].
    destruct o as [v|]; simpl; [constructor; auto|done]. }
  destruct (omap id values) as [|v0 l] eqn:E; [done|].
  pose proof (sum_between _ _ _ Hd) as [Hlo Hhi]. simpl in Hlo, Hhi.
  intros [= <-]. split.
  - apply Qle_shift_div_l; [unfold Qlt; simpl; lia|].
    unfold Qle; simpl; lia.
  - apply Qle_shift_div_r; [unfold Qlt; simpl; lia|].
    unfold Qle; simpl; lia.
Qed.

Lemma smoothCell_between (lo hi : Z) c st k st' :
  uint8_array st → Forall (λ v, lo <= v <= hi) st →
  smoothCell c st k = Some st' → Forall (λ v, lo <= v <= hi) st'.
Proof.
  intros Hu Hb Hs.
  destruct (smoothCell_value _ _ _ _ Hu Hs) as (m & Hm & Hv & Hcl & _).
  unfold smoothCell, clampedMean in *.
  destruct (st !! k) as [height|] eqn:Eh; simplify_eq/=.
  destruct (c !! k) as [neibs|] eqn:Ec; simplify_eq/=.
  assert (k < length st)%nat as Hk by (by eapply lookup_lt_Some).
  rewrite list_lookup_insert_eq in Hv by done. injection Hv as Hv. rewrite Hv.
  apply Forall_insert; [done|].
  assert (lo <= height <= hi) as Hh by (eapply (Forall_lookup_1 _ _ _ _ Hb Eh)).
  destruct (d3_mean (heights st height neibs)) as [mean|] eqn:Em; [|by destruct (isWater _ _)].
  assert (Forall (λ o, ∀ v, o = Some v → lo <= v <= hi) (heights st height neibs)) as Hall.
  { unfold heights. constructor; [by intros v [= <-]|].
    apply Forall_map, Forall_forall. intros j _ v Hj. simpl in Hj.
    eapply (Forall_lookup_1 _ _ _ _ Hb Hj). }
  destruct (d3_mean_between _ _ _ _ Hall Em) as [Hlo Hhi].
  assert (isWater st k = (height <? 20)) as Hw by (unfold isWater; by rewrite Eh).
  rewrite Hw in Hm, Hcl. destruct (height <? 20) eqn:Ew; simpl in Hm; injection Hm as <-.
  - apply Z.ltb_lt in Ew. split.
    + apply Qfloor_ge_Z. apply Q.min_glb; [done|]. unfold Qle; simpl; lia.
    + apply Qfloor_le_Z. eapply Qle_trans; [apply Q.le_min_l|done].
  - apply Z.ltb_ge in Ew. split.
    + apply Qfloor_ge_Z. eapply Qle_trans; [exact Hlo|apply Q.le_max_l].
    + apply Qfloor_le_Z. apply Q.max_lub; [done|]. unfold Qle; simpl; lia.
Qed.

Lemma smoothPrefix_between (lo hi : Z) c h n st :
  uint8_array h → Forall (λ v, lo <= v <= hi) h →
  smoothPrefix c h n = Some st → Forall (λ v, lo <= v <= hi) st.
Proof.
  intros Hu Hb. revert st. induction n as [|n IH]; intros st.
  - by intros [= <-].
  - rewrite smoothPrefix_S. destruct (smoothPrefix c h n) as [st0|] eqn:E0; [|done].
    simpl. intros Hs. eapply smoothCell_between; [|by apply IH|done].
    by eapply smoothPrefix_uint8.
Qed.

End SmoothingRange.

Lemma smoothHeightmap_between (c : list (list nat)) (h h' : list Z) (lo hi : Z) :
  uint8_array h → Forall (λ v, lo <= v <= hi) h →
  smoothHeightmap c h = Some h' →
  length h' = length h ∧ uint8_array h' ∧ Forall (λ v, lo <= v <= hi) h'.
Proof.
  intros Hu Hb Hs. split; [by destruct (smoothPrefix_frame _ _ _ _ Hs)|].
  split; [by eapply smoothPrefix_uint8|by eapply smoothPrefix_between].
Qed.

(** Smoothing makes no new extreme: when every elevation lies between [lo]
    and [hi], so does every smoothed elevation, and the result is again a
    [Uint8Array] of the same length. *)
Theorem smoothHeightmap_within_range (c : list (list nat)) (h h' : list Z) (lo hi : Z) :
  uint8_array h → Forall (λ v, lo <= v <= hi) h →
  smoothHeightmap c h = Some h' →
  length h' = length h ∧ uint8_array h' ∧ Forall (λ v, lo <= v <= hi) h'.
Proof. apply smoothHeightmap_between. Qed.

(** Elevations 10, 30 and 40 stay between 10 and 40. *)
Lemma smoothHeightmap_within_range_witness :
  uint8_array [10; 30; 40] ∧ Forall (λ v, 10 <= v <= 40) [10; 30; 40]
  ∧ ∃ h', smoothHeightmap [[1]; [0; 2]; [1]]%nat [10; 30; 40] = Some h'
      ∧ Forall (λ v, 10 <= v <= 40) h'.
Proof.
  assert (uint8_array [10; 30; 40]) as Hu by (repeat constructor; lia).
  assert (Forall (λ v, 10 <= v <= 40) [10; 30; 40]) as Hb by (repeat constructor; lia).
  split; [exact Hu|]. split; [exact Hb|]. eexists. split; [reflexivity|].
  by destruct (smoothHeightmap_within_range [[1]; [0; 2]; [1]]%nat [10; 30; 40] _ 10 40
                 Hu Hb eq_refl) as (_ & _ & ?).
Defined.

(** A flat heightmap is a fixed point of smoothing: when every cell has the
    same elevation and a neighbour list, [smoothHeightmap] returns the
    heightmap as it was. *)
Theorem smoothHeightmap_flat_field (c : list (list nat)) (h : list Z) (v : Z) :
  0 <= v < 256 → Forall (λ x, x = v) h → (length h ≤ length c)%nat →
  smoothHeightmap c h = Some h.
Proof.
  intros Hv Hflat Hc.
  assert (uint8_array h) as Hu by (eapply Forall_impl; [exact Hflat|]; intros ? ->; done).
  assert (Forall (λ x, v <= x <= v) h) as Hb
    by (eapply Forall_impl; [exact Hflat|]; intros ? ->; simpl; lia).
  destruct (smoothPrefix_total c h (length h) ltac:(lia) Hc) as [h' Hs].
  fold (smoothHeightmap c h) in Hs. rewrite Hs. f_equal.
  destruct (smoothHeightmap_between c h h' v v Hu Hb Hs) as (Hlen & _ & Hb').
  apply list_eq_same_length with (length h); [done..|].
  intros k x y Hk Hx Hy.
  pose proof (Forall_lookup_1 _ _ _ _ Hb' Hx) as Hx'.
  pose proof (Forall_lookup_1 _ _ _ _ Hflat Hy) as Hy'. simpl in *. lia.
Qed.

(** Three cells at 25 stay at 25. *)
Lemma smoothHeightmap_flat_field_witness :
  smoothHeightmap [[1]; [0; 2]; [1]]%nat [25; 25; 25] = Some [25; 25; 25].
Proof.
  apply (smoothHeightmap_flat_field _ _ 25); [lia|repeat constructor|simpl; lia].
Defined.

Lemma smoothHeightmap_is_Some_iff (c : list (list nat)) (h : list Z) :
  is_Some (smoothHeightmap c h) ↔ (length h ≤ length c)%nat.
Proof.
  split; [|intros Hc; by apply smoothPrefix_total].
  intros [h' Hs]. destruct (decide (length h ≤ length c)%nat) as [|Hlt]; [done|].
  exfalso. unfold smoothHeightmap in Hs.
  destruct (smoothPrefix_earlier c h (S (length c)) (length h) h' Hs ltac:(lia))
    as (st & Hst & _).
  rewrite smoothPrefix_S in Hst.
  destruct (smoothPrefix c h (length c)) as [st0|] eqn:E0; [|done]. simpl in Hst.
  unfold smoothCell in Hst.
  destruct (smoothPrefix_frame _ _ _ _ E0) as [Hlen _].
  destruct (lookup_lt_is_Some_2 st0 (length c) ltac:(lia)) as [height Hh].
  rewrite Hh in Hst. simpl in Hst.
  rewrite (lookup_ge_None_2 c (length c)) in Hst by lia. done.
Qed.

(** [smoothHeightmap] returns exactly when [grid.cells.c] has an entry for
    every cell of [grid.cells.h]; calling [map] on a missing neighbour list
    throws. *)
Theorem smoothHeightmap_returns_iff (c : list (list nat)) (h : list Z) :
  is_Some (smoothHeightmap c h) ↔ (length h ≤ length c)%nat.
Proof. apply smoothHeightmap_is_Some_iff. Qed.

Section DepressionMore.
Context `{Env}.
Variables (parentMap : ParentMap.t) (inverse : Q → Q → Point).

Lemma depressCell_is_Some h pt k :
  is_Some (depressCell parentMap inverse h pt k)
  ↔ is_Some (nearestParentCell parentMap inverse pt).
Proof.
  unfold depressCell.
  destruct (nearestParentCell parentMap inverse pt) as [cell|]; simpl.
  - split; [by eexists|]. intros _.
    destruct (h !! k); [destruct (_ && _)|]; by eexists.
  - split; intros [? ?]; done.
Qed.

Lemma depress_forEachFrom_is_Some pts : ∀ k0 h,
  is_Some (forEachFrom (depressCell parentMap inverse) pts k0 h)
  ↔ Forall (λ pt, is_Some (nearestParentCell parentMap inverse pt)) pts.
Proof.
  induction pts as [|pt pts IH]; intros k0 h; simpl.
  - split; [constructor|by eexists].
  - rewrite Forall_cons, <- (depressCell_is_Some h pt k0).
    destruct (depressCell parentMap inverse h pt k0) as [h1|]; simpl.
    + rewrite IH. split; [by split|by intros [_ ?]].
    + split; [by intros [? ?]|by intros [[? ?] _]].
Qed.

End DepressionMore.

Lemma depressRivers_is_Some_iff `{Env} (parentMap : ParentMap.t)
    (inverse : Q → Q → Point) (grid : Grid.t) :
  is_Some (depressRivers parentMap inverse grid)
  ↔ ∀ pt, pt ∈ Grid.cpoints (Grid.cells grid) →
      is_Some (quadtree_find (Cells.q (Pack.cells (ParentMap.pack parentMap)))
                 (inverse pt.1 pt.2).1 (inverse pt.1 pt.2).2).
Proof.
  unfold depressRivers, forEach. rewrite depress_forEachFrom_is_Some, Forall_forall.
  apply forall_proper. intros pt. apply forall_proper. intros _.
  unfold nearestParentCell. destruct (inverse pt.1 pt.2) as [px py]. simpl.
  destruct (quadtree_find _ px py) as [found|]; simpl.
  - split; intros _; by eexists.
  - split; intros [? ?]; done.
Qed.

Lemma depressRivers_keeps `{Env} (parentMap : ParentMap.t)
    (inverse : Q → Q → Point) (grid : Grid.t) (h' : list Z) :
  uint8_array (Grid.h (Grid.cells grid)) →
  depressRivers parentMap inverse grid = Some h' →
  uint8_array h' ∧ length h' = length (Grid.h (Grid.cells grid))
  ∧ ∀ k, isWater h' k = isWater (Grid.h (Grid.cells grid)) k
       ∧ ∀ v v', Grid.h (Grid.cells grid) !! k = Some v → h' !! k = Some v' →
           v - 1 <= v' <= v.
Proof.
  intros Hu Hs. unfold depressRivers, forEach in Hs.
  set (h := Grid.h (Grid.cells grid)) in *.
  set (points := Grid.cpoints (Grid.cells grid)) in *.
  destruct (depress_forEachFrom parentMap inverse points 0%nat h h' Hu Hs)
    as (Hlen & Hout & Hin).
  assert (∀ k, h' !! k = h !! k
               ∨ ∃ cell, h' !! k = depressed parentMap cell <$> h !! k) as Hcase.
  { intros k. destruct (points !! k) as [pt|] eqn:Ept.
    - destruct (Hin k pt Ept) as (cell & _ & Hk). right. by exists cell.
    - left. apply Hout. right. apply lookup_ge_None in Ept. simpl. lia. }
  assert (∀ cell v, (depressed parentMap cell v <? 20) = (v <? 20)
                    ∧ v - 1 <= depressed parentMap cell v <= v) as Hdep.
  { intros cell v. unfold depressed.
    destruct (hasRiver parentMap cell); simpl; [|split; [done|lia]].
    destruct (20 <? v) eqn:E; [|split; [done|lia]].
    apply Z.ltb_lt in E. split; [|lia].
    rewrite (proj2 (Z.ltb_ge _ _)) by lia. symmetry. apply Z.ltb_ge. lia. }
  split.
  { apply Forall_lookup_2. intros k v' Hv'.
    destruct (Hcase k) as [Hk|[cell Hk]]; rewrite Hk in Hv'.
    - eapply (Forall_lookup_1 _ _ _ _ Hu Hv').
    - destruct (h !! k) as [v|] eqn:Ev; [|done]. simpl in Hv'. injection Hv' as <-.
      pose proof (Forall_lookup_1 _ _ _ _ Hu Ev) as Hr. simpl in Hr.
      destruct (Hdep cell v) as [Hw Hb].
      destruct (decide (depressed parentMap cell v = v)) as [->|Hne]; [done|].
      unfold depressed in *. destruct (_ && (20 <? v)) eqn:E; [|done].
      apply andb_true_iff in E as [_ E%Z.ltb_lt]. lia. }
  split; [done|]. intros k. split.
  - unfold isWater. destruct (Hcase k) as [->|[cell ->]]; [done|].
    destruct (h !! k) as [v|]; [|done]. simpl. apply Hdep.
  - intros v v' Hv Hv'. destruct (Hcase k) as [Hk|[cell Hk]]; rewrite Hk, Hv in Hv'.
    + injection Hv' as <-. lia.
    + simpl in Hv'. injection Hv' as <-. apply Hdep.
Qed.

(** [depressRivers] returns exactly when the quadtree of the parent pack
    finds a cell for the inverse projection of every point of
    [grid.cells.points]; indexing the [undefined] that [find] gives on an
    empty quadtree throws. *)
Theorem depressRivers_returns_iff `{Env} (parentMap : ParentMap.t)
    (inverse : Q → Q → Point) (grid : Grid.t) :
  is_Some (depressRivers parentMap inverse grid)
  ↔ ∀ pt, pt ∈ Grid.cpoints (Grid.cells grid) →
      is_Some (quadtree_find (Cells.q (Pack.cells (ParentMap.pack parentMap)))
                 (inverse pt.1 pt.2).1 (inverse pt.1 pt.2).2).
Proof. apply depressRivers_is_Some_iff. Qed.


Lemma toUint8_inject_Z (v : Z) : 0 <= v < 256 → toUint8 (Some (inject_Z v)) = v.
Proof. intros Hv. simpl. rewrite Qtrunc_inject_Z. by apply Z.mod_small. Qed.

Lemma toInt8_inject_Z (v : Z) : -128 <= v < 128 → toInt8 (Some (inject_Z v)) = v.
Proof.
  intros Hv. unfold toInt8. simpl. rewrite Qtrunc_inject_Z.
  destruct (decide (0 <= v)) as [Hpos|Hneg].
  - rewrite Z.mod_small by lia. rewrite (proj2 (Z.ltb_lt _ _)) by lia. done.
  - assert (v `mod` 256 = v + 256) as ->.
    { symmetry. apply (Z.mod_unique_pos _ _ (-1)); lia. }
    rewrite (proj2 (Z.ltb_ge _ _)) by lia. lia.
Qed.

Lemma smoothHeightmap_isWater (c : list (list nat)) (h h' : list Z) (k : nat) :
  uint8_array h → smoothHeightmap c h = Some h' → isWater h' k = isWater h k.
Proof.
  intros Hu Hs. destruct (smoothPrefix_frame _ _ _ _ Hs) as [Hlen _].
  destruct (decide (k < length h)%nat) as [Hk|Hk].
  2:{ unfold isWater. by rewrite !lookup_ge_None_2 by lia. }
  pose proof (smoothCell_mixed _ _ _ _ Hs Hk) as Hcell.
  pose proof (smoothPrefix_mixed _ _ _ k Hs ltac:(lia)) as Hpre.
  pose proof (smoothPrefix_uint8 _ _ _ _ Hu Hpre) as Hu'.
  destruct (smoothCell_value _ _ _ _ Hu' Hcell) as (m & _ & _ & _ & Hw).
  assert ((take k h' ++ drop k h) !! k = h !! k) as Hmid.
  { rewrite lookup_app_r by (rewrite length_take; lia).
    rewrite length_take, lookup_drop. f_equal. lia. }
  assert ((take (S k) h' ++ drop (S k) h) !! k = h' !! k) as Hfin.
  { rewrite lookup_app_l by (rewrite length_take; lia). by rewrite lookup_take_lt by lia. }
  unfold isWater in *. by rewrite Hfin, Hmid in Hw.
Qed.

Section SamplerFacts.
Context `{Env}.
Variables (parentMap : ParentMap.t) (inverse : Q → Q → Point).

Lemma sampleCell_is_Some f pt k :
  is_Some (sampleCell parentMap inverse f pt k)
  ↔ is_Some (nearestParentCell parentMap inverse pt).
Proof.
  unfold sampleCell. destruct (nearestParentCell parentMap inverse pt); simpl.
  - split; intros _; by eexists.
  - split; intros [? ?]; done.
Qed.

Lemma sample_forEachFrom_is_Some pts : ∀ k0 f,
  is_Some (forEachFrom (sampleCell parentMap inverse) pts k0 f)
  ↔ Forall (λ pt, is_Some (nearestParentCell parentMap inverse pt)) pts.
Proof.
  induction pts as [|pt pts IH]; intros k0 f; simpl.
  - split; [constructor|by eexists].
  - rewrite Forall_cons, <- (sampleCell_is_Some f pt k0).
    destruct (sampleCell parentMap inverse f pt k0) as [f1|]; simpl.
    + rewrite IH. split; [by split|by intros [_ ?]].
    + split; [by intros [? ?]|by intros [[? ?] _]].
Qed.

Lemma sampleCell_spec f pt k f1 n :
  sameLengths f n → sampleCell parentMap inverse f pt k = Some f1 →
  sameLengths f1 n
  ∧ (uint8_array (f_h f) → uint8_array (f_h f1))
  ∧ (∀ j, j ≠ k → fieldsAt f1 j = fieldsAt f j)
  ∧ ∃ cell, nearestParentCell parentMap inverse pt = Some cell
      ∧ ((k < n)%nat → fieldsAt f1 k = Some (sampled parentMap cell)).
Proof.
  intros (H1 & H2 & H3). unfold sampleCell.
  destruct (nearestParentCell parentMap inverse pt) as [cell|]; simpl; [|done].
  intros [= <-]. split; [|split; [|split]].
  - unfold sameLengths. simpl. by rewrite !length_insert.
  - simpl. intros Hu. apply Forall_insert; [done|apply toUint8_range].
  - intros j Hj. unfold fieldsAt. simpl. by rewrite !list_lookup_insert_ne by done.
  - exists cell. split; [done|]. intros Hk. unfold fieldsAt. simpl.
    by rewrite !list_lookup_insert_eq by lia.
Qed.

Lemma sample_forEachFrom pts : ∀ k0 f f' n,
  sameLengths f n →
  forEachFrom (sampleCell parentMap inverse) pts k0 f = Some f' →
  sameLengths f' n
  ∧ (uint8_array (f_h f) → uint8_array (f_h f'))
  ∧ (∀ j, (j < k0)%nat ∨ (k0 + length pts ≤ j)%nat → fieldsAt f' j = fieldsAt f j)
  ∧ (∀ j pt, pts !! j = Some pt → (k0 + j < n)%nat →
       ∃ cell, nearestParentCell parentMap inverse pt = Some cell
         ∧ fieldsAt f' (k0 + j) = Some (sampled parentMap cell)).
Proof.
  induction pts as [|pt pts IH]; intros k0 f f' n Hn; simpl.
  - intros [= <-]. repeat split; try done; apply Hn.
  - destruct (sampleCell parentMap inverse f pt k0) as [f1|] eqn:E1; simpl; [|done].
    intros Hrest.
    destruct (sampleCell_spec _ _ _ _ _ Hn E1) as (Hn1 & Hu1 & Hoth & cell & Hcell & Hat).
    destruct (IH _ _ _ _ Hn1 Hrest) as (Hlen & Hu & Hout & Hin).
    split; [done|]. split; [by auto|]. split.
    + intros j Hj. rewrite Hout by lia. apply Hoth. lia.
    + intros [|j] pt' Hpt Hlt; simpl in Hpt.
      * injection Hpt as <-. exists cell. split; [done|].
        rewrite Nat.add_0_r in *. rewrite Hout by lia. by apply Hat.
      * replace (k0 + S j)%nat with (S k0 + j)%nat in * by lia.
        by apply Hin.
Qed.

End SamplerFacts.

Section SamplerTheorems.
Context `{Env}.
Variables (parentMap : ParentMap.t) (inverse : Q → Q → Point).

Lemma toUint8_behind field cell :
  uint8_array (field (Grid.cells (ParentMap.grid parentMap))) →
  toUint8 (parentGridValue parentMap field cell) = behind parentMap field cell.
Proof.
  intros Hu. unfold parentGridValue, behind.
  destruct (Cells.g _ !! cell) as [gc|]; simpl; [|done].
  destruct (field _ !! gc) as [v|] eqn:Ev; [|done].
  change (toUint8 (Some (inject_Z v)) = v). apply toUint8_inject_Z.
  eapply (Forall_lookup_1 _ _ _ _ Hu Ev).
Qed.

Lemma toInt8_behind field cell :
  int8_array (field (Grid.cells (ParentMap.grid parentMap))) →
  toInt8 (parentGridValue parentMap field cell) = behind parentMap field cell.
Proof.
  intros Hu. unfold parentGridValue, behind.
  destruct (Cells.g _ !! cell) as [gc|]; simpl; [|done].
  destruct (field _ !! gc) as [v|] eqn:Ev; [|done].
  change (toInt8 (Some (inject_Z v)) = v). apply toInt8_inject_Z.
  eapply (Forall_lookup_1 _ _ _ _ Hu Ev).
Qed.

Lemma sampleFields_spec points f :
  sampleFields parentMap inverse points = Some f →
  sameLengths f (length points) ∧ uint8_array (f_h f)
  ∧ ∀ k pt, points !! k = Some pt →
      ∃ cell, nearestParentCell parentMap inverse pt = Some cell
        ∧ fieldsAt f k = Some (sampled parentMap cell).
Proof.
  unfold sampleFields, forEach. intros Hs.
  set (zeros := replicate (length points) 0) in *.
  assert (sameLengths (mkFields zeros zeros zeros) (length points)) as Hn
    by (unfold sameLengths, zeros; simpl; by rewrite length_replicate).
  destruct (sample_forEachFrom parentMap inverse points 0%nat _ f _ Hn Hs)
    as (Hlen & Hu & _ & Hin).
  split; [done|]. split.
  { apply Hu. simpl. apply Forall_replicate. lia. }
  intros k pt Hpt. apply (Hin k pt Hpt). simpl. by eapply lookup_lt_Some.
Qed.

Lemma sampleFields_is_Some points :
  is_Some (sampleFields parentMap inverse points)
  ↔ Forall (λ pt, is_Some (nearestParentCell parentMap inverse pt)) points.
Proof. unfold sampleFields, forEach. apply sample_forEachFrom_is_Some. Qed.

End SamplerTheorems.

(** The sampling loop of [resamplePrimaryGridData] fills three arrays of
    length [grid.points.length]; over a parent grid whose arrays hold values
    of their element types, every new grid cell gets the elevation,
    temperature and precipitation of the parent grid cell behind the parent
    pack cell nearest to its inverse projection, and 0 where that
    back-reference is missing. *)
Theorem sampleFields_copies_parent `{Env} (parentMap : ParentMap.t)
    (inverse : Q → Q → Point) (points : list Point) (f : Fields) :
  let parent := Grid.cells (ParentMap.grid parentMap) in
  uint8_array (Grid.h parent) → int8_array (Grid.temp parent) →
  uint8_array (Grid.prec parent) →
  sampleFields parentMap inverse points = Some f →
  length (f_h f) = length points ∧ length (f_temp f) = length points
  ∧ length (f_prec f) = length points
  ∧ ∀ k pt, points !! k = Some pt →
      ∃ cell, nearestParentCell parentMap inverse pt = Some cell
        ∧ f_h f !! k = Some (behind parentMap Grid.h cell)
        ∧ f_temp f !! k = Some (behind parentMap Grid.temp cell)
        ∧ f_prec f !! k = Some (behind parentMap Grid.prec cell).
Proof.
  intros parent Hh Ht Hp Hs.
  destruct (sampleFields_spec _ _ _ _ Hs) as ((L1 & L2 & L3) & _ & Hin).
  repeat split; try done. intros k pt Hpt.
  destruct (Hin k pt Hpt) as (cell & Hcell & Hat). exists cell. split; [done|].
  unfold fieldsAt, sampled in Hat.
  rewrite (toUint8_behind _ _ _ Hh), (toInt8_behind _ _ _ Ht),
    (toUint8_behind _ _ _ Hp) in Hat.
  destruct (f_h f !! k) as [a|]; [|done]. simpl in Hat.
  destruct (f_temp f !! k) as [b|]; [|done]. simpl in Hat.
  destruct (f_prec f !! k) as [c|]; [|done]. simpl in Hat.
  by injection Hat as -> -> ->.
Qed.

(** Whatever filters are switched on, [resamplePrimaryGridData] leaves the
    points, the sampled temperature and the sampled precipitation as they
    are, returns an elevation array of length [grid.points.length] that is a
    [Uint8Array], and every cell is water or land as it was sampled. *)
Theorem resamplePrimaryGridData_keeps_sampled_classification `{Env}
    (parentMap : ParentMap.t) (inverse : Q → Q → Point) (options : Options.t)
    (grid grid' : Grid.t) :
  resamplePrimaryGridData parentMap inverse options grid = Some grid' →
  ∃ f, sampleFields parentMap inverse (Grid.points grid) = Some f
    ∧ Grid.points grid' = Grid.points grid
    ∧ Grid.temp (Grid.cells grid') = f_temp f
    ∧ Grid.prec (Grid.cells grid') = f_prec f
    ∧ length (Grid.h (Grid.cells grid')) = length (Grid.points grid)
    ∧ uint8_array (Grid.h (Grid.cells grid'))
    ∧ ∀ k, isWater (Grid.h (Grid.cells grid')) k = isWater (f_h f) k.
Proof.
  unfold resamplePrimaryGridData. intros Hr.
  destruct (sampleFields parentMap inverse (Grid.points grid)) as [f|] eqn:Ef;
    simpl in Hr; [|done].
  destruct (sampleFields_spec _ _ _ _ Ef) as ((L1 & _) & Hu & _).
  exists f. split; [done|].
  set (c := Grid.c (Grid.cells grid)) in *.
  assert (∃ h1, (if Options.smoothHeightmap options then smoothHeightmap c (f_h f)
                 else Some (f_h f)) = Some h1
                ∧ length h1 = length (f_h f) ∧ uint8_array h1
                ∧ ∀ k, isWater h1 k = isWater (f_h f) k) as (h1 & E1 & Hl1 & Hu1 & Hw1).
  { destruct (Options.smoothHeightmap options).
    - destruct (smoothHeightmap c (f_h f)) as [h1|] eqn:E; [|done].
      exists h1. split; [done|].
      destruct (smoothHeightmap_between c (f_h f) h1 0 255 Hu) as (? & ? & _); [|done|].
      { eapply Forall_impl; [exact Hu|]. simpl. lia. }
      repeat split; try done. intros k. by eapply smoothHeightmap_isWater.
    - exists (f_h f). by repeat split. }
  simpl in Hr, E1. rewrite E1 in Hr. simpl in Hr.
  destruct (Options.depressRivers options).
  - match type of Hr with (?d ≫= _) = _ => destruct d as [h2|] eqn:E2 end; [|done].
    simpl in Hr. injection Hr as <-. simpl.
    pose proof (depressRivers_keeps _ _ _ _ (Hu1 : uint8_array (Grid.h (Grid.cells (Grid.mk _ (withHeights _ h1))))) E2)
      as (Hu2 & Hl2 & Hk2). simpl in *.
    repeat split; try done; [congruence|].
    intros k. rewrite <- Hw1. apply Hk2.
  - simpl in Hr. injection Hr as <-. simpl. repeat split; try done. congruence.
Qed.

(** [resamplePrimaryGridData] returns exactly when the parent quadtree finds
    a cell for every new grid point, and, with smoothing on, every new cell
    has a neighbour list, and, with river depression on, the quadtree finds a
    cell for every point of [grid.cells.points]. *)
Theorem resamplePrimaryGridData_returns_iff `{Env}
    (parentMap : ParentMap.t) (inverse : Q → Q → Point) (options : Options.t)
    (grid : Grid.t) :
  is_Some (resamplePrimaryGridData parentMap inverse options grid)
  ↔ Forall (λ pt, is_Some (nearestParentCell parentMap inverse pt)) (Grid.points grid)
    ∧ (Options.smoothHeightmap options = true →
       (length (Grid.points grid) ≤ length (Grid.c (Grid.cells grid)))%nat)
    ∧ (Options.depressRivers options = true →
       Forall (λ pt, is_Some (nearestParentCell parentMap inverse pt))
         (Grid.cpoints (Grid.cells grid))).
Proof.
  unfold resamplePrimaryGridData.
  rewrite <- sampleFields_is_Some.
  destruct (sampleFields parentMap inverse (Grid.points grid)) as [f|] eqn:Ef; simpl.
  2:{ split; [by intros [? ?]|by intros [[? ?] _]]. }
  destruct (sampleFields_spec _ _ _ _ Ef) as ((L1 & _) & Hu & _).
  rewrite <- L1, <- smoothHeightmap_is_Some_iff.
  destruct (Options.smoothHeightmap options); simpl.
  - destruct (smoothHeightmap _ (f_h f)) as [h1|]; simpl.
    2:{ split; [by intros [? ?]|]. intros (_ & [? ?] & _); done. }
    destruct (Options.depressRivers options); simpl.
    + unfold depressRivers, forEach at 1. simpl.
      rewrite <- (depress_forEachFrom_is_Some parentMap inverse _ 0%nat h1).
      destruct (forEachFrom _ _ _ _) as [h2|]; simpl.
      * split; [intros _|intros _; by eexists]. by repeat split; eauto.
      * split; [by intros [? ?]|]. intros (_ & _ & [? ?]); done.
    + split; [intros _|intros _; by eexists]. repeat split; eauto. done.
  - destruct (Options.depressRivers options); simpl.
    + unfold depressRivers, forEach at 1. simpl.
      rewrite <- (depress_forEachFrom_is_Some parentMap inverse _ 0%nat (f_h f)).
      destruct (forEachFrom _ _ _ _) as [h2|]; simpl.
      * split; [intros _|intros _; by eexists]. repeat split; eauto. done.
      * split; [by intros [? ?]|]. intros (_ & _ & [? ?]); done.
    + split; [intros _|intros _; by eexists]. repeat split; eauto; done.
Qed.

(** ** Cell groups *)

Section Groups.
Context `{Env}.

Lemma landFrom_spec h p : ∀ k0 x y k,
  (x, y, k) ∈ landFrom h p k0
  ↔ (k0 ≤ k)%nat ∧ p !! (k - k0)%nat = Some (x, y) ∧ isWater h k = false.
Proof.
  induction p as [|[x0 y0] p IH]; intros k0 x y k; simpl.
  - split; [by intros ?%elem_of_nil|by intros (_ & ? & _)].
  - assert ((x, y, k) ∈ landFrom h p (S k0)
            ↔ (k0 < k)%nat ∧ (p !! (k - S k0)%nat = Some (x, y)) ∧ isWater h k = false)
      as IH' by (rewrite IH; split; intros (? & ? & ?); repeat split; try done; lia).
    assert (∀ P : Prop, ((k0 < k)%nat ∧ p !! (k - S k0)%nat = Some (x, y) ∧ P)
              ↔ ((k0 < k)%nat ∧ ((x0, y0) :: p) !! (k - k0)%nat = Some (x, y) ∧ P)) as Hshift.
    { intros P. split; intros (Hk & Hp & HP); repeat split; try done.
      - replace (k - k0)%nat with (S (k - S k0)) by lia. done.
      - replace (k - k0)%nat with (S (k - S k0)) in Hp by lia. done. }
    destruct (isWater h k0) eqn:Ew.
    + rewrite IH', Hshift. split.
      * intros (? & ? & ?). repeat split; try done. lia.
      * intros (Hk & Hp & Hw). repeat split; try done.
        destruct (decide (k = k0)) as [->|]; [congruence|lia].
    + rewrite elem_of_cons, IH', Hshift. split.
      * intros [[= -> -> ->]|(? & ? & ?)].
        -- rewrite Nat.sub_diag. done.
        -- repeat split; try done. lia.
      * intros (Hk & Hp & Hw). destruct (decide (k = k0)) as [->|Hne].
        -- left. rewrite Nat.sub_diag in Hp. simpl in Hp. by injection Hp as -> ->.
        -- right. repeat split; try done. lia.
Qed.

Lemma waterFrom_spec h p : ∀ k0 x y k,
  (x, y, k) ∈ waterFrom h p k0
  ↔ (k0 ≤ k)%nat ∧ p !! (k - k0)%nat = Some (x, y) ∧ isWater h k = true.
Proof.
  induction p as [|[x0 y0] p IH]; intros k0 x y k; simpl.
  - split; [by intros ?%elem_of_nil|by intros (_ & ? & _)].
  - assert ((x, y, k) ∈ waterFrom h p (S k0)
            ↔ (k0 < k)%nat ∧ (p !! (k - S k0)%nat = Some (x, y)) ∧ isWater h k = true)
      as IH' by (rewrite IH; split; intros (? & ? & ?); repeat split; try done; lia).
    assert (∀ P : Prop, ((k0 < k)%nat ∧ p !! (k - S k0)%nat = Some (x, y) ∧ P)
              ↔ ((k0 < k)%nat ∧ ((x0, y0) :: p) !! (k - k0)%nat = Some (x, y) ∧ P)) as Hshift.
    { intros P. split; intros (Hk & Hp & HP); repeat split; try done.
      - replace (k - k0)%nat with (S (k - S k0)) by lia. done.
      - replace (k - k0)%nat with (S (k - S k0)) in Hp by lia. done. }
    destruct (isWater h k0) eqn:Ew.
    + rewrite elem_of_cons, IH', Hshift. split.
      * intros [[= -> -> ->]|(? & ? & ?)].
        -- rewrite Nat.sub_diag. done.
        -- repeat split; try done. lia.
      * intros (Hk & Hp & Hw). destruct (decide (k = k0)) as [->|Hne].
        -- left. rewrite Nat.sub_diag in Hp. simpl in Hp. by injection Hp as -> ->.
        -- right. repeat split; try done. lia.
    + rewrite IH', Hshift. split.
      * intros (? & ? & ?). repeat split; try done. lia.
      * intros (Hk & Hp & Hw). repeat split; try done.
        destruct (decide (k = k0)) as [->|]; [congruence|lia].
Qed.

Lemma groups_length h p : ∀ k0,
  (length (landFrom h p k0) + length (waterFrom h p k0) = length p)%nat.
Proof.
  induction p as [|[x0 y0] p IH]; intros k0; simpl; [done|].
  specialize (IH (S k0)). destruct (isWater h k0); simpl; lia.
Qed.

End Groups.

(** [groupCellsByType] splits the cells in two: an entry [x, y, cellId] is
    in [land] exactly when [cellId] has the site [(x, y)] and is not water,
    in [water] exactly when it has that site and is water, and the two
    groups together have one entry for every site. *)
Theorem groupCellsByType_partitions (cells : Cells.t) :
  (∀ x y k, (x, y, k) ∈ groupCellsByType_land cells
            ↔ Cells.p cells !! k = Some (x, y) ∧ isWater (Cells.h cells) k = false)
  ∧ (∀ x y k, (x, y, k) ∈ groupCellsByType_water cells
            ↔ Cells.p cells !! k = Some (x, y) ∧ isWater (Cells.h cells) k = true)
  ∧ (length (groupCellsByType_land cells) + length (groupCellsByType_water cells)
     = length (Cells.p cells))%nat.
Proof.
  unfold groupCellsByType_land, groupCellsByType_water. split; [|split].
  - intros x y k. rewrite landFrom_spec, Nat.sub_0_r. split; [by intros (_ & ? & ?)|].
    intros [? ?]. repeat split; try done. lia.
  - intros x y k. rewrite waterFrom_spec, Nat.sub_0_r. split; [by intros (_ & ? & ?)|].
    intros [? ?]. repeat split; try done. lia.
  - apply groups_length.
Qed.

(** ** Per-cell overlays *)

Section Overlays.
Context `{Env}.
Variables (parentMap : ParentMap.t) (inverse : Q → Q → Point) (pack : Cells.t).

Local Abbreviation parentLand :=
  (groupCellsByType_land (Pack.cells (ParentMap.pack parentMap))).

Lemma restoreCell_spec o k o' n :
  overlaysSized o n →
  restoreCell parentMap inverse parentLand pack o k = Some o' →
  overlaysSized o' n ∧ o_burg o' = o_burg o
  ∧ (∀ j, j ≠ k → regionsAt o' j = regionsAt o j)
  ∧ is_Some (Cells.p pack !! k)
  ∧ (isWater (Cells.h pack) k = true → o' = o)
  ∧ (isWater (Cells.h pack) k = false →
     ∃ cell, matched parentMap inverse pack k = Some cell
       ∧ ((k < n)%nat → regionsAt o' k = Some (parentRegions parentMap cell))).
Proof.
  intros (L1 & L2 & L3 & L4 & L5). unfold restoreCell, matched.
  destruct (Cells.p pack !! k) as [pt|]; simpl; [|done].
  destruct (inverse pt.1 pt.2) as [x y]. simpl.
  destruct (isWater (Cells.h pack) k).
  { intros [= <-]. split; [done|]. split; [done|]. split; [done|]. split; [by eexists|]. by split. }
  destruct (quadtree_find parentLand x y) as [found|]; simpl; [|done].
  intros [= <-].
  split. { unfold overlaysSized. simpl. by rewrite !length_insert. }
  split; [done|]. split.
  { intros j Hj. unfold regionsAt. simpl. by rewrite !list_lookup_insert_ne by done. }
  split; [by eexists|]. split; [done|].
  intros _. exists found.2. split; [done|]. intros Hk. unfold regionsAt. simpl.
  by rewrite !list_lookup_insert_eq by lia.
Qed.

Lemma restore_forEachFrom ids : ∀ k0 o o' n,
  overlaysSized o n →
  forEachFrom (λ o newPackCell _, restoreCell parentMap inverse parentLand pack o newPackCell)
    ids k0 o = Some o' →
  overlaysSized o' n ∧ o_burg o' = o_burg o
  ∧ (∀ k, k ∉ ids ∨ isWater (Cells.h pack) k = true → regionsAt o' k = regionsAt o k)
  ∧ (∀ k, k ∈ ids → is_Some (Cells.p pack !! k))
  ∧ (∀ k, k ∈ ids → isWater (Cells.h pack) k = false →
       ∃ cell, matched parentMap inverse pack k = Some cell
         ∧ ((k < n)%nat → regionsAt o' k = Some (parentRegions parentMap cell))).
Proof.
  induction ids as [|id ids IH]; intros k0 o o' n Hn; simpl.
  - intros [= <-]. split; [done|]. split; [done|]. split; [done|].
    split; intros k Hk; by apply elem_of_nil in Hk.
  - destruct (restoreCell parentMap inverse parentLand pack o id) as [o1|] eqn:E1;
      simpl; [|done].
    intros Hrest.
    destruct (restoreCell_spec _ _ _ _ Hn E1) as (Hn1 & Hb1 & Hoth & Hp & Hwater & Hland).
    destruct (IH _ _ _ _ Hn1 Hrest) as (Hlen & Hb & Hout & Hps & Hin).
    split; [done|]. split; [congruence|]. split; [|split].
    + intros k Hk. rewrite Hout.
      * destruct (decide (k = id)) as [->|Hne]; [|by apply Hoth].
        destruct Hk as [Hk|Hk]; [exfalso; apply Hk; left|by rewrite (Hwater Hk)].
      * destruct Hk as [Hk|Hk]; [left|by right]. intros ?. apply Hk. by right.
    + intros k [->|Hk]%elem_of_cons; [done|by apply Hps].
    + intros k Hk Hw. destruct (decide (k ∈ ids)) as [Hin'|Hnin]; [by apply Hin|].
      apply elem_of_cons in Hk as [->|Hk]; [|done].
      destruct (Hland Hw) as (cell & Hm & Hat). exists cell. split; [done|].
      intros Hlt. rewrite Hout by (by left). by apply Hat.
Qed.

Lemma regionsAt_empty n k : (k < n)%nat → regionsAt (emptyOverlays n) k = Some (0, 0, 0, 0)%N.
Proof.
  intros Hk. unfold regionsAt, emptyOverlays. simpl.
  by rewrite !lookup_replicate_2 by done.
Qed.

Lemma restoreSecondaryCellData_spec o :
  restoreSecondaryCellData parentMap inverse pack = Some o →
  let n := length (Cells.i pack) in
  overlaysSized o n ∧ o_burg o = replicate n 0%N
  ∧ (∀ k, k ∈ Cells.i pack → is_Some (Cells.p pack !! k))
  ∧ (∀ k, (k < n)%nat → k ∉ Cells.i pack ∨ isWater (Cells.h pack) k = true →
       regionsAt o k = Some (0, 0, 0, 0)%N)
  ∧ (∀ k, (k < n)%nat → k ∈ Cells.i pack → isWater (Cells.h pack) k = false →
       ∃ cell, matched parentMap inverse pack k = Some cell ∧ regionsAt o k = Some (parentRegions parentMap cell)).
Proof.
  intros Hs. cbv zeta. set (n := length (Cells.i pack)).
  unfold restoreSecondaryCellData, forEach in Hs. fold n in Hs.
  assert (overlaysSized (emptyOverlays n) n) as Hn.
  { unfold overlaysSized, emptyOverlays. simpl. by rewrite !length_replicate. }
  destruct (restore_forEachFrom _ _ _ _ _ Hn Hs) as (Hlen & Hb & Hout & Hps & Hin).
  split; [done|]. split; [done|]. split; [done|]. split.
  - intros k Hk Hcase. rewrite Hout by done. by apply regionsAt_empty.
  - intros k Hk Hi Hw. destruct (Hin k Hi Hw) as (cell & Hm & Hat).
    exists cell. split; [done|by apply Hat].
Qed.

End Overlays.

(** [restoreSecondaryCellData] makes five overlay arrays of length
    [pack.cells.i.length]; [burg] is all 0; a cell that is water, or that
    [pack.cells.i] does not list, has culture, state, religion and province
    0; and a listed land cell has those of the parent land cell that the
    quadtree finds at its inverse projection. *)
Theorem restoreSecondaryCellData_assigns `{Env} (parentMap : ParentMap.t)
    (inverse : Q → Q → Point) (pack : Cells.t) (o : Overlays) :
  restoreSecondaryCellData parentMap inverse pack = Some o →
  let n := length (Cells.i pack) in
  overlaysSized o n ∧ o_burg o = replicate n 0%N
  ∧ (∀ k, (k < n)%nat → k ∉ Cells.i pack ∨ isWater (Cells.h pack) k = true →
       regionsAt o k = Some (0, 0, 0, 0)%N)
  ∧ (∀ k, (k < n)%nat → k ∈ Cells.i pack → isWater (Cells.h pack) k = false →
       ∃ cell, matched parentMap inverse pack k = Some cell
         ∧ regionsAt o k = Some (parentRegions parentMap cell)).
Proof.
  intros Hs. cbv zeta.
  destruct (restoreSecondaryCellData_spec _ _ _ _ Hs) as (? & ? & _ & ? & ?).
  split; [done|]. split; [done|]. by split.
Qed.

(** What [restoreSecondaryCellData] writes comes from the parent's land: a
    new cell whose culture, state, religion and province are not all 0 has
    those of a parent pack cell that is not water and has a site. The
    quadtree is to return an entry of its data. *)
Theorem restoreSecondaryCellData_takes_from_land `{Env} (parentMap : ParentMap.t)
    (inverse : Q → Q → Point) (pack : Cells.t) (o : Overlays) (k : nat)
    (regions : N * N * N * N) :
  (∀ data x y pt, quadtree_find data x y = Some pt → pt ∈ data) →
  restoreSecondaryCellData parentMap inverse pack = Some o →
  regionsAt o k = Some regions → regions ≠ (0, 0, 0, 0)%N →
  ∃ cell, isWater (Cells.h (Pack.cells (ParentMap.pack parentMap))) cell = false
    ∧ is_Some (Cells.p (Pack.cells (ParentMap.pack parentMap)) !! cell)
    ∧ regions = parentRegions parentMap cell.
Proof.
  intros Hfind Hs Hat Hne.
  destruct (restoreSecondaryCellData_spec _ _ _ _ Hs) as ((L1 & _) & _ & _ & Hzero & Hland).
  assert (k < length (Cells.i pack))%nat as Hk.
  { unfold regionsAt in Hat. destruct (o_culture o !! k) eqn:E; [|done].
    rewrite <- L1. by eapply lookup_lt_Some. }
  destruct (decide (k ∈ Cells.i pack)) as [Hin|Hnin].
  2:{ rewrite Hzero in Hat by auto. congruence. }
  destruct (isWater (Cells.h pack) k) eqn:Ew.
  { rewrite Hzero in Hat by auto. congruence. }
  destruct (Hland k Hk Hin Ew) as (cell & Hm & Hat'). rewrite Hat' in Hat.
  injection Hat as <-. exists cell. split; [|split; [|done]].
  - unfold matched in Hm. destruct (Cells.p pack !! k) as [pt|]; simpl in Hm; [|done].
    destruct (quadtree_find _ _ _) as [[[x y] c]|] eqn:Ef; simpl in Hm; [|done].
    injection Hm as ->. apply Hfind in Ef.
    apply landFrom_spec in Ef. apply Ef.
  - unfold matched in Hm. destruct (Cells.p pack !! k) as [pt|]; simpl in Hm; [|done].
    destruct (quadtree_find _ _ _) as [[[x y] c]|] eqn:Ef; simpl in Hm; [|done].
    injection Hm as ->. apply Hfind in Ef.
    apply landFrom_spec in Ef. destruct Ef as (_ & Hp & _).
    rewrite Nat.sub_0_r in Hp. by eexists.
Qed.

Section OverlaysMore.
Context `{Env}.
Variables (parentMap : ParentMap.t) (inverse : Q → Q → Point) (pack : Cells.t).

Local Abbreviation parentLand :=
  (groupCellsByType_land (Pack.cells (ParentMap.pack parentMap))).

Lemma restoreCell_is_Some o k :
  is_Some (restoreCell parentMap inverse parentLand pack o k) ↔ matchable parentMap inverse pack k.
Proof.
  unfold restoreCell, matchable, matched.
  destruct (Cells.p pack !! k) as [pt|]; simpl.
  2:{ split; [by intros [? ?]|by intros [[? ?] _]]. }
  destruct (inverse pt.1 pt.2) as [x y]. simpl.
  destruct (isWater (Cells.h pack) k).
  { split; [intros _; by split; [eexists|]|intros _; by eexists]. }
  destruct (quadtree_find parentLand x y) as [found|]; simpl.
  - split; [intros _; split; [by eexists|intros _; by eexists]|intros _; by eexists].
  - split; [by intros [? ?]|]. intros [_ Hm]. destruct (Hm eq_refl) as [? ?]. done.
Qed.

Lemma restore_forEachFrom_is_Some ids : ∀ k0 o,
  is_Some (forEachFrom
             (λ o newPackCell _, restoreCell parentMap inverse parentLand pack o newPackCell)
             ids k0 o)
  ↔ Forall (matchable parentMap inverse pack) ids.
Proof.
  induction ids as [|id ids IH]; intros k0 o; simpl.
  - split; [constructor|by eexists].
  - rewrite Forall_cons, <- (restoreCell_is_Some o id).
    destruct (restoreCell parentMap inverse parentLand pack o id) as [o1|]; simpl.
    + rewrite IH. split; [by split|by intros [_ ?]].
    + split; [by intros [? ?]|by intros [[? ?] _]].
Qed.

Lemma restoreSecondaryCellData_is_Some :
  is_Some (restoreSecondaryCellData parentMap inverse pack)
  ↔ Forall (matchable parentMap inverse pack) (Cells.i pack).
Proof. unfold restoreSecondaryCellData, forEach. apply restore_forEachFrom_is_Some. Qed.

End OverlaysMore.

(** [restoreSecondaryCellData] returns exactly when every cell listed in
    [pack.cells.i] has a site and, when it is land, the quadtree over the
    parent's land cells finds a cell for its inverse projection: spreading a
    missing site throws, and so does indexing [undefined] when the parent has
    no land cell. *)
Theorem restoreSecondaryCellData_returns_iff `{Env} (parentMap : ParentMap.t)
    (inverse : Q → Q → Point) (pack : Cells.t) :
  is_Some (restoreSecondaryCellData parentMap inverse pack)
  ↔ ∀ k, k ∈ Cells.i pack →
      is_Some (Cells.p pack !! k)
      ∧ (isWater (Cells.h pack) k = false →
         is_Some (matched parentMap inverse pack k)).
Proof. rewrite restoreSecondaryCellData_is_Some, Forall_forall. done. Qed.

Lemma square_sum_zero (a b : Q) : (a * a + b * b <= 0)%Q → (a == 0)%Q ∧ (b == 0)%Q.
Proof. intros Hs. split; nra. Qed.

(** Resampling a pack onto itself gives back its regions. When the new pack
    has the parent's sites and elevations, the inverse is the identity, the
    parent's sites are pairwise distinct and the quadtree returns an entry
    at the least distance, every land cell gets the culture, state, religion
    and province of the parent cell with its own index, and every water cell
    gets 0. *)
Theorem restoreSecondaryCellData_identity `{Env} (parentMap : ParentMap.t) (pack : Cells.t) :
  let parent := Pack.cells (ParentMap.pack parentMap) in
  let n := length (Cells.p parent) in
  (∀ data x y pt, quadtree_find data x y = Some pt →
     pt ∈ data ∧ ∀ q, q ∈ data → (dist2 x y pt <= dist2 x y q)%Q) →
  (∀ data x y, data ≠ [] → is_Some (quadtree_find data x y)) →
  (∀ j k pj pk, Cells.p parent !! j = Some pj → Cells.p parent !! k = Some pk →
     (pj.1 == pk.1)%Q → (pj.2 == pk.2)%Q → j = k) →
  Cells.p pack = Cells.p parent → Cells.h pack = Cells.h parent →
  Cells.i pack = seq 0 n →
  ∃ o, restoreSecondaryCellData parentMap identity pack = Some o
    ∧ ∀ k, (k < n)%nat →
        regionsAt o k
        = Some (if isWater (Cells.h parent) k then (0, 0, 0, 0)%N
                else parentRegions parentMap k).
Proof.
  intros parent n Hnear Hsome Hdist Hp Hh Hi. subst n parent.
  assert (∀ k, (k < length (Cells.p (Pack.cells (ParentMap.pack parentMap))))%nat →
            isWater (Cells.h (Pack.cells (ParentMap.pack parentMap))) k = false →
            matched parentMap identity pack k = Some k) as Hself.
  { intros k Hk Hw. unfold matched. rewrite Hp.
    destruct (lookup_lt_is_Some_2 _ k Hk) as [[x y] Hpt].
    unfold Point in *. rewrite Hpt. unfold identity. simpl.
    assert ((x, y, k) ∈ groupCellsByType_land (Pack.cells (ParentMap.pack parentMap))) as Hown.
    { apply landFrom_spec. rewrite Nat.sub_0_r. repeat split; [lia|done..]. }
    destruct (Hsome (groupCellsByType_land (Pack.cells (ParentMap.pack parentMap))) x y)
      as [[[fx fy] fk] Hf].
    { intros Hnil. rewrite Hnil in Hown. by apply elem_of_nil in Hown. }
    rewrite Hf. simpl. f_equal.
    destruct (Hnear _ _ _ _ Hf) as [Hin Hmin].
    specialize (Hmin _ Hown). unfold dist2 in Hmin. simpl in Hmin.
    assert ((fx - x) * (fx - x) + (fy - y) * (fy - y) <= 0)%Q as Hzero.
    { eapply Qle_trans; [exact Hmin|]. ring_simplify. apply Qle_refl. }
    apply square_sum_zero in Hzero as [Hx Hy].
    apply landFrom_spec in Hin as (_ & Hfp & _). rewrite Nat.sub_0_r in Hfp.
    apply (Hdist fk k (fx, fy) (x, y) Hfp Hpt); simpl; lra. }
  assert (is_Some (restoreSecondaryCellData parentMap identity pack)) as [o Ho].
  { apply restoreSecondaryCellData_is_Some. rewrite Hi. apply Forall_forall.
    intros k Hk%elem_of_seq. split.
    - rewrite Hp. apply lookup_lt_is_Some_2. lia.
    - rewrite Hh. intros Hw. rewrite Hself by (done || lia). by eexists. }
  exists o. split; [done|]. intros k Hk.
  destruct (restoreSecondaryCellData_spec _ _ _ _ Ho) as (_ & _ & _ & Hzero & Hland).
  rewrite Hi, length_seq in Hzero, Hland. rewrite Hh in Hzero, Hland.
  destruct (isWater (Cells.h (Pack.cells (ParentMap.pack parentMap))) k) eqn:Ew.
  - apply Hzero; [done|by right].
  - destruct (Hland k Hk) as (cell & Hm & Hat); [apply elem_of_seq; lia|done|].
    rewrite Hself in Hm by done. by injection Hm as <-.
Qed.

(** ** More on burgs *)

Section BurgsMore.
Context `{Env}.
Variables (land : list QuadPoint) (projection : Q → Q → Point) (options : Options.t).

Local Abbreviation step := (restoreBurg land projection options).
Local Abbreviation runFrom := (restoreBurgsFrom land projection options).

Lemma restoreBurgsFrom_agree cb bs :
  Forall (λ v, v = 0%N) cb →
  (∀ x y cell, snd <$> quadtree_find land x y = Some cell → (cell < length cb)%nat) →
  Forall (λ b, (Burg.i b < 65536)%N) bs →
  agree (runFrom (mkBurgsRun [] [] cb) bs).
Proof.
  intros Hzero Hrange. induction bs as [|b bs IH] using rev_ind; intros Hid.
  { split; simpl.
    - intros k b. by rewrite lookup_nil.
    - intros c v Hc Hv. pose proof (Forall_lookup_1 _ _ _ _ Hzero Hc). done. }
  apply Forall_app in Hid as [Hid Hb]. apply Forall_inv in Hb.
  specialize (IH Hid). destruct IH as [Hmark Hback].
  rewrite restoreBurgsFrom_snoc.
  set (r := runFrom (mkBurgsRun [] [] cb) bs) in *.
  assert (length (packCellsBurg r) = length cb) as Hlen
    by apply restoreBurgsFrom_cells_length.
  assert (∀ b', ¬ live b' →
            agree (mkBurgsRun (parentBurgs r ++ [parentBurg (step (packCellsBurg r) b)])
                     (packBurgs r ++ [b']) (packCellsBurg r))) as Hdead.
  { intros b' Hb'. split; simpl.
    - intros j b0 [[_ Hj]|[_ <-]]%lookup_snoc_Some Hl; [by eapply Hmark|done].
    - intros c v Hc Hv. destruct (Hback c v Hc Hv) as (k & b0 & Hk & ?).
      exists k, b0. split; [|done]. by apply lookup_app_l_Some. }
  destruct (restoreBurg_cases land projection options (packCellsBurg r) b)
    as [[Hnl Hs]|[[Hi Hr] [[Hs _]|(cell & Hin & Hf & Hc0 & Ht & Hs)]]]; simpl.
  - rewrite Hs in Hdead |- *. simpl. by apply Hdead.
  - rewrite Hs in Hdead |- *. simpl. apply Hdead. intros [_ ?]. done.
  - rewrite Hs. simpl.
    assert (cell < length (packCellsBurg r))%nat as Hcell.
    { rewrite Hlen. by eapply Hrange. }
    assert ((Burg.i b `mod` 65536)%N = Burg.i b) as Hid16 by (by apply N.mod_small).
    rewrite Hid16.
    assert (∀ j b0, packBurgs r !! j = Some b0 → live b0 → Burg.cell b0 ≠ cell) as Hfree.
    { intros j b0 Hj Hl Heq.
      destruct (restoreBurgsFrom_settled land projection options cb bs Hrange Hid)
        as [Htruthy _].
      rewrite <- Heq in Ht. fold r in Htruthy. rewrite (Htruthy j b0 Hj Hl) in Ht. done. }
    split; simpl.
    + intros j b0 [[_ Hj]|[_ <-]]%lookup_snoc_Some Hl.
      * rewrite list_lookup_insert_ne by (intros Heq; by eapply (Hfree j b0)).
        by eapply Hmark.
      * simpl. by rewrite list_lookup_insert_eq by done.
    + intros c v Hc Hv. destruct (decide (c = cell)) as [->|Hne].
      * rewrite list_lookup_insert_eq in Hc by done. injection Hc as <-.
        eexists (length (packBurgs r)), _. split; [by apply list_lookup_middle|].
        split; [split; [exact Hi|exact Hr]|]. by split.
      * rewrite list_lookup_insert_ne in Hc by done.
        destruct (Hback c v Hc Hv) as (k & b0 & Hk & ?).
        exists k, b0. split; [|done]. by apply lookup_app_l_Some.
Qed.

(** The run ends on [pack.cells.burg] as the last parent burg left it. *)
Lemma burgCellsAfter_all (parentMap : ParentMap.t) (pack : Cells.t) n :
  (length (Pack.burgs (ParentMap.pack parentMap)) ≤ n)%nat →
  burgCellsAfter parentMap projection options pack n
  = packCellsBurg (restoreBurgs parentMap projection options pack).
Proof. intros Hn. unfold burgCellsAfter, restoreBurgs. by rewrite take_ge. Qed.

End BurgsMore.

Section BurgsPlaced.
Context `{Env}.
Variables (land : list QuadPoint) (projection : Q → Q → Point) (options : Options.t).

Local Abbreviation runFrom := (restoreBurgsFrom land projection options).

(** A live element of [pack.burgs] is a live parent burg that was placed. *)
Lemma restoreBurgsFrom_live cb bs k b :
  packBurgs (runFrom (mkBurgsRun [] [] cb) bs) !! k = Some b → live b →
  ∃ burg cell, bs !! k = Some burg ∧ live burg
    ∧ isInMap (rn (projection (Burg.x burg) (Burg.y burg)).1 2)
              (rn (projection (Burg.x burg) (Burg.y burg)).2 2) = true
    ∧ snd <$> quadtree_find land (rn (projection (Burg.x burg) (Burg.y burg)).1 2)
                (rn (projection (Burg.x burg) (Burg.y burg)).2 2) = Some cell
    ∧ cell ≠ 0%nat
    ∧ b = Burg.place (Burg.scalePopulation burg (Options.scale options))
            (rn (projection (Burg.x burg) (Burg.y burg)).1 2)
            (rn (projection (Burg.x burg) (Burg.y burg)).2 2) cell.
Proof.
  intros Hk Hl.
  destruct (restoreBurgsFrom_length land projection options bs (mkBurgsRun [] [] cb))
    as [Hlen _]. simpl in Hlen.
  assert (k < length bs)%nat as Hlt by (rewrite <- Hlen; by eapply lookup_lt_Some).
  destruct (lookup_lt_is_Some_2 bs k Hlt) as [burg Hb].
  destruct (restoreBurgsFrom_lookup land projection options cb bs k burg Hb) as (Hnew & _).
  rewrite Hnew in Hk. injection Hk as Hk.
  destruct (restoreBurg_cases land projection options
              (packCellsBurg (runFrom (mkBurgsRun [] [] cb) (take k bs))) burg)
    as [[Hnl Hs]|[Hlive [[Hs _]|(cell & Hin & Hf & Hc0 & _ & Hs)]]];
    rewrite Hs in Hk; simpl in Hk; subst b.
  - done.
  - destruct Hl as [_ Hl]. done.
  - by exists burg, cell.
Qed.

(** Without a land cell nothing is written. *)
Lemma restoreBurgsFrom_no_land cb bs :
  (∀ x y, quadtree_find land x y = None) →
  packCellsBurg (runFrom (mkBurgsRun [] [] cb) bs) = cb.
Proof.
  intros Hnone. induction bs as [|b bs IH] using rev_ind; [done|].
  rewrite restoreBurgsFrom_snoc. simpl.
  destruct (restoreBurg_cases land projection options
              (packCellsBurg (runFrom (mkBurgsRun [] [] cb) bs)) b)
    as [[_ Hs]|[_ [[Hs _]|(cell & _ & Hf & _)]]].
  - by rewrite Hs.
  - by rewrite Hs.
  - by rewrite Hnone in Hf.
Qed.

End BurgsPlaced.

Lemma restoreBurgs_places_on_land_aux `{Env} (parentMap : ParentMap.t)
    (projection : Q → Q → Point) (options : Options.t) (pack : Cells.t)
    (k : nat) (b : Burg.t) :
  (∀ data x y pt, quadtree_find data x y = Some pt → pt ∈ data) →
  packBurgs (restoreBurgs parentMap projection options pack) !! k = Some b →
  Burg.i b ≠ 0%N → Burg.removed b = false →
  Burg.cell b ≠ 0%nat
  ∧ isWater (Cells.h pack) (Burg.cell b) = false
  ∧ is_Some (Cells.p pack !! Burg.cell b).
Proof.
  intros Hfind Hk Hi Hr.
  destruct (restoreBurgsFrom_live _ _ _ _ _ _ _ Hk (conj Hi Hr))
    as (burg & cell & Hb & [Hbi Hbr] & Hin & Hf & Hc0 & ->).
  simpl. split; [done|].
  destruct (quadtree_find _ _ _) as [[[x y] c]|] eqn:Ef; simpl in Hf; [|done].
  injection Hf as ->. apply Hfind in Ef.
  apply landFrom_spec in Ef. destruct Ef as (_ & Hp & Hw).
  rewrite Nat.sub_0_r in Hp. split; [done|by eexists].
Qed.

(** A burg that survives [restoreBurgs] is a parent burg with an index other
    than 0 that was not removed; it sits at its projected site rounded to 2
    decimals, which is in the map, on the land cell of the new pack that the
    quadtree finds there, never cell 0; its population is scaled. *)
Theorem restoreBurgs_places_on_land `{Env} (parentMap : ParentMap.t)
    (projection : Q → Q → Point) (options : Options.t) (pack : Cells.t)
    (k : nat) (b : Burg.t) :
  (∀ data x y pt, quadtree_find data x y = Some pt → pt ∈ data) →
  packBurgs (restoreBurgs parentMap projection options pack) !! k = Some b →
  Burg.i b ≠ 0%N → Burg.removed b = false →
  ∃ burg, Pack.burgs (ParentMap.pack parentMap) !! k = Some burg
    ∧ Burg.i burg ≠ 0%N ∧ Burg.removed burg = false
    ∧ b = Burg.place (Burg.scalePopulation burg (Options.scale options))
            (rn (projection (Burg.x burg) (Burg.y burg)).1 2)
            (rn (projection (Burg.x burg) (Burg.y burg)).2 2) (Burg.cell b)
    ∧ isInMap (Burg.x b) (Burg.y b) = true
    ∧ snd <$> quadtree_find (groupCellsByType_land pack) (Burg.x b) (Burg.y b)
      = Some (Burg.cell b)
    ∧ Burg.cell b ≠ 0%nat
    ∧ isWater (Cells.h pack) (Burg.cell b) = false
    ∧ is_Some (Cells.p pack !! Burg.cell b).
Proof.
  intros Hfind Hk Hi Hr.
  destruct (restoreBurgsFrom_live _ _ _ _ _ _ _ Hk (conj Hi Hr))
    as (burg & cell & Hb & [Hbi Hbr] & Hin & Hf & Hc0 & ->).
  exists burg. simpl. repeat split; try done.
  - destruct (quadtree_find _ _ _) as [[[x y] c]|] eqn:Ef; simpl in Hf; [|done].
    injection Hf as ->. apply Hfind in Ef.
    apply landFrom_spec in Ef. apply Ef.
  - destruct (quadtree_find _ _ _) as [[[x y] c]|] eqn:Ef; simpl in Hf; [|done].
    injection Hf as ->. apply Hfind in Ef.
    apply landFrom_spec in Ef. destruct Ef as (_ & Hp & _).
    rewrite Nat.sub_0_r in Hp. by eexists.
Qed.

(** On a new pack whose cells are all water no burg survives and
    [pack.cells.burg] is left as it was. *)
Theorem restoreBurgs_without_land `{Env} (parentMap : ParentMap.t)
    (projection : Q → Q → Point) (options : Options.t) (pack : Cells.t) :
  (∀ data x y pt, quadtree_find data x y = Some pt → pt ∈ data) →
  (∀ k, (k < length (Cells.p pack))%nat → isWater (Cells.h pack) k = true) →
  let run := restoreBurgs parentMap projection options pack in
  packCellsBurg run = Cells.burg pack
  ∧ length (packBurgs run) = length (Pack.burgs (ParentMap.pack parentMap))
  ∧ ∀ k b, packBurgs run !! k = Some b → Burg.i b = 0%N ∨ Burg.removed b = true.
Proof.
  intros Hfind Hwater run.
  assert (∀ x y, quadtree_find (groupCellsByType_land pack) x y = None) as Hnone.
  { intros x y. destruct (quadtree_find _ x y) as [[[x' y'] c]|] eqn:Ef; [|done].
    apply Hfind in Ef. apply landFrom_spec in Ef. destruct Ef as (_ & Hp & Hw).
    rewrite Nat.sub_0_r in Hp. apply lookup_lt_Some in Hp.
    rewrite Hwater in Hw by done. done. }
  split; [by apply restoreBurgsFrom_no_land|]. split.
  - subst run. unfold restoreBurgs.
    by destruct (restoreBurgsFrom_length (groupCellsByType_land pack) projection options
                   (Pack.burgs (ParentMap.pack parentMap))
                   (mkBurgsRun [] [] (Cells.burg pack))) as [-> _].
  - intros k b Hk.
    destruct (N.eq_dec (Burg.i b) 0%N) as [|Hi]; [by left|].
    destruct (Burg.removed b) eqn:Hr; [by right|]. exfalso.
    destruct (restoreBurgsFrom_live _ _ _ _ _ _ _ Hk (conj Hi Hr))
      as (burg & cell & _ & _ & _ & Hf & _).
    by rewrite Hnone in Hf.
Qed.

(** After [restoreSecondaryCellData] and [restoreBurgs] have run in the
    order of [resample], [pack.cells.burg] and [pack.burgs] agree: the array
    has the length of [pack.cells.i]; every burg with an index other than 0
    that is not removed has its index written on its cell; and every cell
    that holds an index other than 0 holds the index of a burg of
    [pack.burgs] that is not removed and sits on that cell. The burg indices
    are to fit the [Uint16Array] and the land cells to lie within it. *)
Theorem restore_burgs_match_cells `{Env} (parentMap : ParentMap.t)
    (options : Options.t) (pack : Cells.t) (r : Restored) :
  (∀ data x y pt, quadtree_find data x y = Some pt → pt ∈ data) →
  (length (Cells.p pack) ≤ length (Cells.i pack))%nat →
  Forall (λ b, (Burg.i b < 65536)%N) (Pack.burgs (ParentMap.pack parentMap)) →
  restore parentMap options pack = Some r →
  length (packCellsBurg (r_burgs r)) = length (Cells.i pack)
  ∧ (∀ k b, packBurgs (r_burgs r) !! k = Some b →
       Burg.i b ≠ 0%N → Burg.removed b = false →
       packCellsBurg (r_burgs r) !! Burg.cell b = Some (Burg.i b))
  ∧ (∀ c v, packCellsBurg (r_burgs r) !! c = Some v → v ≠ 0%N →
       ∃ k b, packBurgs (r_burgs r) !! k = Some b
         ∧ Burg.i b = v ∧ Burg.removed b = false ∧ Burg.cell b = c).
Proof.
  intros Hfind Hlen Hid Hr. unfold restore in Hr.
  destruct (restoreSecondaryCellData _ _ _) as [o|] eqn:Eo; [|done]. simpl in Hr.
  destruct (restoreSecondaryCellData_spec _ _ _ _ Eo) as (_ & Hb & _).
  destruct (restoreCultures _ _ _) as [cultures|]; [|done]. simpl in Hr.
  destruct (restoreStates _ _ _ _) as [states|]; [|done]. simpl in Hr.
  destruct (restoreReligions _ _ _) as [religions|]; [|done]. simpl in Hr.
  destruct (restoreProvinces _ _ _) as [provinces|]; [|done]. simpl in Hr.
  destruct (restoreZones _ _ _) as [zones|]; [|done]. simpl in Hr.
  injection Hr as <-. simpl.
  unfold restoreBurgs. simpl. rewrite Hb.
  set (n := length (Cells.i pack)).
  assert (∀ x y cell,
            snd <$> quadtree_find (groupCellsByType_land (withOverlays pack o)) x y
            = Some cell → (cell < length (replicate n 0%N))%nat) as Hrange.
  { intros x y cell Hf. rewrite length_replicate.
    destruct (quadtree_find _ x y) as [[[x' y'] c]|] eqn:Ef; simpl in Hf; [|done].
    injection Hf as ->. apply Hfind in Ef. apply landFrom_spec in Ef.
    destruct Ef as (_ & Hp & _). rewrite Nat.sub_0_r in Hp.
    apply lookup_lt_Some in Hp. simpl in Hp. unfold n, Point in *. lia. }
  destruct (restoreBurgsFrom_agree (groupCellsByType_land (withOverlays pack o))
              (Options.projection options) options (replicate n 0%N)
              (Pack.burgs (ParentMap.pack parentMap)))
    as [Hmark Hback]; [by apply Forall_replicate|exact Hrange|exact Hid|].
  split; [rewrite restoreBurgsFrom_cells_length; simpl; by rewrite length_replicate|]. split.
  - intros k b Hk Hi Hrem. by eapply Hmark.
  - intros c v Hc Hv. destruct (Hback c v Hc Hv) as (k & b & Hk & [_ Hl] & Hcell & Hi).
    by exists k, b.
Qed.

(** Cell 0 cannot hold a burg: a parent burg with an index other than 0 that
    is not removed and whose rounded projected site snaps to the land cell 0,
    or to no cell at all, is returned with [removed = true] and
    [lock = false] under the same index, and visiting it writes nothing to
    [pack.cells.burg]. *)
Theorem restoreBurgs_cell_zero_is_no_cell `{Env} (parentMap : ParentMap.t)
    (projection : Q → Q → Point) (options : Options.t) (pack : Cells.t)
    (k : nat) (burg : Burg.t) :
  Pack.burgs (ParentMap.pack parentMap) !! k = Some burg →
  Burg.i burg ≠ 0%N → Burg.removed burg = false →
  (let pt := projection (Burg.x burg) (Burg.y burg) in
   let found := snd <$> quadtree_find (groupCellsByType_land pack)
                          (rn pt.1 2) (rn pt.2 2) in
   found = Some 0%nat ∨ found = None) →
  ∃ burg', packBurgs (restoreBurgs parentMap projection options pack) !! k = Some burg'
    ∧ Burg.i burg' = Burg.i burg
    ∧ Burg.removed burg' = true ∧ Burg.lock burg' = false
    ∧ burgCellsAfter parentMap projection options pack (S k)
      = burgCellsAfter parentMap projection options pack k.
Proof.
  intros Hb Hi Hr Hzero.
  destruct (restoreBurgs_lookup parentMap projection options pack k burg Hb)
    as (Hnew & _ & Hcells).
  rewrite Hnew, Hcells.
  destruct (restoreBurg_cases (groupCellsByType_land pack) projection options
              (burgCellsAfter parentMap projection options pack k) burg)
    as [[Hnl _]|[_ [[-> _]|(cell & _ & Hf & Hc0 & _)]]].
  - exfalso. apply Hnl. by split.
  - eexists. split; [done|]. by simpl.
  - simpl in Hzero. destruct Hzero as [Hz|Hz]; rewrite Hz in Hf; congruence.
Qed.

(** ** More on markers and zones *)

Section MarkersMore.
Context `{Env}.
Variables (projection : Q → Q → Point).

Lemma restoreMarker_packMarkers run ref :
  (∀ marker, objects run !! ref = Some marker → lands projection marker) →
  packMarkers (restoreMarker projection run ref) = packMarkers run.
Proof.
  intros Hin. unfold restoreMarker.
  destruct (objects run !! ref) as [marker|] eqn:Em; [|done].
  specialize (Hin marker eq_refl). unfold lands in Hin.
  destruct (projection (Marker.x marker) (Marker.y marker)) as [x y]. simpl in *.
  by rewrite Hin.
Qed.

Lemma restoreMarkers_packMarkers markers refs n :
  Forall (lands projection) markers →
  packMarkers (foldl (restoreMarker projection) (mkMarkersRun markers refs) (seq 0 n))
  = refs.
Proof.
  intros Hall. induction n as [|n IH]; [done|].
  rewrite seq_S, foldl_app. simpl. rewrite restoreMarker_packMarkers; [done|].
  intros marker Hm. rewrite restoreMarkers_prefix in Hm.
  rewrite decide_False in Hm by lia.
  eapply (Forall_lookup_1 _ _ _ _ Hall Hm).
Qed.

End MarkersMore.

(** When every parent marker is projected into the map, [pack.markers] keeps
    all of them, in the parent's order, each moved to its projected site
    rounded to 2 decimals and to the new cell found at the projected site. *)
Theorem restoreMarkers_keeps_markers_in_map `{Env} (parentMap : ParentMap.t)
    (projection : Q → Q → Point) :
  Forall (lands projection) (Pack.markers (ParentMap.pack parentMap)) →
  let run := restoreMarkers parentMap projection in
  packMarkers run = seq 0 (length (Pack.markers (ParentMap.pack parentMap)))
  ∧ ∀ k, (k < length (Pack.markers (ParentMap.pack parentMap)))%nat →
      ∃ ref marker, packMarkers run !! k = Some ref
        ∧ Pack.markers (ParentMap.pack parentMap) !! k = Some marker
        ∧ objects run !! ref = Some (moved projection marker).
Proof.
  intros Hall run.
  assert (packMarkers run = seq 0 (length (Pack.markers (ParentMap.pack parentMap))))
    as Hrefs by (by apply restoreMarkers_packMarkers).
  split; [done|]. intros k Hk.
  destruct (lookup_lt_is_Some_2 _ k Hk) as [marker Hm].
  exists k, marker. rewrite Hrefs. split; [by apply lookup_seq_lt|]. split; [done|].
  unfold run. rewrite restoreMarkers_objects, list_lookup_fmap, Hm. done.
Qed.

Section ZonesMore.
Context `{Env}.
Variables (parentMap : ParentMap.t) (projection : Q → Q → Point) (options : Options.t).

Lemma zoneMember_is_Some cellId :
  is_Some (zoneMember parentMap projection options cellId)
  ↔ (cellId < length (Cells.p (Pack.cells (ParentMap.pack parentMap))))%nat.
Proof.
  unfold zoneMember. rewrite <- lookup_lt_is_Some.
  destruct (Cells.p (Pack.cells (ParentMap.pack parentMap)) !! cellId) as [pt|]; simpl.
  - destruct (projection pt.1 pt.2) as [x y].
    destruct (isInMap x y); simpl; split; intros _; by eexists.
  - split; intros [? ?]; done.
Qed.

Lemma restoreZone_is_Some zone :
  is_Some (restoreZone parentMap projection options zone)
  ↔ Forall (λ cellId,
       (cellId < length (Cells.p (Pack.cells (ParentMap.pack parentMap))))%nat)
      (Zone.cells zone).
Proof.
  unfold restoreZone.
  assert (is_Some (mapM (zoneMember parentMap projection options) (Zone.cells zone))
          ↔ Forall (λ cellId,
               (cellId < length (Cells.p (Pack.cells (ParentMap.pack parentMap))))%nat)
              (Zone.cells zone)) as <-.
  { rewrite mapM_is_Some. apply Forall_iff. intros c. apply zoneMember_is_Some. }
  destruct (mapM _ _) as [found|]; simpl; split; intros [? ?]; try done; by eexists.
Qed.

Lemma restoreZones_is_Some :
  is_Some (restoreZones parentMap projection options)
  ↔ Forall (λ zone, Forall (λ cellId,
       (cellId < length (Cells.p (Pack.cells (ParentMap.pack parentMap))))%nat)
      (Zone.cells zone)) (Pack.zones (ParentMap.pack parentMap)).
Proof.
  unfold restoreZones. rewrite mapM_is_Some. apply Forall_iff. intros zone.
  apply restoreZone_is_Some.
Qed.

End ZonesMore.

(** [restoreZones] returns exactly when every member of every parent zone is
    a cell of the parent pack; a member without a site makes it throw. *)
Theorem restoreZones_returns_iff `{Env} (parentMap : ParentMap.t)
    (projection : Q → Q → Point) (options : Options.t) :
  is_Some (restoreZones parentMap projection options)
  ↔ ∀ zone cellId, zone ∈ Pack.zones (ParentMap.pack parentMap) →
      cellId ∈ Zone.cells zone →
      (cellId < length (Cells.p (Pack.cells (ParentMap.pack parentMap))))%nat.
Proof.
  rewrite restoreZones_is_Some, Forall_forall.
  split.
  - intros Hz zone cellId Hzone Hc. specialize (Hz zone Hzone).
    rewrite Forall_forall in Hz. by apply Hz.
  - intros Hz zone Hzone. apply Forall_forall. intros cellId Hc. by eapply Hz.
Qed.

(** ** More on states and provinces *)

Section StatesMore.
Context `{Env}.
Variables (parentMap : ParentMap.t) (projection : Q → Q → Point).

Lemma restoreRegiment_stationed regiment regiment' :
  restoreRegiment parentMap projection regiment = Some regiment' →
  stationed parentMap projection regiment regiment'.
Proof.
  unfold restoreRegiment, stationed.
  destruct (Regiment.cell regiment) as [c|]; [|done]. simpl.
  destruct (Cells.p (Pack.cells (ParentMap.pack parentMap)) !! c) as [pt|] eqn:Ep;
    [|done].
  simpl. intros Hr. exists c, pt. split; [done|]. split; [done|].
  destruct (projection pt.1 pt.2) as [px py].
  destruct (projection (Regiment.bx regiment) (Regiment.by_ regiment)) as [xb yb].
  destruct (projection (Regiment.x regiment) (Regiment.y regiment)) as [xc yc].
  by injection Hr as <-.
Qed.

Lemma filter_has (cells : list N) (ids : list N) :
  filter (λ stateId, has (list_to_set cells) stateId = true) ids
  = filter (λ stateId, stateId ∈ cells) ids.
Proof.
  apply list_filter_iff. intros id. unfold has.
  by rewrite bool_decide_eq_true, elem_of_list_to_set.
Qed.

Lemma restoreState_forces cells x y :
  restoreState parentMap projection cells x = Some y →
  (State.i x = 0%N ∨ State.removed x = true ∨ ¬ present cells (State.i x) →
     State.neighbors y = State.neighbors x ∧ State.military y = State.military x)
  ∧ (State.i x ≠ 0%N → State.removed x = false → present cells (State.i x) →
     State.neighbors y = filter (λ stateId, stateId ∈ cells) (State.neighbors x)
     ∧ Forall2 (stationed parentMap projection) (State.military x) (State.military y)).
Proof.
  unfold restoreState. simpl.
  destruct (State.i x =? 0)%N eqn:Ei; simpl.
  { intros [= <-]. apply N.eqb_eq in Ei. split; [done|]. intros; done. }
  apply N.eqb_neq in Ei.
  destruct (State.removed x) eqn:Er; simpl.
  { intros [= <-]. split; [done|]. intros; done. }
  destruct (has (list_to_set cells) (State.i x)) eqn:Eh; simpl.
  - apply has_present in Eh.
    destruct (mapM _ _) as [military|] eqn:Em; [|done]. simpl. intros [= <-]. simpl.
    split; [intros [?|[?|?]]; done|]. intros _ _ _. split; [apply filter_has|].
    apply mapM_Some in Em. eapply Forall2_impl; [exact Em|].
    apply restoreRegiment_stationed.
  - apply has_absent in Eh. intros [= <-]. simpl. split; [done|]. intros; done.
Qed.

Lemma recenterState_forces burgs x y :
  recenterState burgs x = Some y →
  State.neighbors y = State.neighbors x ∧ State.military y = State.military x
  ∧ State.name y = State.name x ∧ State.fullName y = State.fullName x.
Proof.
  unfold recenterState. intros Hy.
  repeat (case_match; simplify_option_eq); simplify_option_eq; by repeat split.
Qed.

Lemma restoreStates_forces cells burgs states' :
  restoreStates parentMap projection cells burgs = Some states' →
  Forall2 (λ x z,
    (State.i x = 0%N ∨ State.removed x = true ∨ ¬ present cells (State.i x) →
       State.neighbors z = State.neighbors x ∧ State.military z = State.military x)
    ∧ (State.i x ≠ 0%N → State.removed x = false → present cells (State.i x) →
       State.neighbors z = filter (λ stateId, stateId ∈ cells) (State.neighbors x)
       ∧ Forall2 (stationed parentMap projection) (State.military x) (State.military z)))
    (Pack.states (ParentMap.pack parentMap)) states'.
Proof.
  unfold restoreStates.
  destruct (mapM _ _) as [states|] eqn:E1; [|done]. simpl.
  intros E2. apply mapM_Some in E1, E2. unfold BurgsAndStates_getPoles in E2.
  apply Forall2_fmap_l in E2.
  eapply (Forall2_trans _ _ _ _ _ _ _ E1 E2).
  Unshelve. intros x y z Hxy Hyz. simpl in *.
  apply restoreState_forces in Hxy.
  destruct (recenterState_forces _ _ _ Hyz) as (-> & -> & _). simpl. exact Hxy.
Qed.

(** The centre of a province that passes the guard. *)
Lemma recenterProvince_center burgs x s :
  recenterProvince burgs x = Some s →
  Province.i s ≠ 0%N → Province.removed s = false →
  ∃ capital, burgs !! N.to_nat (Province.burg x) = Some capital
    ∧ (Burg.removed capital = false → Province.center s = Some (Burg.cell capital))
    ∧ (Burg.removed capital = true →
       ∃ pole, Province.pole x = Some pole
         ∧ Province.center s = findCell pole.1 pole.2).
Proof.
  intros Hs Hi Hr. destruct (recenterProvince_keeps _ _ _ Hs) as (Ei & Er & _).
  unfold recenterProvince in Hs. rewrite Ei in Hi. rewrite Er in Hr.
  apply N.eqb_neq in Hi. rewrite Hi, Hr in Hs. simpl in Hs.
  destruct (burgs !! N.to_nat (Province.burg x)) as [capital|]; [|done].
  exists capital. split; [done|].
  destruct (Burg.removed capital); simpl in Hs.
  - split; [done|]. intros _.
    destruct (Province.pole x) as [pole|]; [|done]. simpl in Hs. injection Hs as <-.
    by exists pole.
  - injection Hs as <-. split; [done|]. done.
Qed.

Lemma recenterProvince_burg burgs x s :
  recenterProvince burgs x = Some s →
  Province.burg s = Province.burg x ∧ Province.name s = Province.name x
  ∧ Province.fullName s = Province.fullName x ∧ Province.pole s = Province.pole x.
Proof.
  unfold recenterProvince. intros Hy.
  repeat (case_match; simplify_option_eq); simplify_option_eq; by repeat split.
Qed.

Lemma restoreProvince_burg cells x :
  Province.burg (restoreProvince cells x) = Province.burg x
  ∧ Province.i (restoreProvince cells x) = Province.i x
  ∧ Province.name (restoreProvince cells x) = Province.name x.
Proof. unfold restoreProvince. by repeat case_match. Qed.

Lemma restoreProvinces_center cells burgs provinces' k province' :
  restoreProvinces parentMap cells burgs = Some provinces' →
  provinces' !! k = Some province' →
  Province.i province' ≠ 0%N → Province.removed province' = false →
  ∃ province capital,
    Pack.provinces (ParentMap.pack parentMap) !! k = Some province
    ∧ Province.i province' = Province.i province
    ∧ Province.burg province' = Province.burg province
    ∧ burgs !! N.to_nat (Province.burg province) = Some capital
    ∧ (Burg.removed capital = false →
       Province.center province' = Some (Burg.cell capital))
    ∧ (Burg.removed capital = true →
       ∃ pole, Province.pole province' = Some pole
         ∧ Province.center province' = findCell pole.1 pole.2).
Proof.
  unfold restoreProvinces. intros E2 Hk Hi Hr. apply mapM_Some in E2.
  unfold Provinces_getPoles in E2. rewrite <- list_fmap_compose in E2.
  apply Forall2_fmap_l in E2.
  destruct (Forall2_lookup_r _ _ _ _ _ E2 Hk) as (x & Hx & Hz). simpl in Hz.
  destruct (recenterProvince_center _ _ _ Hz Hi Hr) as (capital & Hcap & Hlive & Hgone).
  destruct (recenterProvince_keeps _ _ _ Hz) as (Ei & _).
  destruct (recenterProvince_burg _ _ _ Hz) as (Eb & _ & _ & Ep).
  destruct (restoreProvince_burg cells x) as (Eb' & Ei' & _).
  simpl in *. exists x, capital. rewrite Eb' in Hcap, Eb. rewrite Ei' in Ei.
  repeat split; try done.
  intros Hrem. destruct (Hgone Hrem) as (pole & Hpole & Hcenter).
  exists pole. rewrite Ep. done.
Qed.

End StatesMore.

(** A state that [restoreStates] keeps (index other than 0, not removed, on
    some new cell) loses the neighbours that are on no new cell, the others
    staying in order, and has every regiment moved: to the new cell found at
    the projected site of its parent cell, base and position projected and
    rounded to 2 decimals. Any other state keeps neighbours and regiments. *)
Theorem restoreStates_neighbors_and_military `{Env} (parentMap : ParentMap.t)
    (projection : Q → Q → Point) (cells_state : list N) (burgs : list Burg.t)
    (states' : list State.t) (k : nat) (state state' : State.t) :
  restoreStates parentMap projection cells_state burgs = Some states' →
  Pack.states (ParentMap.pack parentMap) !! k = Some state →
  states' !! k = Some state' →
  (State.i state = 0%N ∨ State.removed state = true
   ∨ ¬ present cells_state (State.i state) →
     State.neighbors state' = State.neighbors state
     ∧ State.military state' = State.military state)
  ∧ (State.i state ≠ 0%N → State.removed state = false →
     present cells_state (State.i state) →
     State.neighbors state'
     = filter (λ stateId, stateId ∈ cells_state) (State.neighbors state)
     ∧ Forall2 (stationed parentMap projection)
         (State.military state) (State.military state')).
Proof.
  intros Hs Hk Hk'. apply restoreStates_forces in Hs.
  apply (Forall2_lookup_lr _ _ _ _ _ _ Hs Hk Hk').
Qed.

(** Whenever [restoreProvinces] returns, every returned province with an
    index other than 0 that is not removed has its capital burg in
    [pack.burgs]; its centre is the capital's cell when the capital is not
    removed, and otherwise the cell that [findCell] gives for the pole that
    the province carries. A province keeps its index and its burg index. *)
Theorem restoreProvinces_center_from_capital_or_pole `{Env} (parentMap : ParentMap.t)
    (cells_province : list N) (burgs : list Burg.t)
    (provinces' : list Province.t) (k : nat) (province' : Province.t) :
  restoreProvinces parentMap cells_province burgs = Some provinces' →
  provinces' !! k = Some province' →
  Province.i province' ≠ 0%N → Province.removed province' = false →
  ∃ province capital,
    Pack.provinces (ParentMap.pack parentMap) !! k = Some province
    ∧ Province.i province' = Province.i province
    ∧ Province.burg province' = Province.burg province
    ∧ burgs !! N.to_nat (Province.burg province) = Some capital
    ∧ (Burg.removed capital = false →
       Province.center province' = Some (Burg.cell capital))
    ∧ (Burg.removed capital = true →
       ∃ pole, Province.pole province' = Some pole
         ∧ Province.center province' = findCell pole.1 pole.2).
Proof. apply restoreProvinces_center. Qed.

(** ** Recentering of cultures and religions *)

Section Recentering.
Context `{Env}.
Variables (parentMap : ParentMap.t) (projection : Q → Q → Point).


Lemma recenter_is_Some poles id center :
  is_Some (recenter parentMap projection poles id center)
  ↔ recenterable parentMap projection poles id center.
Proof.
  unfold recenter, recenterable. split.
  - intros [center' Hr].
    destruct center as [c|]; [|done]. simpl in Hr.
    destruct (Cells.p (Pack.cells (ParentMap.pack parentMap)) !! c) as [pt|] eqn:Ep;
      [|done].
    simpl in Hr. exists c, pt. split; [done|]. split; [done|].
    destruct (projection pt.1 pt.2) as [xp yp]. simpl.
    destruct (isInMap (rn xp 2) (rn yp 2)); [by left|]. right.
    destruct (poles id) as [pole|]; [by eexists|done].
  - intros (c & pt & -> & Hp & Hcase). simpl. rewrite Hp. simpl.
    destruct (projection pt.1 pt.2) as [xp yp]. simpl in *.
    destruct (isInMap (rn xp 2) (rn yp 2)); [by eexists|].
    destruct Hcase as [?|[pole ->]]; [done|]. by eexists.
Qed.



Lemma restoreCulture_is_Some cells x :
  is_Some (restoreCulture parentMap projection cells x)
  ↔ (Culture.i x ≠ 0%N → Culture.removed x = false → present cells (Culture.i x) →
     recenterable parentMap projection (getPolesOfInaccessibility cells) (Culture.i x) (Culture.center x)).
Proof.
  unfold restoreCulture. simpl.
  destruct (Culture.i x =? 0)%N eqn:Ei; simpl.
  { apply N.eqb_eq in Ei. split; [done|]. intros _. by eexists. }
  apply N.eqb_neq in Ei.
  destruct (Culture.removed x) eqn:Er; simpl.
  { split; [done|]. intros _. by eexists. }
  destruct (has (list_to_set cells) (Culture.i x)) eqn:Eh; simpl.
  - apply has_present in Eh. rewrite <- recenter_is_Some.
    destruct (recenter _ _ _ _ _) as [center'|]; simpl.
    + split; intros; by eexists.
    + split; [by intros [? ?]|]. intros Hx. by destruct (Hx Ei eq_refl Eh).
  - apply has_absent in Eh. split; [done|]. intros _. by eexists.
Qed.

Lemma restoreReligion_is_Some cells x :
  is_Some (restoreReligion parentMap projection cells x)
  ↔ (Religion.i x ≠ 0%N → Religion.removed x = false → present cells (Religion.i x) →
     recenterable parentMap projection (getPolesOfInaccessibility cells) (Religion.i x) (Religion.center x)).
Proof.
  unfold restoreReligion. simpl.
  destruct (Religion.i x =? 0)%N eqn:Ei; simpl.
  { apply N.eqb_eq in Ei. split; [done|]. intros _. by eexists. }
  apply N.eqb_neq in Ei.
  destruct (Religion.removed x) eqn:Er; simpl.
  { split; [done|]. intros _. by eexists. }
  destruct (has (list_to_set cells) (Religion.i x)) eqn:Eh; simpl.
  - apply has_present in Eh. rewrite <- recenter_is_Some.
    destruct (recenter _ _ _ _ _) as [center'|]; simpl.
    + split; intros; by eexists.
    + split; [by intros [? ?]|]. intros Hx. by destruct (Hx Ei eq_refl Eh).
  - apply has_absent in Eh. split; [done|]. intros _. by eexists.
Qed.

End Recentering.


(** [restoreCultures] and [restoreReligions] return exactly when every kept
    entity can be recentered: its centre is a cell of the parent pack, and
    its projected site is in the map or the pole helper has a pole for it.
    Otherwise spreading [undefined] throws. *)
Theorem restoreCultures_restoreReligions_return_iff `{Env} (parentMap : ParentMap.t)
    (projection : Q → Q → Point) (cells : list N) :
  (is_Some (restoreCultures parentMap projection cells)
   ↔ ∀ culture, culture ∈ Pack.cultures (ParentMap.pack parentMap) →
       Culture.i culture ≠ 0%N → Culture.removed culture = false →
       present cells (Culture.i culture) →
       recenterable parentMap projection (getPolesOfInaccessibility cells)
         (Culture.i culture) (Culture.center culture))
  ∧ (is_Some (restoreReligions parentMap projection cells)
   ↔ ∀ religion, religion ∈ Pack.religions (ParentMap.pack parentMap) →
       Religion.i religion ≠ 0%N → Religion.removed religion = false →
       present cells (Religion.i religion) →
       recenterable parentMap projection (getPolesOfInaccessibility cells)
         (Religion.i religion) (Religion.center religion)).
Proof.
  split.
  - unfold restoreCultures. rewrite mapM_is_Some, Forall_forall.
    apply forall_proper. intros culture. apply forall_proper. intros _.
    apply restoreCulture_is_Some.
  - unfold restoreReligions. rewrite mapM_is_Some, Forall_forall.
    apply forall_proper. intros religion. apply forall_proper. intros _.
    apply restoreReligion_is_Some.
Qed.

(** ** What [pack.markers] keeps *)

Lemma omap_sublist {A B} (f : A → option B) (l k : list A) :
  l `sublist_of` k → omap f l `sublist_of` omap f k.
Proof.
  induction 1 as [|x l k _ IH|x l k _ IH]; simpl.
  - constructor.
  - destruct (f x); [by constructor|done].
  - destruct (f x); [by constructor|done].
Qed.

Lemma omap_lookup_seq {A} (l : list A) :
  omap (λ ref, l !! ref) (seq 0 (length l)) = l.
Proof.
  induction l as [|x l IH] using rev_ind; [done|].
  rewrite length_app. simpl length. rewrite Nat.add_1_r, seq_S, omap_app. simpl.
  rewrite list_lookup_middle by done. simpl. f_equal.
  rewrite <- IH at 2. apply list_omap_ext, Forall2_same_length_lookup.
  split; [done|]. intros j a b Ha Hb. rewrite Ha in Hb. injection Hb as <-.
  apply lookup_seq in Ha as [-> Hj]. simpl. by rewrite lookup_app_l.
Qed.

Section MarkersKept.
Context `{Env}.
Variables (projection : Q → Q → Point).

Lemma restoreMarker_sublist run ref :
  packMarkers (restoreMarker projection run ref) `sublist_of` packMarkers run.
Proof.
  unfold restoreMarker. destruct (objects run !! ref) as [marker|]; [|done].
  destruct (projection (Marker.x marker) (Marker.y marker)) as [x y].
  destruct (isInMap x y); simpl; [done|]. apply sublist_filter.
Qed.

Lemma restoreMarkers_sublist run refs :
  packMarkers (foldl (restoreMarker projection) run refs) `sublist_of` packMarkers run.
Proof.
  revert run. induction refs as [|ref refs IH]; intros run; simpl; [done|].
  etrans; [apply IH|apply restoreMarker_sublist].
Qed.

(** [pack.markers] holds some of the parent's markers, in the parent's
    order, each under its index. *)
Lemma restoreMarkers_kept (parentMap : ParentMap.t) :
  Marker.i <$> packMarkerList (restoreMarkers parentMap projection)
  `sublist_of` Marker.i <$> Pack.markers (ParentMap.pack parentMap).
Proof.
  unfold packMarkerList. rewrite restoreMarkers_objects.
  set (markers := Pack.markers (ParentMap.pack parentMap)).
  assert (Marker.i <$> markers = Marker.i <$> (moved projection <$> markers)) as ->.
  { rewrite <- list_fmap_compose. by apply list_fmap_ext. }
  apply fmap_sublist.
  assert (packMarkers (restoreMarkers parentMap projection)
          `sublist_of` seq 0 (length (moved projection <$> markers))) as Hsub.
  { rewrite length_fmap. unfold restoreMarkers. fold markers.
    apply (restoreMarkers_sublist (mkMarkersRun markers (seq 0 (length markers)))). }
  pose proof (omap_sublist (λ ref, (moved projection <$> markers) !! ref) _ _ Hsub)
    as Hkept.
  by rewrite omap_lookup_seq in Hkept.
Qed.

End MarkersKept.

(** ** Positions and indices across the restoring sequence *)

Section Positions.
Context `{Env}.
Variables (parentMap : ParentMap.t) (projection : Q → Q → Point) (options : Options.t).

Lemma restoreBurg_ident land cb b :
  Burg.i (newBurg (restoreBurg land projection options cb b)) = Burg.i b
  ∧ Burg.name (newBurg (restoreBurg land projection options cb b)) = Burg.name b.
Proof.
  destruct (restoreBurg_cases land projection options cb b)
    as [[_ ->]|[_ [[-> _]|(cell & _ & _ & _ & _ & ->)]]]; done.
Qed.

Lemma restoreBurgs_ident (pack : Cells.t) :
  Forall2 (λ x y, Burg.i y = Burg.i x ∧ Burg.name y = Burg.name x)
    (Pack.burgs (ParentMap.pack parentMap))
    (packBurgs (restoreBurgs parentMap projection options pack)).
Proof.
  apply Forall2_same_length_lookup. split.
  - unfold restoreBurgs.
    by destruct (restoreBurgsFrom_length (groupCellsByType_land pack) projection options
                   (Pack.burgs (ParentMap.pack parentMap))
                   (mkBurgsRun [] [] (Cells.burg pack))) as [-> _].
  - intros k x y Hx Hy.
    destruct (restoreBurgs_lookup parentMap projection options pack k x Hx)
      as (Hnew & _).
    rewrite Hnew in Hy. injection Hy as <-. apply restoreBurg_ident.
Qed.

Lemma restoreState_capital cells x y :
  restoreState parentMap projection cells x = Some y →
  State.capital y = State.capital x.
Proof.
  unfold restoreState. intros Hy.
  repeat (case_match; simplify_option_eq); simplify_option_eq; done.
Qed.

Lemma restoreStates_ident cells burgs states' :
  restoreStates parentMap projection cells burgs = Some states' →
  Forall2 (λ x y, State.i y = State.i x ∧ State.capital y = State.capital x)
    (Pack.states (ParentMap.pack parentMap)) states'.
Proof.
  unfold restoreStates.
  destruct (mapM _ _) as [states|] eqn:E1; [|done]. simpl.
  intros E2. apply mapM_Some in E1, E2. unfold BurgsAndStates_getPoles in E2.
  apply Forall2_fmap_l in E2.
  eapply (Forall2_trans _ _ _ _ _ _ _ E1 E2).
  Unshelve. intros x y z Hxy Hyz. simpl in *.
  destruct (restoreState_validated _ _ _ _ _ Hxy) as [Hi _].
  apply restoreState_capital in Hxy.
  destruct (recenterState_keeps _ _ _ Hyz) as (Hi' & _ & _ & Hc & _).
  simpl in *. split; congruence.
Qed.

Lemma restoreProvinces_ident cells burgs provinces' :
  restoreProvinces parentMap cells burgs = Some provinces' →
  Forall2 (λ x y, Province.i y = Province.i x ∧ Province.burg y = Province.burg x)
    (Pack.provinces (ParentMap.pack parentMap)) provinces'.
Proof.
  unfold restoreProvinces. intros E2. apply mapM_Some in E2.
  unfold Provinces_getPoles in E2. rewrite <- list_fmap_compose in E2.
  apply Forall2_fmap_l in E2.
  eapply Forall2_impl; [exact E2|].
  intros x z Hz. simpl in Hz.
  destruct (recenterProvince_keeps _ _ _ Hz) as (Hi & _).
  destruct (recenterProvince_burg _ _ _ Hz) as (Hb & _).
  destruct (restoreProvince_burg cells x) as (Hb' & Hi' & _).
  simpl in *. split; congruence.
Qed.

End Positions.

(** The restoring calls of [resample] keep the cultures, burgs, states,
    religions, provinces and zones aligned with the parent's: the same
    length, and at every position the same index, so that an index still
    names the entity at that position; a state keeps its capital's burg
    index and a province its burg index. Of the markers [pack.markers] keeps
    some, in the parent's order and each under its index: a marker that is
    projected out of the map is deleted, and the array is then shorter. *)
Theorem restore_keeps_positions `{Env} (parentMap : ParentMap.t)
    (options : Options.t) (pack : Cells.t) (r : Restored) :
  restore parentMap options pack = Some r →
  let parent := ParentMap.pack parentMap in
  Forall2 (λ x y, Culture.i y = Culture.i x) (Pack.cultures parent) (r_cultures r)
  ∧ Forall2 (λ x y, Burg.i y = Burg.i x ∧ Burg.name y = Burg.name x)
      (Pack.burgs parent) (packBurgs (r_burgs r))
  ∧ Forall2 (λ x y, State.i y = State.i x ∧ State.capital y = State.capital x)
      (Pack.states parent) (r_states r)
  ∧ Forall2 (λ x y, Religion.i y = Religion.i x) (Pack.religions parent) (r_religions r)
  ∧ Forall2 (λ x y, Province.i y = Province.i x ∧ Province.burg y = Province.burg x)
      (Pack.provinces parent) (r_provinces r)
  ∧ Marker.i <$> packMarkerList (r_markers r)
    `sublist_of` Marker.i <$> Pack.markers parent
  ∧ Forall2 (λ x y, Zone.i y = Zone.i x ∧ Zone.name y = Zone.name x)
      (Pack.zones parent) (r_zones r).
Proof.
  intros Hr parent. unfold restore in Hr.
  destruct (restoreSecondaryCellData _ _ _) as [o|] eqn:Eo; [|done]. simpl in Hr.
  destruct (restoreCultures _ _ _) as [cultures|] eqn:Ec; [|done]. simpl in Hr.
  destruct (restoreStates _ _ _ _) as [states|] eqn:Es; [|done]. simpl in Hr.
  destruct (restoreReligions _ _ _) as [religions|] eqn:Er; [|done]. simpl in Hr.
  destruct (restoreProvinces _ _ _) as [provinces|] eqn:Ep; [|done]. simpl in Hr.
  destruct (restoreZones _ _ _) as [zones|] eqn:Ez; [|done]. simpl in Hr.
  injection Hr as <-. simpl.
  split; [|split; [|split; [|split; [|split; [|split]]]]].
  - apply mapM_Some in Ec. eapply Forall2_impl; [exact Ec|].
    intros x y Hxy. by destruct (restoreCulture_validated _ _ _ _ _ Hxy).
  - apply restoreBurgs_ident.
  - by eapply restoreStates_ident.
  - apply mapM_Some in Er. eapply Forall2_impl; [exact Er|].
    intros x y Hxy. by destruct (restoreReligion_validated _ _ _ _ _ Hxy).
  - by eapply restoreProvinces_ident.
  - apply restoreMarkers_kept.
  - apply mapM_Some in Ez. eapply Forall2_impl; [exact Ez|].
    intros x y Hxy. by destruct (restoreZone_cells _ _ _ _ _ Hxy) as (_ & ? & ?).
Qed.

(** ** Capitals across the restoring sequence *)

Lemma restoreStates_center `{Env} (parentMap : ParentMap.t)
    (projection : Q → Q → Point) (cells_state : list N) (burgs : list Burg.t)
    (states' : list State.t) (k : nat) (state : State.t) (capital : Burg.t) :
  restoreStates parentMap projection cells_state burgs = Some states' →
  states' !! k = Some state →
  State.i state ≠ 0%N → State.removed state = false →
  burgs !! N.to_nat (State.capital state) = Some capital →
  Burg.removed capital = false →
  State.center state = Some (Burg.cell capital).
Proof.
  unfold restoreStates. intros Hs Hk Hi Hr Hcap Hlive.
  destruct (mapM _ _) as [states|] eqn:E1; [|done]. simpl in Hs.
  apply mapM_Some in Hs. unfold BurgsAndStates_getPoles in Hs.
  apply Forall2_fmap_l in Hs.
  destruct (Forall2_lookup_r _ _ _ _ _ Hs Hk) as (x & _ & Hx). simpl in Hx.
  destruct (recenterState_center _ _ _ Hx Hi Hr) as (capital' & Hcap' & Hcenter & _).
  rewrite Hcap in Hcap'. injection Hcap' as <-. by apply Hcenter.
Qed.

(** After the restoring calls of [resample], a state that is kept and whose
    capital burg survived has its centre on the capital's cell: a land cell
    of the new pack, other than cell 0, on which [pack.cells.burg] holds the
    capital's index. *)
Theorem restore_state_center_holds_capital `{Env} (parentMap : ParentMap.t)
    (options : Options.t) (pack : Cells.t) (r : Restored)
    (k : nat) (state : State.t) (capital : Burg.t) :
  (∀ data x y pt, quadtree_find data x y = Some pt → pt ∈ data) →
  (length (Cells.p pack) ≤ length (Cells.i pack))%nat →
  Forall (λ b, (Burg.i b < 65536)%N) (Pack.burgs (ParentMap.pack parentMap)) →
  restore parentMap options pack = Some r →
  r_states r !! k = Some state →
  State.i state ≠ 0%N → State.removed state = false →
  packBurgs (r_burgs r) !! N.to_nat (State.capital state) = Some capital →
  Burg.i capital ≠ 0%N → Burg.removed capital = false →
  ∃ cell, State.center state = Some cell ∧ cell ≠ 0%nat
    ∧ isWater (Cells.h pack) cell = false
    ∧ packCellsBurg (r_burgs r) !! cell = Some (Burg.i capital).
Proof.
  intros Hfind Hlen Hid Hr Hk Hi Hrem Hcap Hci Hcr. unfold restore in Hr.
  destruct (restoreSecondaryCellData _ _ _) as [o|] eqn:Eo; [|done]. simpl in Hr.
  destruct (restoreSecondaryCellData_spec _ _ _ _ Eo) as (_ & Hb & _).
  destruct (restoreCultures _ _ _) as [cultures|]; [|done]. simpl in Hr.
  destruct (restoreStates _ _ _ _) as [states|] eqn:Es; [|done]. simpl in Hr.
  destruct (restoreReligions _ _ _) as [religions|]; [|done]. simpl in Hr.
  destruct (restoreProvinces _ _ _) as [provinces|]; [|done]. simpl in Hr.
  destruct (restoreZones _ _ _) as [zones|]; [|done]. simpl in Hr.
  injection Hr as <-. simpl in *.
  exists (Burg.cell capital).
  split; [by eapply restoreStates_center|].
  destruct (restoreBurgs_places_on_land_aux parentMap (Options.projection options) options
              (withOverlays pack o) _ capital Hfind Hcap Hci Hcr) as (Hc0 & Hw & _).
  split; [done|]. split; [done|].
  unfold restoreBurgs in *. simpl in *. rewrite Hb in *.
  set (n := length (Cells.i pack)) in *.
  assert (∀ x y cell,
            snd <$> quadtree_find (groupCellsByType_land (withOverlays pack o)) x y
            = Some cell → (cell < length (replicate n 0%N))%nat) as Hrange.
  { intros x y cell Hf. rewrite length_replicate.
    destruct (quadtree_find _ x y) as [[[x' y'] c]|] eqn:Ef; simpl in Hf; [|done].
    injection Hf as ->. apply Hfind in Ef. apply landFrom_spec in Ef.
    destruct Ef as (_ & Hp & _). rewrite Nat.sub_0_r in Hp.
    apply lookup_lt_Some in Hp. simpl in Hp. unfold n, Point in *. lia. }
  destruct (restoreBurgsFrom_agree (groupCellsByType_land (withOverlays pack o))
              (Options.projection options) options (replicate n 0%N)
              (Pack.burgs (ParentMap.pack parentMap)))
    as [Hmark _]; [by apply Forall_replicate|exact Hrange|exact Hid|].
  by eapply Hmark.
Qed.

(** ** The properties on the concrete maps *)

(** The list scan returns an entry at the least squared distance. *)
Lemma nearest_min data x y pt :
  nearest data x y = Some pt → ∀ q, q ∈ data → (dist2 x y pt <= dist2 x y q)%Q.
Proof.
  revert pt. induction data as [|p data IH]; intros pt; simpl; [done|].
  destruct (nearest data x y) as [best|] eqn:E.
  - destruct (Qle_bool (dist2 x y p) (dist2 x y best)) eqn:Ele; intros [= <-] q Hq.
    + apply Qle_bool_iff in Ele. apply elem_of_cons in Hq as [->|Hq]; [apply Qle_refl|].
      eapply Qle_trans; [exact Ele|]. by apply IH.
    + apply elem_of_cons in Hq as [->|Hq]; [|by apply IH].
      apply Qlt_le_weak, Qnot_le_lt. intros Hle. apply Qle_bool_iff in Hle. congruence.
  - intros [= <-] q Hq. apply elem_of_cons in Hq as [->|Hq]; [apply Qle_refl|].
    destruct data as [|p' data']; [by apply elem_of_nil in Hq|].
    exfalso. simpl in E. by repeat case_match.
Qed.

Lemma sites_distinct j k (pj pk : Point) :
  sites !! j = Some pj → sites !! k = Some pk →
  (pj.1 == pk.1)%Q → (pj.2 == pk.2)%Q → j = k.
Proof.
  destruct j as [|[|[|j]]], k as [|[|[|k]]]; simpl; intros [= <-] [= <-];
    simpl; try done; unfold Qeq; simpl; intros; lia.
Qed.

(** On the three sites under the identity, new cell 1 copies the parent
    values behind the parent cell found at (15, 5). *)
Lemma sampleFields_copies_parent_witness :
  uint8_array [10; 30; 40] ∧ int8_array [5; 5; 5] ∧ uint8_array [8; 8; 8]
  ∧ ∃ f cell, @sampleFields newEnv theParent identity sites = Some f
      ∧ @nearestParentCell newEnv theParent identity (15, 5)%Q = Some cell
      ∧ f_h f !! 1%nat = Some (behind theParent Grid.h cell)
      ∧ f_temp f !! 1%nat = Some (behind theParent Grid.temp cell)
      ∧ f_prec f !! 1%nat = Some (behind theParent Grid.prec cell).
Proof.
  assert (uint8_array [10; 30; 40]) as Hh by (repeat constructor; lia).
  assert (int8_array [5; 5; 5]) as Ht by (repeat constructor; lia).
  assert (uint8_array [8; 8; 8]) as Hp by (repeat constructor; lia).
  split; [exact Hh|]. split; [exact Ht|]. split; [exact Hp|].
  assert (@sampleFields newEnv theParent identity sites
          = Some (mkFields [10; 30; 40] [5; 5; 5] [8; 8; 8])) as Hf by reflexivity.
  destruct (@sampleFields_copies_parent newEnv theParent identity sites _ Hh Ht Hp Hf)
    as (_ & _ & _ & Hk).
  destruct (Hk 1%nat (15, 5)%Q eq_refl) as (cell & Hc & H1 & H2 & H3).
  eexists _, cell. split; [exact Hf|]. by repeat split.
Defined.

(** With both filters on, the sampled elevations 10, 30, 40 end as 19, 23,
    28: cell 0 is still water, cells 1 and 2 are still land. *)
Lemma resamplePrimaryGridData_keeps_sampled_classification_witness :
  ∃ f,
    @resamplePrimaryGridData newEnv theParent identity identityOptions newGrid
    = Some (Grid.mk sites (Grid.mkCells [19; 23; 28] [5; 5; 5] [8; 8; 8]
                             [[1; 2]; [0]; [0]]%nat sites))
    ∧ @sampleFields newEnv theParent identity sites = Some f
    ∧ f_h f = [10; 30; 40]
    ∧ ∀ k, isWater [19; 23; 28] k = isWater (f_h f) k.
Proof.
  assert (@resamplePrimaryGridData newEnv theParent identity identityOptions newGrid
          = Some (Grid.mk sites (Grid.mkCells [19; 23; 28] [5; 5; 5] [8; 8; 8]
                                   [[1; 2]; [0]; [0]]%nat sites))) as Hr by reflexivity.
  destruct (@resamplePrimaryGridData_keeps_sampled_classification newEnv theParent
              identity identityOptions newGrid _ Hr)
    as (f & Hf & _ & _ & _ & _ & _ & Hw).
  exists f. split; [exact Hr|]. split; [exact Hf|].
  split; [|exact Hw]. vm_compute in Hf. by injection Hf as <-.
Defined.

(** On the three sites under the identity, the water cell 0 gets 0
    everywhere and the land cell 2 the regions of the parent cell it is
    matched with. *)
Lemma restoreSecondaryCellData_assigns_witness :
  ∃ o cell,
    @restoreSecondaryCellData newEnv theParent identity newCells = Some o
    ∧ o_burg o = [0; 0; 0]%N
    ∧ regionsAt o 0 = Some (0, 0, 0, 0)%N
    ∧ @matched newEnv theParent identity newCells 2 = Some cell
    ∧ regionsAt o 2 = Some (parentRegions theParent cell).
Proof.
  assert (@restoreSecondaryCellData newEnv theParent identity newCells
          = Some (mkOverlays [0; 1; 2]%N [0; 1; 2]%N [0; 0; 0]%N [0; 1; 1]%N [0; 1; 2]%N))
    as Ho by reflexivity.
  destruct (@restoreSecondaryCellData_assigns newEnv theParent identity newCells _ Ho)
    as (_ & Hb & Hzero & Hland).
  destruct (Hland 2%nat) as (cell & Hm & Hat);
    [simpl; lia|by apply (list_elem_of_lookup_2 _ 2%nat)|reflexivity|].
  eexists _, cell. split; [exact Ho|]. split; [exact Hb|].
  split; [|by split]. apply Hzero; [simpl; lia|by right].
Defined.

(** New cell 1 carries (1, 1, 1, 1), the regions of a parent land cell. *)
Lemma restoreSecondaryCellData_takes_from_land_witness :
  (∀ data x y pt, nearest data x y = Some pt → pt ∈ data)
  ∧ ∃ cell, isWater [10; 30; 40] cell = false
      ∧ is_Some (sites !! cell)
      ∧ (1, 1, 1, 1)%N = parentRegions theParent cell.
Proof.
  split; [exact nearest_In|].
  apply (@restoreSecondaryCellData_takes_from_land newEnv theParent identity newCells
           (mkOverlays [0; 1; 2]%N [0; 1; 2]%N [0; 0; 0]%N [0; 1; 1]%N [0; 1; 2]%N)
           1%nat (1, 1, 1, 1)%N nearest_In); [reflexivity|reflexivity|discriminate].
Defined.

(** The three sites, resampled onto themselves with the list scan as
    quadtree. *)
Lemma restoreSecondaryCellData_identity_witness :
  ∃ o, @restoreSecondaryCellData newEnv theParent identity newCells = Some o
    ∧ regionsAt o 0 = Some (0, 0, 0, 0)%N
    ∧ regionsAt o 1 = Some (parentRegions theParent 1)
    ∧ regionsAt o 2 = Some (parentRegions theParent 2).
Proof.
  destruct (@restoreSecondaryCellData_identity newEnv theParent newCells)
    as (o & Ho & Hk).
  - intros data x y pt Hf. split; [by eapply nearest_In|by apply nearest_min].
  - intros data x y. apply nearest_is_Some.
  - apply sites_distinct.
  - reflexivity.
  - reflexivity.
  - reflexivity.
  - exists o. split; [exact Ho|].
    split; [apply (Hk 0%nat); simpl; lia|].
    split; [apply (Hk 1%nat); simpl; lia|apply (Hk 2%nat); simpl; lia].
Defined.

(** Alpha, projected to (14, 5), is placed on the land cell 1. *)
Lemma restoreBurgs_places_on_land_witness :
  (∀ data x y pt, nearest data x y = Some pt → pt ∈ data)
  ∧ ∃ alpha,
      packBurgs (@restoreBurgs newEnv theParent identity identityOptions newCells) !! 1%nat
      = Some alpha
      ∧ Burg.cell alpha = 1%nat
      ∧ @isInMap newEnv (Burg.x alpha) (Burg.y alpha) = true
      ∧ isWater [10; 30; 40] (Burg.cell alpha) = false.
Proof.
  split; [exact nearest_In|].
  set (alpha := Burg.place
                  (Burg.scalePopulation (Burg.mk 1 "Alpha" 1 14 5 100 false true) 2)
                  (roundTo 14 2) (roundTo 5 2) 1).
  assert (packBurgs (@restoreBurgs newEnv theParent identity identityOptions newCells)
            !! 1%nat = Some alpha) as Ha by reflexivity.
  destruct (@restoreBurgs_places_on_land newEnv theParent identity identityOptions
              newCells 1%nat alpha nearest_In Ha)
    as (burg & _ & _ & _ & _ & Hin & _ & _ & Hw & _); [discriminate|reflexivity|].
  exists alpha. split; [exact Ha|]. split; [reflexivity|]. by split.
Defined.

(** On the three sites at elevations 10, 5 and 3 every burg is removed. *)
Lemma restoreBurgs_without_land_witness :
  (∀ data x y pt, nearest data x y = Some pt → pt ∈ data)
  ∧ (∀ k, (k < 3)%nat → isWater [10; 5; 3] k = true)
  ∧ packCellsBurg (@restoreBurgs newEnv theParent identity identityOptions seaCells)
    = [0; 0; 0]%N
  ∧ ∀ k b,
      packBurgs (@restoreBurgs newEnv theParent identity identityOptions seaCells) !! k
      = Some b → Burg.i b = 0%N ∨ Burg.removed b = true.
Proof.
  assert (∀ k, (k < 3)%nat → isWater [10; 5; 3] k = true) as Hsea.
  { intros [|[|[|k]]] Hk; try reflexivity. lia. }
  split; [exact nearest_In|]. split; [exact Hsea|].
  destruct (@restoreBurgs_without_land newEnv theParent identity identityOptions seaCells
              nearest_In Hsea) as (Hcells & _ & Hgone).
  split; [exact Hcells|exact Hgone].
Defined.

(** Alpha holds cell 1 and Gamma cell 2: [pack.cells.burg] is 0, 1, 3. *)
Lemma restore_burgs_match_cells_witness :
  (∀ data x y pt, nearest data x y = Some pt → pt ∈ data)
  ∧ Forall (λ b, (Burg.i b < 65536)%N) parentBurgList
  ∧ ∃ r, @restore newEnv theParent identityOptions newCells = Some r
      ∧ packCellsBurg (r_burgs r) = [0; 1; 3]%N
      ∧ ∀ c v, packCellsBurg (r_burgs r) !! c = Some v → v ≠ 0%N →
          ∃ k b, packBurgs (r_burgs r) !! k = Some b
            ∧ Burg.i b = v ∧ Burg.removed b = false ∧ Burg.cell b = c.
Proof.
  assert (Forall (λ b, (Burg.i b < 65536)%N) parentBurgList) as Hid
    by (repeat constructor; simpl; lia).
  split; [exact nearest_In|]. split; [exact Hid|].
  destruct (@restore newEnv theParent identityOptions newCells) as [r|] eqn:Er;
    [|by vm_compute in Er].
  destruct (@restore_burgs_match_cells newEnv theParent identityOptions newCells r
              nearest_In ltac:(simpl; lia) Hid Er) as (_ & _ & Hback).
  exists r. split; [first [exact Er|reflexivity]|]. split; [|exact Hback].
  vm_compute in Er. by injection Er as <-.
Defined.

(** Under the identity both markers stay in the map of 20 by 20. *)
Lemma restoreMarkers_keeps_markers_in_map_witness :
  Forall (@lands newEnv identity) parentMarkers
  ∧ packMarkers (@restoreMarkers newEnv theParent identity) = [0; 1]%nat.
Proof.
  assert (Forall (@lands newEnv identity) parentMarkers) as Hin
    by (repeat constructor).
  split; [exact Hin|].
  by destruct (@restoreMarkers_keeps_markers_in_map newEnv theParent identity Hin)
    as [-> _].
Defined.

(** Alphia loses its neighbour 3, which is on no new cell, and keeps 2;
    its regiment is moved. *)
Lemma restoreStates_neighbors_and_military_witness :
  let burgs := packBurgs (@restoreBurgs newEnv theParent identity identityOptions newCells) in
  present [0; 1; 2]%N 1%N
  ∧ ∃ states' alphia,
      @restoreStates newEnv theParent identity [0; 1; 2]%N burgs = Some states'
      ∧ states' !! 1%nat = Some alphia
      ∧ State.neighbors alphia = [2]%N
      ∧ Forall2 (@stationed newEnv theParent identity)
          [Regiment.mk (Some 1%nat) 15 5 14 6] (State.military alphia).
Proof.
  intros burgs.
  assert (present [0; 1; 2]%N 1%N) as Hp by (by exists 1%nat).
  split; [exact Hp|].
  destruct (@restoreStates newEnv theParent identity [0; 1; 2]%N burgs)
    as [states'|] eqn:Es; [|by vm_compute in Es].
  destruct (states' !! 1%nat) as [alphia|] eqn:Ea;
    [|vm_compute in Es; injection Es as <-; discriminate].
  destruct (@restoreStates_neighbors_and_military newEnv theParent identity
              [0; 1; 2]%N burgs states' 1%nat
              (State.mk 1 "Alphia" "Kingdom of Alphia" (Some 1%nat) 1 None [2; 3]%N
                 [Regiment.mk (Some 1%nat) 15 5 14 6] false false)
              alphia Es eq_refl Ea) as (_ & Hkept).
  destruct Hkept as (Hn & Hm); [simpl; discriminate|reflexivity|exact Hp|].
  exists states', alphia. split; [first [exact Es|reflexivity]|]. split; [first [exact Ea|reflexivity]|].
  split; [|exact Hm]. rewrite Hn. reflexivity.
Defined.

(** North's burg Alpha was placed, so North's centre is Alpha's cell. *)
Lemma restoreProvinces_center_from_capital_or_pole_witness :
  let burgs := packBurgs (@restoreBurgs newEnv theParent identity identityOptions newCells) in
  ∃ provinces' north alpha,
    @restoreProvinces newEnv theParent [0; 1; 2]%N burgs = Some provinces'
    ∧ provinces' !! 1%nat = Some north
    ∧ burgs !! 1%nat = Some alpha ∧ Burg.removed alpha = false
    ∧ Province.center north = Some (Burg.cell alpha).
Proof.
  intros burgs.
  destruct (@restoreProvinces newEnv theParent [0; 1; 2]%N burgs)
    as [provinces'|] eqn:Es; [|by vm_compute in Es].
  destruct (provinces' !! 1%nat) as [north|] eqn:Ea;
    [|vm_compute in Es; injection Es as <-; discriminate].
  destruct (@restoreProvinces_center_from_capital_or_pole newEnv theParent
              [0; 1; 2]%N burgs provinces' 1%nat north Es Ea)
    as (province & alpha & Hprov & _ & _ & Hcap & Hlive & _).
  - vm_compute in Es. injection Es as <-. by injection Ea as <-.
  - vm_compute in Es. injection Es as <-. by injection Ea as <-.
  - assert (province = Province.mk 1 "North" "North Province" (Some 1%nat) 1 None
                         false false) as -> by (by injection Hprov as <-).
    assert (Burg.removed alpha = false) as Hrem
      by (vm_compute in Hcap; by injection Hcap as <-).
    exists provinces', north, alpha. split; [first [exact Es|reflexivity]|]. split; [first [exact Ea|reflexivity]|].
    split; [exact Hcap|]. split; [exact Hrem|]. by apply Hlive.
Defined.


(** Under the shifted projection the first marker leaves the map:
    [pack.markers] keeps the second one only, and the four burgs keep their
    positions and indices. *)
Lemma restore_keeps_positions_witness :
  ∃ r, @restore newEnv theParent shiftOptions newCells = Some r
    ∧ Marker.i <$> packMarkerList (r_markers r) = [2]%N
    ∧ Marker.i <$> packMarkerList (r_markers r) `sublist_of` Marker.i <$> parentMarkers
    ∧ Forall2 (λ x y, Burg.i y = Burg.i x ∧ Burg.name y = Burg.name x)
        parentBurgList (packBurgs (r_burgs r)).
Proof.
  destruct (@restore newEnv theParent shiftOptions newCells) as [r|] eqn:Er;
    [|by vm_compute in Er].
  destruct (@restore_keeps_positions newEnv theParent shiftOptions newCells r Er)
    as (_ & Hb & _ & _ & _ & Hm & _).
  exists r. split; [first [exact Er|reflexivity]|].
  split; [|split; [exact Hm|exact Hb]].
  vm_compute in Er. by injection Er as <-.
Defined.

(** Alphia's centre is cell 1, land, on which [pack.cells.burg] holds the
    index of its capital Alpha. *)
Lemma restore_state_center_holds_capital_witness :
  (∀ data x y pt, nearest data x y = Some pt → pt ∈ data)
  ∧ Forall (λ b, (Burg.i b < 65536)%N) parentBurgList
  ∧ ∃ r alphia alpha cell,
      @restore newEnv theParent identityOptions newCells = Some r
      ∧ r_states r !! 1%nat = Some alphia
      ∧ packBurgs (r_burgs r) !! N.to_nat (State.capital alphia) = Some alpha
      ∧ State.center alphia = Some cell
      ∧ isWater [10; 30; 40] cell = false
      ∧ packCellsBurg (r_burgs r) !! cell = Some (Burg.i alpha).
Proof.
  assert (Forall (λ b, (Burg.i b < 65536)%N) parentBurgList) as Hid
    by (repeat constructor; simpl; lia).
  split; [exact nearest_In|]. split; [exact Hid|].
  destruct (@restore newEnv theParent identityOptions newCells) as [r|] eqn:Er;
    [|by vm_compute in Er].
  destruct (r_states r !! 1%nat) as [alphia|] eqn:Ea;
    [|exfalso; vm_compute in Er; injection Er as <-; discriminate].
  assert (State.i alphia = 1%N ∧ State.removed alphia = false
          ∧ State.capital alphia = 1%N) as (Hi & Hrem & Hcap).
  { vm_compute in Er. injection Er as <-. vm_compute in Ea. by injection Ea as <-. }
  destruct (packBurgs (r_burgs r) !! N.to_nat (State.capital alphia)) as [alpha|] eqn:Eb;
    [|exfalso; rewrite Hcap in Eb; vm_compute in Er; injection Er as <-; discriminate].
  assert (Burg.i alpha = 1%N ∧ Burg.removed alpha = false) as (Hbi & Hbr).
  { rewrite Hcap in Eb. vm_compute in Er. injection Er as <-. vm_compute in Eb.
    by injection Eb as <-. }
  destruct (@restore_state_center_holds_capital newEnv theParent identityOptions
              newCells r 1%nat alphia alpha nearest_In ltac:(simpl; lia) Hid Er Ea)
    as (cell & Hc & _ & Hw & Hmark);
    [rewrite Hi; discriminate|exact Hrem|exact Eb|rewrite Hbi; discriminate|exact Hbr|].
  exists r, alphia, alpha, cell. split; [first [exact Er|reflexivity]|].
  split; [first [exact Ea|reflexivity]|]. split; [first [exact Eb|reflexivity]|].
  split; [exact Hc|]. split; [exact Hw|exact Hmark].
Defined.

(** On the pack without water the land cell nearest to Alpha's site
    (14, 5) is cell 0, and Alpha is removed. *)
Lemma restoreBurgs_cell_zero_is_no_cell_witness :
  parentBurgList !! 1%nat = Some (Burg.mk 1 "Alpha" 1 14 5 100 false true)
  ∧ snd <$> nearest (@groupCellsByType_land landCells) (roundTo 14 2) (roundTo 5 2)
    = Some 0%nat
  ∧ ∃ burg', packBurgs (@restoreBurgs landEnv theParent identity identityOptions landCells)
               !! 1%nat = Some burg'
      ∧ Burg.removed burg' = true ∧ Burg.lock burg' = false.
Proof.
  split; [reflexivity|]. split; [reflexivity|].
  destruct (@restoreBurgs_cell_zero_is_no_cell landEnv theParent identity identityOptions
              landCells 1%nat (Burg.mk 1 "Alpha" 1 14 5 100 false true))
    as (burg' & Hb & _ & Hr & Hl & _);
    [reflexivity|discriminate|reflexivity|left; reflexivity|].
  exists burg'. by repeat split.
Defined.

(** ** What the restoring calls leave of the parent map *)

Section Elements.
Context {A B : Type}.

(** Forgetting which elements are the parent's own gives the collection. *)
Lemma mapM_held (f : A → option B) (g : A → option (Element B)) (l : list A) :
  (∀ a, fmap (M := option) held (g a) = f a) →
  fmap (M := option) (fmap (M := list) held) (mapM (M := option) g l) = mapM (M := option) f l.
Proof.
  intros Hg. induction l as [|a l IH]; [done|].
  simpl. rewrite <- (Hg a), <- IH.
  destruct (g a) as [e|]; [|done]. simpl.
  by destruct (mapM g l).
Qed.

Lemma mapM_writeM (f : B → option B) (es : list (Element B)) :
  fmap (M := option) (fmap (M := list) held) (mapM (M := option) (writeM f) es)
  = mapM (M := option) f (held <$> es).
Proof.
  induction es as [|e es IH]; [done|].
  rewrite fmap_cons. simpl. rewrite <- IH.
  destruct e as [x|x]; simpl; destruct (f x); simpl; try done;
    by destruct (mapM (writeM f) es).
Qed.

Lemma held_write (f : B → B) (es : list (Element B)) :
  held <$> (write f <$> es) = f <$> (held <$> es).
Proof.
  rewrite <- !list_fmap_compose. apply list_fmap_ext. by intros _ [x|x] _.
Qed.

Lemma parentAfter_Forall2 (R : B → B → Prop) (parents : list B)
    (elements : list (Element B)) :
  Forall2 (λ x e, R x (ownerAfter x e)) parents elements →
  Forall2 R parents (parentAfter parents elements).
Proof.
  unfold parentAfter. induction 1 as [|x e parents elements Hx _ IH]; simpl;
    by constructor.
Qed.

Lemma parentAfter_frame (parents : list B) (elements : list (Element B)) :
  Forall2 (λ x e, ownerAfter x e = x) parents elements →
  parentAfter parents elements = parents.
Proof.
  unfold parentAfter. induction 1 as [|x e parents elements Hx _ IH]; simpl;
    [done|]. by rewrite Hx, IH.
Qed.

Lemma parentAfter_lookup (parents : list B) (elements : list (Element B)) k x e :
  parents !! k = Some x → elements !! k = Some e →
  parentAfter parents elements !! k = Some (ownerAfter x e).
Proof.
  intros Hx He. unfold parentAfter. rewrite lookup_zip_with, Hx. simpl. by rewrite He.
Qed.

End Elements.

Lemma mapM_held_Some {A B} (f : A → option B) (g : A → option (Element B))
    (l : list A) (ys : list B) :
  (∀ a, fmap (M := option) held (g a) = f a) → mapM f l = Some ys →
  ∃ es, mapM g l = Some es ∧ held <$> es = ys.
Proof.
  intros Hg Hf. rewrite <- (mapM_held f g l Hg) in Hf.
  destruct (mapM g l) as [es|]; [|done]. injection Hf as <-. by exists es.
Qed.

Section ParentFacts.
Context `{Env}.
Variables (parentMap : ParentMap.t) (projection : Q → Q → Point) (options : Options.t).

Lemma cultureElement_held cells culture :
  held <$> cultureElement parentMap projection cells culture
  = restoreCulture parentMap projection cells culture.
Proof.
  unfold cultureElement. destruct (restoreCulture _ _ _ _) as [y|]; [|done].
  simpl. by destruct (_ || _).
Qed.

Lemma religionElement_held cells religion :
  held <$> religionElement parentMap projection cells religion
  = restoreReligion parentMap projection cells religion.
Proof.
  unfold religionElement. destruct (restoreReligion _ _ _ _) as [y|]; [|done].
  simpl. by destruct (_ || _).
Qed.

Lemma stateElement_held cells state :
  held <$> stateElement parentMap projection cells state
  = restoreState parentMap projection cells state.
Proof.
  unfold stateElement. destruct (restoreState _ _ _ _) as [y|]; [|done].
  simpl. by destruct (_ || _).
Qed.

Lemma zoneElement_held zone :
  held <$> zoneElement parentMap projection options zone
  = restoreZone parentMap projection options zone.
Proof. unfold zoneElement. by destruct (restoreZone _ _ _ _). Qed.

Lemma provinceElement_held cells province :
  held (provinceElement cells province) = restoreProvince cells province.
Proof. unfold provinceElement. by repeat case_match. Qed.

(** The elements hold [pack.states] and [pack.provinces]. *)
Lemma restoreStatesElements_held cells burgs :
  fmap (M := option) (fmap (M := list) held) (restoreStatesElements parentMap projection cells burgs)
  = restoreStates parentMap projection cells burgs.
Proof.
  unfold restoreStatesElements, restoreStates, BurgsAndStates_getPoles,
    BurgsAndStates_getPoles_elements.
  rewrite <- (mapM_held (restoreState parentMap projection cells)
                (stateElement parentMap projection cells) _
                (stateElement_held cells)).
  destruct (mapM (stateElement _ _ _) _) as [es|]; [|done]. simpl.
  by rewrite mapM_writeM, held_write.
Qed.

Lemma restoreProvincesElements_held cells burgs :
  fmap (M := option) (fmap (M := list) held) (restoreProvincesElements parentMap cells burgs)
  = restoreProvinces parentMap cells burgs.
Proof.
  unfold restoreProvincesElements, restoreProvinces, Provinces_getPoles,
    Provinces_getPoles_elements.
  rewrite mapM_writeM, held_write. do 2 f_equal.
  rewrite <- list_fmap_compose. apply list_fmap_ext. intros _ x _. simpl.
  apply provinceElement_held.
Qed.

(** A culture or religion that the guard hands back is not written to. *)
Lemma cultureElement_owner cells culture e :
  cultureElement parentMap projection cells culture = Some e →
  ownerAfter culture e = culture.
Proof.
  unfold cultureElement.
  destruct ((Culture.i culture =? 0)%N || Culture.removed culture) eqn:Eg.
  - unfold restoreCulture. rewrite Eg. simpl. by intros [= <-].
  - destruct (restoreCulture parentMap projection cells culture) as [y|]; simpl;
      [by intros [= <-]|done].
Qed.

Lemma religionElement_owner cells religion e :
  religionElement parentMap projection cells religion = Some e →
  ownerAfter religion e = religion.
Proof.
  unfold religionElement.
  destruct ((Religion.i religion =? 0)%N || Religion.removed religion) eqn:Eg.
  - unfold restoreReligion. rewrite Eg. simpl. by intros [= <-].
  - destruct (restoreReligion parentMap projection cells religion) as [y|]; simpl;
      [by intros [= <-]|done].
Qed.

Lemma zoneElement_owner zone e :
  zoneElement parentMap projection options zone = Some e → ownerAfter zone e = zone.
Proof.
  unfold zoneElement. destruct (restoreZone _ _ _ _); simpl; [|done]. by intros [= <-].
Qed.

(** What the three steps of [restoreStates] leave of a parent state: the
    guard hands back the parent's object, to which only the pole is written;
    a state that passes the guard is copied. *)
Lemma stateElement_owner cells burgs state e0 e :
  stateElement parentMap projection cells state = Some e0 →
  writeM (recenterState burgs)
    (write (λ s, State.setPole s (getPolesOfInaccessibility cells (State.i s))) e0)
  = Some e →
  ownerAfter state e = State.setPole state (State.pole (ownerAfter state e))
  ∧ (State.i state ≠ 0%N → State.removed state = false → ownerAfter state e = state).
Proof.
  unfold stateElement.
  destruct ((State.i state =? 0)%N || State.removed state) eqn:Eg.
  - unfold restoreState. rewrite Eg. simpl. intros [= <-]. simpl.
    unfold recenterState. simpl. rewrite Eg. simpl. intros [= <-]. simpl.
    split; [done|]. intros Hi Hr. apply N.eqb_neq in Hi. by rewrite Hi, Hr in Eg.
  - destruct (restoreState parentMap projection cells state) as [y|]; simpl; [|done].
    intros [= <-]. simpl.
    destruct (recenterState burgs _) as [z|]; simpl; [|done]. intros [= <-]. simpl.
    split; [by destruct state|done].
Qed.

(** What the three steps of [restoreProvinces] leave of a parent province.
    The province that stays on the map is the parent's object, and the
    centre is assigned to it. *)
Lemma provinceElement_owner cells burgs province e :
  writeM (recenterProvince burgs)
    (write (λ s, Province.setPole s (getPolesOfInaccessibility cells (Province.i s)))
       (provinceElement cells province))
  = Some e →
  let after := ownerAfter province e in
  after = Province.setCenter (Province.setPole province (Province.pole after))
            (Province.center after)
  ∧ (Province.i province = 0%N ∨ Province.removed province = true →
     after = held e ∧ Province.center after = Province.center province)
  ∧ (Province.i province ≠ 0%N → Province.removed province = false →
     ¬ present cells (Province.i province) → after = province)
  ∧ (Province.i province ≠ 0%N → Province.removed province = false →
     present cells (Province.i province) →
     after = held e
     ∧ ∃ capital, burgs !! N.to_nat (Province.burg province) = Some capital
         ∧ (Burg.removed capital = false →
            Province.center after = Some (Burg.cell capital))
         ∧ (Burg.removed capital = true →
            ∃ pole, Province.pole after = Some pole
              ∧ Province.center after = findCell pole.1 pole.2)).
Proof.
  unfold provinceElement, restoreProvince. simpl.
  destruct (Province.i province =? 0)%N eqn:Ei; simpl.
  { apply N.eqb_eq in Ei. unfold recenterProvince. simpl.
    rewrite (proj2 (N.eqb_eq _ _) Ei). simpl. intros [= <-]. simpl.
    split; [done|]. split; [done|]. split; intros; done. }
  apply N.eqb_neq in Ei.
  destruct (Province.removed province) eqn:Er; simpl.
  { unfold recenterProvince. simpl. rewrite Er, orb_true_r. simpl.
    intros [= <-]. simpl. split; [by destruct province|].
    split; [done|]. split; intros; done. }
  destruct (has (list_to_set cells) (Province.i province)) eqn:Eh; simpl.
  - apply has_present in Eh.
    destruct (recenterProvince burgs _) as [y|] eqn:Ey; simpl; [|done].
    intros [= <-]. simpl.
    assert (Province.i y ≠ 0%N ∧ Province.removed y = false) as [Hi Hr].
    { destruct (recenterProvince_keeps _ _ _ Ey) as (-> & -> & _). by simpl. }
    destruct (recenterProvince_center _ _ _ Ey Hi Hr) as (capital & Hcap & Hlive & Hgone).
    destruct (recenterProvince_burg _ _ _ Ey) as (_ & _ & _ & Ep). simpl in *.
    split.
    { unfold recenterProvince in Ey. simpl in Ey.
      rewrite (proj2 (N.eqb_neq _ _) Ei), Er in Ey. simpl in Ey.
      rewrite Hcap in Ey.
      destruct (Burg.removed capital); simpl in Ey.
      - destruct (getPolesOfInaccessibility cells (Province.i province)); simpl in Ey;
          [|done]. by injection Ey as <-.
      - by injection Ey as <-. }
    split; [intros [?|?]; congruence|]. split; [done|]. intros _ _ _.
    split; [done|]. exists capital. split; [done|]. split; [done|].
    intros Hrem. destruct (Hgone Hrem) as (pole & Hpole & Hcenter).
    exists pole. by rewrite Ep.
  - apply has_absent in Eh.
    destruct (recenterProvince burgs _) as [y|] eqn:Ey; simpl; [|done].
    intros [= <-]. simpl. split; [by destruct province|].
    split; [intros [?|?]; congruence|]. split; [done|]. intros; done.
Qed.

End ParentFacts.

(** What [restoreBurgs] leaves of the parent's burgs: the population of a
    burg that passes the guard is scaled on the parent's object. *)
Lemma restoreBurgs_parent `{Env} (parentMap : ParentMap.t)
    (projection : Q → Q → Point) (options : Options.t) (pack : Cells.t) :
  Forall2 (λ x y, y = if (Burg.i x =? 0)%N || Burg.removed x then x
                      else Burg.scalePopulation x (Options.scale options))
    (Pack.burgs (ParentMap.pack parentMap))
    (parentBurgs (restoreBurgs parentMap projection options pack)).
Proof.
  apply Forall2_same_length_lookup. split.
  - unfold restoreBurgs.
    by destruct (restoreBurgsFrom_length (groupCellsByType_land pack) projection options
                   (Pack.burgs (ParentMap.pack parentMap))
                   (mkBurgsRun [] [] (Cells.burg pack))) as [_ ->].
  - intros k x y Hx Hy.
    destruct (restoreBurgs_lookup parentMap projection options pack k x Hx)
      as (_ & Hpar & _).
    rewrite Hpar in Hy. injection Hy as <-.
    destruct (restoreBurg_cases (groupCellsByType_land pack) projection options
                (burgCellsAfter parentMap projection options pack k) x)
      as [[Hnl ->]|[[Hi Hr] [[-> _]|(cell & _ & _ & _ & _ & ->)]]]; simpl.
    + destruct (Burg.i x =? 0)%N eqn:Ei; [done|]. apply N.eqb_neq in Ei.
      destruct (Burg.removed x) eqn:Er; [done|]. exfalso. by apply Hnl.
    + apply N.eqb_neq in Hi. by rewrite Hi, Hr.
    + apply N.eqb_neq in Hi. by rewrite Hi, Hr.
Qed.

(** C1, as amended. Whenever the restoring calls of [resample] return, the
    parent's grid, [pack.cells], cultures, religions and zones are as they
    were, and so is every field of every state but the pole, a state with an
    index other than 0 that is not removed being untouched. The parent is
    written to in three places. [restoreBurgs] scales the population of
    every burg with an index other than 0 that is not removed on the
    parent's own object and leaves everything else of the burgs.
    [restoreMarkers] shares the marker objects with the new pack and moves
    every one of them. [restoreProvinces] hands back the parent's own object
    for a province that has index 0, is removed or is on some new cell; so a
    province with an index other than 0 that is not removed and is on some
    new cell is the element of [pack.provinces] at its position, with the
    centre assigned from its burg or its pole; of a province nothing but the
    pole and the centre is ever written, and a province that is on no new
    cell is left as it was. *)
Theorem restore_writes_to_parent `{Env} (parentMap : ParentMap.t)
    (options : Options.t) (pack : Cells.t) (r : Restored) :
  restore parentMap options pack = Some r →
  let parent := ParentMap.pack parentMap in
  ∃ after, restoreParent parentMap options pack = Some after
    ∧ ParentMap.grid after = ParentMap.grid parentMap
    ∧ Pack.cells (ParentMap.pack after) = Pack.cells parent
    ∧ Pack.cultures (ParentMap.pack after) = Pack.cultures parent
    ∧ Pack.religions (ParentMap.pack after) = Pack.religions parent
    ∧ Pack.zones (ParentMap.pack after) = Pack.zones parent
    ∧ Forall2 (λ x y, y = State.setPole x (State.pole y)
                 ∧ (State.i x ≠ 0%N → State.removed x = false → y = x))
        (Pack.states parent) (Pack.states (ParentMap.pack after))
    ∧ Forall2 (λ x y, y = if (Burg.i x =? 0)%N || Burg.removed x then x
                          else Burg.scalePopulation x (Options.scale options))
        (Pack.burgs parent) (Pack.burgs (ParentMap.pack after))
    ∧ Pack.markers (ParentMap.pack after)
      = moved (Options.projection options) <$> Pack.markers parent
    ∧ Pack.markers (ParentMap.pack after) = objects (r_markers r)
    ∧ length (Pack.provinces (ParentMap.pack after)) = length (Pack.provinces parent)
    ∧ ∀ k x, Pack.provinces parent !! k = Some x →
        ∃ y z, Pack.provinces (ParentMap.pack after) !! k = Some y
          ∧ r_provinces r !! k = Some z
          ∧ y = Province.setCenter (Province.setPole x (Province.pole y))
                  (Province.center y)
          ∧ (Province.i x = 0%N ∨ Province.removed x = true →
             y = z ∧ Province.center y = Province.center x)
          ∧ (Province.i x ≠ 0%N → Province.removed x = false →
             ¬ present (o_province (r_overlays r)) (Province.i x) → y = x)
          ∧ (Province.i x ≠ 0%N → Province.removed x = false →
             present (o_province (r_overlays r)) (Province.i x) →
             y = z
             ∧ ∃ capital,
                 packBurgs (r_burgs r) !! N.to_nat (Province.burg x) = Some capital
                 ∧ (Burg.removed capital = false →
                    Province.center y = Some (Burg.cell capital))
                 ∧ (Burg.removed capital = true →
                    ∃ pole, Province.pole y = Some pole
                      ∧ Province.center y = findCell pole.1 pole.2)).
Proof.
  intros Hr parent. subst parent. unfold restore in Hr.
  destruct (restoreSecondaryCellData _ _ _) as [o|] eqn:Eo; [|done]. simpl in Hr.
  destruct (restoreCultures _ _ _) as [cultures|] eqn:Ec; [|done]. simpl in Hr.
  destruct (restoreStates _ _ _ _) as [states|] eqn:Es; [|done]. simpl in Hr.
  destruct (restoreReligions _ _ _) as [religions|] eqn:Er; [|done]. simpl in Hr.
  destruct (restoreProvinces _ _ _) as [provinces|] eqn:Ep; [|done]. simpl in Hr.
  destruct (restoreZones _ _ _) as [zones|] eqn:Ez; [|done]. simpl in Hr.
  injection Hr as <-. simpl.
  set (projection := Options.projection options) in *.
  set (burgs := restoreBurgs parentMap projection options (withOverlays pack o)) in *.
  destruct (mapM_held_Some _ _ _ _ (cultureElement_held parentMap projection _) Ec)
    as (ces & Hces & _).
  destruct (mapM_held_Some _ _ _ _ (religionElement_held parentMap projection _) Er)
    as (res & Hres & _).
  destruct (mapM_held_Some _ _ _ _ (zoneElement_held parentMap projection options) Ez)
    as (zes & Hzes & _).
  pose proof (restoreStatesElements_held parentMap projection (o_state o)
                (packBurgs burgs)) as Hses.
  rewrite Es in Hses.
  destruct (restoreStatesElements _ _ _ _) as [ses|] eqn:Eses; [|done].
  pose proof (restoreProvincesElements_held parentMap (o_province o) (packBurgs burgs))
    as Hpes.
  rewrite Ep in Hpes.
  destruct (restoreProvincesElements _ _ _) as [pes|] eqn:Epes; [|done].
  simpl in Hpes. injection Hpes as Hpes.
  exists (ParentMap.mk (ParentMap.grid parentMap)
            (Pack.mk (Pack.cells (ParentMap.pack parentMap))
               (parentAfter (Pack.cultures (ParentMap.pack parentMap)) ces)
               (parentAfter (Pack.states (ParentMap.pack parentMap)) ses)
               (parentBurgs burgs)
               (parentAfter (Pack.religions (ParentMap.pack parentMap)) res)
               (parentAfter (Pack.provinces (ParentMap.pack parentMap)) pes)
               (objects (restoreMarkers parentMap projection))
               (parentAfter (Pack.zones (ParentMap.pack parentMap)) zes))).
  split.
  { unfold restoreParent. rewrite Eo. simpl. fold projection.
    rewrite Hces. simpl. fold burgs. rewrite Eses. simpl. rewrite Hres. simpl.
    rewrite Epes. simpl. rewrite Hzes. done. }
  simpl.
  split; [done|]. split; [done|].
  split.
  { apply parentAfter_frame. apply mapM_Some in Hces.
    eapply Forall2_impl; [exact Hces|]. intros x e. apply cultureElement_owner. }
  split.
  { apply parentAfter_frame. apply mapM_Some in Hres.
    eapply Forall2_impl; [exact Hres|]. intros x e. apply religionElement_owner. }
  split.
  { apply parentAfter_frame. apply mapM_Some in Hzes.
    eapply Forall2_impl; [exact Hzes|]. intros x e. apply zoneElement_owner. }
  split.
  { apply parentAfter_Forall2.
    unfold restoreStatesElements, BurgsAndStates_getPoles_elements in Eses.
    destruct (mapM (stateElement _ _ _) _) as [es0|] eqn:E0; [|done]. simpl in Eses.
    apply mapM_Some in E0, Eses. apply Forall2_fmap_l in Eses.
    eapply (Forall2_trans _ _ _ _ _ _ _ E0 Eses).
    Unshelve. intros x e0 e Hx He. simpl in *. by eapply stateElement_owner. }
  split; [apply restoreBurgs_parent|].
  split; [apply restoreMarkers_objects|]. split; [done|].
  assert (Forall2 (λ x e,
            writeM (recenterProvince (packBurgs burgs))
              (write (λ s, Province.setPole s
                             (getPolesOfInaccessibility (o_province o) (Province.i s)))
                 (provinceElement (o_province o) x)) = Some e)
            (Pack.provinces (ParentMap.pack parentMap)) pes) as Hall.
  { unfold restoreProvincesElements, Provinces_getPoles_elements in Epes.
    apply mapM_Some in Epes.
    rewrite <- list_fmap_compose in Epes. by apply Forall2_fmap_l in Epes. }
  split.
  { unfold parentAfter. rewrite length_zip_with, <- (Forall2_length _ _ _ Hall). lia. }
  intros k x Hx.
  destruct (Forall2_lookup_l _ _ _ _ _ Hall Hx) as (e & He & Hxe).
  exists (ownerAfter x e), (held e).
  split; [by apply parentAfter_lookup|].
  split; [by rewrite <- Hpes, list_lookup_fmap, He|].
  by apply provinceElement_owner.
Qed.

(** Under the shifted projection every burg leaves the map, the province
    South is on the new cells 1 and 2, and the parent's own South, whose
    centre was cell 2, ends with the centre on cell 1, as the element of
    [pack.provinces] does; the cultures are as they were. *)
Lemma restore_writes_to_parent_witness :
  ∃ r after south,
    @restore newEnv theParent shiftOptions newCells = Some r
    ∧ @restoreParent newEnv theParent shiftOptions newCells = Some after
    ∧ Pack.cultures (ParentMap.pack after) = parentCultures
    ∧ parentProvinces !! 2%nat
      = Some (Province.mk 2 "South" "South Province" (Some 2%nat) 2 None false false)
    ∧ Pack.provinces (ParentMap.pack after) !! 2%nat = Some south
    ∧ r_provinces r !! 2%nat = Some south
    ∧ Province.center south = Some 1%nat.
Proof.
  destruct (@restore newEnv theParent shiftOptions newCells) as [r|] eqn:Er;
    [|by vm_compute in Er].
  destruct (@restore_writes_to_parent newEnv theParent shiftOptions newCells r Er)
    as (after & Hafter & _ & _ & Hcultures & _ & _ & _ & _ & _ & _ & _ & Hprovinces).
  destruct (Hprovinces 2%nat
              (Province.mk 2 "South" "South Province" (Some 2%nat) 2 None false false)
              eq_refl) as (y & z & Hy & Hz & _ & _ & _ & Hkept).
  assert (present (o_province (r_overlays r)) 2%N) as Hp.
  { exists 1%nat. vm_compute in Er. by injection Er as <-. }
  destruct (Hkept ltac:(simpl; discriminate) eq_refl Hp) as (<- & _).
  assert (Province.center y = Some 1%nat) as Hc.
  { vm_compute in Er. injection Er as <-. vm_compute in Hz. by injection Hz as <-. }
  exists r, after, y. split; [first [exact Er|reflexivity]|].
  split; [exact Hafter|]. split; [exact Hcultures|]. split; [reflexivity|].
  split; [exact Hy|]. split; [exact Hz|exact Hc].
Defined.
